(** * scrapy/crawler.py: crawl life cycle, joint completion and shutdown

    A shallow embedding of [Crawler], [CrawlerRunner] and [CrawlerProcess].
    Python objects live in append-only stores and are named by their index,
    so that two references to one object alias.  Every method is a function
    in a state-and-exception monad over the [World]: the stores, the
    process-wide [scrapy.project.crawler] attribute, the installed shutdown
    handler, the reactor and a chronological trace of the calls made to the
    collaborators that [crawler.py] only imports.

    The file has three parts: the model of the code, method by method; the
    vocabulary in which the properties are stated; and the properties, each
    main one under the name of the behaviour it settles (C1 to C10), with
    a run of it on a small project at the end. *)

From stdpp Require Import base gmap sets list strings.
From Stdlib Require Import ZArith.

Local Open Scope string_scope.
Local Open Scope list_scope.
Local Open Scope nat_scope.

(** ** Exceptions *)

Inductive exn_class :=
| AssertionError
| AttributeError
| KeyError
| TypeError
| RuntimeError
| ReactorNotRunning          (* twisted.internet.error: a RuntimeError *)
| ReactorAlreadyRunning      (* twisted.internet.error *)
| AlreadyCalledError         (* twisted.internet.defer *)
| UserError (tag : nat).     (* any other subclass of Exception *)

(** An instance of (a subclass of) Python's [Exception]. *)
Record exn := mkExn { exn_cls : exn_class; exn_msg : string }.

(** [isinstance(e, RuntimeError)] *)
Definition is_RuntimeError (e : exn) : bool :=
  match exn_cls e with
  | RuntimeError | ReactorNotRunning => true
  | _ => false
  end.

(** ** Deferreds

    The result of a fired Deferred: a value (its content is never inspected
    by [crawler.py]) or a [Failure] wrapping an exception. *)
Inductive outcome :=
| Value
| Failure (e : exn).

Definition is_Failure (r : outcome) : bool :=
  match r with Failure _ => true | Value => false end.

(** [twisted.internet.defer.Deferred], for callbacks of type [C]. *)
Record Deferred (C : Type) := mkDeferred {
  result : option outcome;          (* [None] until the Deferred fires *)
  callbacks : list C;
}.
Arguments mkDeferred {C} _ _.
Arguments result {C} _.
Arguments callbacks {C} _.

(** The attribute [called]: set together with [result]. *)
Definition called {C} (d : Deferred C) : bool :=
  match result d with Some _ => true | None => false end.

(** The closure [gotResult] that [inlineCallbacks] attaches to a Deferred
    yielded by a generator: the program point to resume, the object the
    generator runs on and the Deferred that [inlineCallbacks] returned. *)
Inductive gotResult :=
| crawl_after_open_spider (self deferred : nat)      (* [Crawler.crawl], line 55 *)
| crawl_after_engine_start (self deferred : nat)     (* [Crawler.crawl], line 56 *)
| stop_after_engine_stop (self deferred : nat).      (* [Crawler.stop], line 71 *)

(** [DeferredList._cbDeferred] bound to a list and an index. *)
Inductive handle_callback :=
| CbDeferred (dl index : nat).

(** [lambda _: self._stop_reactor()] of [CrawlerProcess._start_reactor]. *)
Inductive list_callback :=
| CbStopReactor (self : nat).

(** [twisted.internet.defer.DeferredList] with its default flags. *)
Record ListObj := mkListObj {
  dl_deferred : Deferred list_callback;
  resultList : list (option (bool * outcome));
  finishedCount : nat;
}.

(** ** Collaborators *)

Definition Args := list string.

(** What an asynchronous call of the engine does: it raises, or it returns
    a Deferred that has already fired ([Some r]) or is still pending. *)
Inductive AsyncCall :=
| Raises (e : exn)
| Returns (r : option outcome).

(** [scrapy.core.engine.ExecutionEngine], by the behaviour of the three
    methods that [Crawler] calls. *)
Record Engine := mkEngine {
  open_spider : AsyncCall;
  engine_start : AsyncCall;
  engine_stop : AsyncCall;
}.

(** A spider: [iter(spider.start_requests())] raises or gives an iterator. *)
Record Spider := mkSpider { start_requests : option exn }.

(** A spider class: [spidercls.from_crawler(crawler, *args, **kwargs)]. *)
Record SpiderCls := mkSpiderCls { from_crawler : Args -> exn + Spider }.

(** The first argument of [CrawlerRunner.crawl]: a name or a class. *)
Inductive SpiderRef :=
| ByName (name : string)
| ByClass (cls : SpiderCls).

(** Modelled from the spec: [scrapy.settings.Settings] is defined outside
    [crawler.py].  A key-value store with a [frozen] flag; [frozencopy] gives a
    new, frozen object with the same content. *)
Record SettingsObj := mkSettings {
  attributes : gmap string Z;
  frozen : bool;
}.

(** Receivers connected to a crawler's [engine_stopped] signal. *)
Inductive Receiver :=
| uninstall_receiver          (* [crawler.uninstall] *)
| log_observer_stop.          (* [log_observer.stop] *)

Record CrawlerObj := mkCrawlerObj {
  spidercls : SpiderCls;
  settings : nat;                 (* reference into [settings_objs] *)
  signals : list Receiver;
  crawling : bool;
  spider : option Spider;
  engine : option Engine;
}.

(** [CrawlerRunner] and its subclass [CrawlerProcess]. *)
Record ProcessObj := mkProcessObj {
  runner_settings : nat;          (* reference into [settings_objs] *)
  spiders : gmap string SpiderCls;
  crawlers : gset nat;            (* references into [crawler_objs] *)
  crawl_deferreds : gset nat;     (* references into [deferreds] *)
  stopping : bool;
}.

(** The function installed by [install_shutdown_handlers]. *)
Inductive Handler :=
| SIG_DFL
| SIG_IGN
| signal_shutdown (self : nat)    (* [self._signal_shutdown] *)
| signal_kill (self : nat).       (* [self._signal_kill] *)

(** A bound method handed to the reactor. *)
Inductive BoundMethod :=
| runner_stop (self : nat)        (* [self.stop] *)
| stop_reactor (self : nat).      (* [self._stop_reactor] *)

Record Reactor := mkReactor {
  _started : bool;
  _stopped : bool;
  threadCallQueue : list BoundMethod;       (* [callFromThread] *)
  before_shutdown : list BoundMethod;       (* [addSystemEventTrigger] *)
  resolver_installed : bool;
}.

Inductive Event :=
| log_msg (text : string)
| log_scrapy_info (settings : nat)
| log_start_from_crawler (crawler : nat)
| ev_install_shutdown_handlers (h : Handler)
| ev_callFromThread (f : BoundMethod)
| ev_from_crawler (crawler : nat) (args : Args)
| ev_ExecutionEngine (crawler : nat)
| ev_start_requests (crawler : nat)
| ev_open_spider (crawler : nat)
| ev_engine_start (crawler : nat)
| ev_engine_stop (crawler : nat)
| ev_installResolver
| ev_addSystemEventTrigger (f : BoundMethod)
| ev_reactor_run
| ev_reactor_stop.

(** What the imported modules do, as far as [crawler.py] can observe. *)
Record Externals := mkExternals {
  (* [ExecutionEngine(crawler, callback)]: raises or builds an engine *)
  ExecutionEngine : nat -> exn + Engine;
  (* [smcls.from_settings(settings)]: the names the spider manager knows *)
  SpiderManager_from_settings : SettingsObj -> gmap string SpiderCls;
  (* [log.start_from_crawler(crawler)]: is a log observer returned? *)
  start_from_crawler : nat -> bool;
  (* [scrapy.utils.ossignal.signal_names] *)
  signal_names : gmap Z string;
}.

Record World := mkWorld {
  crawler_objs : list CrawlerObj;
  settings_objs : list SettingsObj;
  process_objs : list ProcessObj;
  engine_deferreds : list (Deferred gotResult);
  deferreds : list (Deferred handle_callback);
  deferred_lists : list ListObj;
  project_crawler : option nat;             (* [scrapy.project.crawler] *)
  shutdown_handler : Handler;
  the_reactor : Reactor;                    (* [twisted.internet.reactor] *)
  trace : list Event;
  ext : Externals;
}.

Definition with_crawler_objs (x : list CrawlerObj) (w : World) : World :=
  mkWorld x (settings_objs w) (process_objs w) (engine_deferreds w)
    (deferreds w) (deferred_lists w) (project_crawler w) (shutdown_handler w)
    (the_reactor w) (trace w) (ext w).
Definition with_settings_objs (x : list SettingsObj) (w : World) : World :=
  mkWorld (crawler_objs w) x (process_objs w) (engine_deferreds w)
    (deferreds w) (deferred_lists w) (project_crawler w) (shutdown_handler w)
    (the_reactor w) (trace w) (ext w).
Definition with_process_objs (x : list ProcessObj) (w : World) : World :=
  mkWorld (crawler_objs w) (settings_objs w) x (engine_deferreds w)
    (deferreds w) (deferred_lists w) (project_crawler w) (shutdown_handler w)
    (the_reactor w) (trace w) (ext w).
Definition with_engine_deferreds (x : list (Deferred gotResult)) (w : World) : World :=
  mkWorld (crawler_objs w) (settings_objs w) (process_objs w) x
    (deferreds w) (deferred_lists w) (project_crawler w) (shutdown_handler w)
    (the_reactor w) (trace w) (ext w).
Definition with_deferreds (x : list (Deferred handle_callback)) (w : World) : World :=
  mkWorld (crawler_objs w) (settings_objs w) (process_objs w) (engine_deferreds w)
    x (deferred_lists w) (project_crawler w) (shutdown_handler w)
    (the_reactor w) (trace w) (ext w).
Definition with_deferred_lists (x : list ListObj) (w : World) : World :=
  mkWorld (crawler_objs w) (settings_objs w) (process_objs w) (engine_deferreds w)
    (deferreds w) x (project_crawler w) (shutdown_handler w)
    (the_reactor w) (trace w) (ext w).
Definition with_project_crawler (x : option nat) (w : World) : World :=
  mkWorld (crawler_objs w) (settings_objs w) (process_objs w) (engine_deferreds w)
    (deferreds w) (deferred_lists w) x (shutdown_handler w)
    (the_reactor w) (trace w) (ext w).
Definition with_shutdown_handler (x : Handler) (w : World) : World :=
  mkWorld (crawler_objs w) (settings_objs w) (process_objs w) (engine_deferreds w)
    (deferreds w) (deferred_lists w) (project_crawler w) x
    (the_reactor w) (trace w) (ext w).
Definition with_reactor (x : Reactor) (w : World) : World :=
  mkWorld (crawler_objs w) (settings_objs w) (process_objs w) (engine_deferreds w)
    (deferreds w) (deferred_lists w) (project_crawler w) (shutdown_handler w)
    x (trace w) (ext w).
Definition with_trace (x : list Event) (w : World) : World :=
  mkWorld (crawler_objs w) (settings_objs w) (process_objs w) (engine_deferreds w)
    (deferreds w) (deferred_lists w) (project_crawler w) (shutdown_handler w)
    (the_reactor w) x (ext w).

(** ** The monad of methods: state and exceptions *)

Inductive Res (A : Type) :=
| Ok (a : A)
| Raise (e : exn).
Arguments Ok {A} _.
Arguments Raise {A} _.

Definition M (A : Type) : Type := World -> Res A * World.

#[global] Instance M_ret : MRet M := λ A a w, (Ok a, w).
#[global] Instance M_bind : MBind M := λ A B k m w,
  match m w with
  | (Ok a, w') => k a w'
  | (Raise e, w') => (Raise e, w')
  end.

Definition raise {A} (e : exn) : M A := λ w, (Raise e, w).

(** [try: body except Exception as e: handler(e)] *)
Definition try_except {A} (body : M A) (handler : exn -> M A) : M A := λ w,
  match body w with
  | (Ok a, w') => (Ok a, w')
  | (Raise e, w') => handler e w'
  end.

Definition get : M World := λ w, (Ok w, w).
Definition modify (f : World -> World) : M unit := λ w, (Ok tt, f w).

(** [assert cond, msg] *)
Definition assert (cond : bool) (msg : string) : M unit :=
  if cond then mret tt else raise (mkExn AssertionError msg).

Definition emit (e : Event) : M unit :=
  modify (λ w, with_trace (trace w ++ [e]) w).

(** The world after a call, and what the call gave. *)
Definition world_after {A} (m : M A) (w : World) : World := (m w).2.
Definition outcome_of {A} (m : M A) (w : World) : Res A := (m w).1.

(** [for x in xs: f(x)] *)
Fixpoint for_each {A} (xs : list A) (f : A -> M unit) : M unit :=
  match xs with
  | [] => mret tt
  | x :: xs' => f x ;; for_each xs' f
  end.

(** [[f(x) for x in xs]] *)
Fixpoint map_M {A B} (f : A -> M B) (xs : list A) : M (list B) :=
  match xs with
  | [] => mret []
  | x :: xs' => y ← f x; ys ← map_M f xs'; mret (y :: ys)
  end.

Definition no_such_object : exn := mkExn AttributeError "no such object".

(** ** twisted.internet.reactor *)

Module reactor.

Definition initial : Reactor := mkReactor false true [] [] false.

(** [reactor.stop()]: refused when the loop is not running. *)
Definition stop : M unit :=
  w ← get;
  if _stopped (the_reactor w) then
    raise (mkExn ReactorNotRunning "Can't stop reactor that isn't running.")
  else
    modify (λ w, let r := the_reactor w in
      with_reactor (mkReactor (_started r) true (threadCallQueue r)
                      (before_shutdown r) (resolver_installed r)) w);;
    emit ev_reactor_stop.

(** [reactor.run(installSignalHandlers=False)].  The call blocks while the
    loop runs; what happens in the loop is what happens to the world
    after this function. *)
Definition run : M unit :=
  w ← get;
  if _started (the_reactor w) then
    raise (mkExn ReactorAlreadyRunning "")
  else
    modify (λ w, let r := the_reactor w in
      with_reactor (mkReactor true false (threadCallQueue r)
                      (before_shutdown r) (resolver_installed r)) w);;
    emit ev_reactor_run.

(** [reactor.callFromThread(f)]: [f] is queued for the loop thread. *)
Definition callFromThread (f : BoundMethod) : M unit :=
  modify (λ w, let r := the_reactor w in
    with_reactor (mkReactor (_started r) (_stopped r) (threadCallQueue r ++ [f])
                    (before_shutdown r) (resolver_installed r)) w);;
  emit (ev_callFromThread f).

(** [reactor.addSystemEventTrigger('before', 'shutdown', f)] *)
Definition addSystemEventTrigger (f : BoundMethod) : M unit :=
  modify (λ w, let r := the_reactor w in
    with_reactor (mkReactor (_started r) (_stopped r) (threadCallQueue r)
                    (before_shutdown r ++ [f]) (resolver_installed r)) w);;
  emit (ev_addSystemEventTrigger f).

(** [reactor.installResolver(CachingThreadedResolver(reactor))] *)
Definition installResolver : M unit :=
  modify (λ w, let r := the_reactor w in
    with_reactor (mkReactor (_started r) (_stopped r) (threadCallQueue r)
                    (before_shutdown r) true) w);;
  emit ev_installResolver.

End reactor.

(** [CrawlerProcess._stop_reactor] (lines 152-156).  It stands ahead of the
    Deferreds because a DeferredList calls it back. *)
Definition _stop_reactor (self : nat) : M unit :=
  try_except reactor.stop
    (λ e, if is_RuntimeError e then mret tt else raise e).

(** ** twisted.internet.defer *)

Section Deferred_methods.
Context {C : Type}.
Variable lookup_d : nat -> World -> option (Deferred C).
Variable update_d : nat -> Deferred C -> World -> World.
Variable run_cb : C -> outcome -> M outcome.

(** One turn of the loop of [_runCallbacks]: the callback receives the
    current result and what it returns (or raises) is the new result. *)
Definition run_callback (d : nat) (cb : C) : M unit :=
  w ← get;
  match lookup_d d w with
  | Some (mkDeferred (Some r) _) =>
      r' ← try_except (run_cb cb r) (λ e, mret (Failure e));
      modify (λ w, match lookup_d d w with
                   | Some D => update_d d (mkDeferred (Some r') (callbacks D)) w
                   | None => w
                   end)
  | _ => mret tt
  end.

Definition _runCallbacks (d : nat) : M unit :=
  w ← get;
  match lookup_d d w with
  | Some D =>
      modify (update_d d (mkDeferred (result D) []));;
      for_each (callbacks D) (run_callback d)
  | None => mret tt
  end.

(** [Deferred.callback(result)] and, with a [Failure], [errback]. *)
Definition callback (d : nat) (r : outcome) : M unit :=
  w ← get;
  match lookup_d d w with
  | Some D =>
      if called D then raise (mkExn AlreadyCalledError "")
      else
        modify (update_d d (mkDeferred (Some r) (callbacks D)));;
        _runCallbacks d
  | None => raise no_such_object
  end.

(** [Deferred.addCallbacks(f, f)], that is [addBoth(f)]. *)
Definition addBoth (d : nat) (cb : C) : M unit :=
  w ← get;
  match lookup_d d w with
  | Some D =>
      modify (update_d d (mkDeferred (result D) (callbacks D ++ [cb])));;
      if called D then _runCallbacks d else mret tt
  | None => raise no_such_object
  end.
End Deferred_methods.

(** A [DeferredList] as a Deferred, and its callback for the members. *)
Module DeferredList.

Definition lookup (dl : nat) (w : World) : option (Deferred list_callback) :=
  dl_deferred <$> deferred_lists w !! dl.

Definition update (dl : nat) (D : Deferred list_callback) (w : World) : World :=
  with_deferred_lists
    (alter (λ L, mkListObj D (resultList L) (finishedCount L)) dl (deferred_lists w)) w.

Definition run_cb (cb : list_callback) (r : outcome) : M outcome :=
  match cb with
  | CbStopReactor self => _stop_reactor self;; mret Value
  end.

Definition callback : nat -> outcome -> M unit := callback lookup update run_cb.
Definition addBoth : nat -> list_callback -> M unit := addBoth lookup update run_cb.

(** [_cbDeferred(result, index, succeeded)] with [fireOnOneCallback],
    [fireOnOneErrback] and [consumeErrors] all false. *)
Definition _cbDeferred (self index : nat) (r : outcome) : M outcome :=
  w ← get;
  match deferred_lists w !! self with
  | Some L =>
      let L' := mkListObj (dl_deferred L)
                  (<[index := Some (negb (is_Failure r), r)]> (resultList L))
                  (S (finishedCount L)) in
      modify (with_deferred_lists (<[self := L']> (deferred_lists w)));;
      (if negb (called (dl_deferred L'))
          && (finishedCount L' =? length (resultList L'))%nat
       then callback self Value
       else mret tt);;
      mret r
  | None => raise no_such_object
  end.

End DeferredList.

Inductive Gen :=
| Returned       (* the generator finished *)
| Suspended.     (* it waits at a [yield] for a pending Deferred *)

Module defer.

Definition lookup (d : nat) (w : World) : option (Deferred handle_callback) :=
  deferreds w !! d.

Definition update (d : nat) (D : Deferred handle_callback) (w : World) : World :=
  with_deferreds (<[d := D]> (deferreds w)) w.

Definition run_cb (cb : handle_callback) (r : outcome) : M outcome :=
  match cb with
  | CbDeferred dl index => DeferredList._cbDeferred dl index r
  end.

(** [Deferred()] *)
Definition new : M nat :=
  w ← get;
  modify (with_deferreds (deferreds w ++ [mkDeferred None []]));;
  mret (length (deferreds w)).

Definition callback : nat -> outcome -> M unit := callback lookup update run_cb.
Definition errback (d : nat) (e : exn) : M unit := callback d (Failure e).
Definition addBoth : nat -> handle_callback -> M unit := addBoth lookup update run_cb.

(** [DeferredList(deferredList)] *)
Definition DeferredList (deferredList : list nat) : M nat :=
  w ← get;
  let self := length (deferred_lists w) in
  modify (with_deferred_lists
            (deferred_lists w ++
             [mkListObj (mkDeferred None []) (replicate (length deferredList) None) 0]));;
  (if (length deferredList =? 0)%nat then DeferredList.callback self Value else mret tt);;
  for_each (imap pair deferredList)
    (λ '(index, d), addBoth d (CbDeferred self index));;
  mret self.

(** A Deferred of the engine, born fired ([Some r]) or pending. *)
Definition engine_deferred (r : option outcome) : M nat :=
  w ← get;
  modify (with_engine_deferreds (engine_deferreds w ++ [mkDeferred r []]));;
  mret (length (engine_deferreds w)).

(** A plain call [f(...)] of an asynchronous method. *)
Definition call (f : AsyncCall) : M nat :=
  match f with
  | Raises e => raise e
  | Returns r => engine_deferred r
  end.

(** [maybeDeferred(f)]: an exception becomes a failed Deferred. *)
Definition maybeDeferred (f : AsyncCall) : M nat :=
  match f with
  | Raises e => engine_deferred (Some (Failure e))
  | Returns r => engine_deferred r
  end.

(** [yield d] under [inlineCallbacks].  When [d] has fired, [gotResult]
    runs at once, keeps the result for the generator and leaves [None]
    as the result of [d]; the generator goes on ([rest]).  When [d] is
    pending, [gotResult] is queued on it ([k] names it). *)
Definition await (rest : outcome -> M Gen) (d : nat) (k : gotResult) : M Gen :=
  w ← get;
  match engine_deferreds w !! d with
  | Some (mkDeferred (Some r) cbs) =>
      modify (with_engine_deferreds
                (<[d := mkDeferred (Some Value) cbs]> (engine_deferreds w)));;
      rest r
  | Some (mkDeferred None cbs) =>
      modify (with_engine_deferreds
                (<[d := mkDeferred None (cbs ++ [k])]> (engine_deferreds w)));;
      mret Suspended
  | None => raise no_such_object
  end.

(** [_inlineCallbacks]: run the generator [g] up to its next stop.  When
    it returns, [deferred] fires with [None]; when it raises, [deferred]
    fails with the exception. *)
Definition _inlineCallbacks (deferred : nat) (g : M Gen) : M unit := λ w,
  match g w with
  | (Ok Returned, w') => callback deferred Value w'
  | (Ok Suspended, w') => (Ok tt, w')
  | (Raise e, w') => errback deferred e w'
  end.

(** [@inlineCallbacks]: a call of the decorated function makes the
    Deferred it returns, then runs the generator up to its first stop.
    (The generator is told [deferred] so that [gotResult] can name it.) *)
Definition inlineCallbacks (f : nat -> M Gen) : M nat :=
  deferred ← new;
  _inlineCallbacks deferred (f deferred);;
  mret deferred.

End defer.

(** ** class Crawler *)

Definition set_crawling (b : bool) (c : CrawlerObj) : CrawlerObj :=
  mkCrawlerObj (spidercls c) (settings c) (signals c) b (spider c) (engine c).
Definition set_spider (s : Spider) (c : CrawlerObj) : CrawlerObj :=
  mkCrawlerObj (spidercls c) (settings c) (signals c) (crawling c) (Some s) (engine c).
Definition set_engine (e : Engine) (c : CrawlerObj) : CrawlerObj :=
  mkCrawlerObj (spidercls c) (settings c) (signals c) (crawling c) (spider c) (Some e).
Definition connect (r : Receiver) (c : CrawlerObj) : CrawlerObj :=
  mkCrawlerObj (spidercls c) (settings c) (signals c ++ [r]) (crawling c) (spider c) (engine c).

Definition get_crawler (self : nat) : M CrawlerObj :=
  w ← get;
  match crawler_objs w !! self with
  | Some c => mret c
  | None => raise no_such_object
  end.

Definition update_crawler (self : nat) (f : CrawlerObj -> CrawlerObj) : M unit :=
  modify (λ w, with_crawler_objs (alter f self (crawler_objs w)) w).

Module Crawler.

(** Lines 17-32.  The signal manager starts with no receiver; the stats,
    log formatter, extensions and spider manager are not used below. *)
Definition __init__ (spidercls : SpiderCls) (settings : nat) : M nat :=
  w ← get;
  modify (with_crawler_objs
            (crawler_objs w ++ [mkCrawlerObj spidercls settings [] false None None]));;
  mret (length (crawler_objs w)).

Definition install (self : nat) : M unit :=
  w ← get;
  assert (bool_decide (project_crawler w = None)) "crawler already installed";;
  modify (with_project_crawler (Some self)).

Definition uninstall (self : nat) : M unit :=
  w ← get;
  assert (bool_decide (project_crawler w ≠ None)) "crawler not installed";;
  modify (with_project_crawler None).

Definition _create_spider (self : nat) (args : Args) : M Spider :=
  c ← get_crawler self;
  emit (ev_from_crawler self args);;
  match from_crawler (spidercls c) args with
  | inl e => raise e
  | inr s => mret s
  end.

Definition _create_engine (self : nat) : M Engine :=
  w ← get;
  emit (ev_ExecutionEngine self);;
  match ExecutionEngine (ext w) self with
  | inl e => raise e
  | inr e => mret e
  end.

(** [self.spider] and [self.engine], read for a method call. *)
Definition get_spider (self : nat) : M Spider :=
  c ← get_crawler self;
  match spider c with
  | Some s => mret s
  | None => raise (mkExn AttributeError "'NoneType' object has no attribute")
  end.

Definition get_engine (self : nat) : M Engine :=
  c ← get_crawler self;
  match engine c with
  | Some e => mret e
  | None => raise (mkExn AttributeError "'NoneType' object has no attribute")
  end.

(** Lines 57-59: [except Exception: self.crawling = False; raise]. *)
Definition rollback {A} (self : nat) (e : exn) : M A :=
  update_crawler self (set_crawling false);;
  raise e.

(** The [try] body of [crawl] from the second [yield] on (line 56). *)
Definition try_body_2 (r : outcome) : M Gen :=
  match r with
  | Failure e => raise e
  | Value => mret Returned
  end.

(** The [try] body from the first [yield] on (lines 55-56). *)
Definition try_body_1 (self deferred : nat) (r : outcome) : M Gen :=
  match r with
  | Failure e => raise e
  | Value =>
      e ← get_engine self;
      emit (ev_engine_start self);;
      d ← defer.maybeDeferred (engine_start e);
      defer.await try_body_2 d (crawl_after_engine_start self deferred)
  end.

(** The [try] body from its start (lines 52-56). *)
Definition try_body (self deferred : nat) (args : Args) : M Gen :=
  s ← _create_spider self args;
  update_crawler self (set_spider s);;
  e ← _create_engine self;
  update_crawler self (set_engine e);;
  s ← get_spider self;
  emit (ev_start_requests self);;
  match start_requests s with Some e => raise e | None => mret tt end;;
  e ← get_engine self;
  emit (ev_open_spider self);;
  d ← defer.call (open_spider e);
  defer.await (try_body_1 self deferred) d (crawl_after_open_spider self deferred).

(** Lines 47-59, the generator function under the decorator. *)
Definition crawl_generator (self : nat) (args : Args) (deferred : nat) : M Gen :=
  c ← get_crawler self;
  assert (negb (crawling c)) "Crawling already taking place";;
  update_crawler self (set_crawling true);;
  try_except (try_body self deferred args) (rollback self).

(** Lines 46-59. *)
Definition crawl (self : nat) (args : Args) : M nat :=
  defer.inlineCallbacks (crawl_generator self args).

(** [stop] from its [yield] on (line 71). *)
Definition stop_1 (r : outcome) : M Gen :=
  match r with
  | Failure e => raise e
  | Value => mret Returned
  end.

(** Lines 68-71, the generator function under the decorator. *)
Definition stop_generator (self : nat) (deferred : nat) : M Gen :=
  c ← get_crawler self;
  if crawling c then
    update_crawler self (set_crawling false);;
    e ← get_engine self;
    emit (ev_engine_stop self);;
    d ← defer.maybeDeferred (engine_stop e);
    defer.await stop_1 d (stop_after_engine_stop self deferred)
  else mret Returned.

(** Lines 67-71. *)
Definition stop (self : nat) : M nat :=
  defer.inlineCallbacks (stop_generator self).

(** A generator taken up again where it was suspended. *)
Definition resume (k : gotResult) (r : outcome) : M Gen :=
  match k with
  | crawl_after_open_spider self deferred =>
      try_except (try_body_1 self deferred r) (rollback self)
  | crawl_after_engine_start self _ =>
      try_except (try_body_2 r) (rollback self)
  | stop_after_engine_stop _ _ => stop_1 r
  end.

End Crawler.

(** The Deferreds that the engine hands out and fires. *)
Module EngineDeferred.

Definition lookup (d : nat) (w : World) : option (Deferred gotResult) :=
  engine_deferreds w !! d.

Definition update (d : nat) (D : Deferred gotResult) (w : World) : World :=
  with_engine_deferreds (<[d := D]> (engine_deferreds w)) w.

Definition deferred_of (k : gotResult) : nat :=
  match k with
  | crawl_after_open_spider _ deferred
  | crawl_after_engine_start _ deferred
  | stop_after_engine_stop _ deferred => deferred
  end.

(** [gotResult(r)] once the generator waits: [_inlineCallbacks(r, g,
    deferred)], and [None] is returned. *)
Definition run_cb (k : gotResult) (r : outcome) : M outcome :=
  defer._inlineCallbacks (deferred_of k) (Crawler.resume k r);;
  mret Value.

Definition callback : nat -> outcome -> M unit := callback lookup update run_cb.

End EngineDeferred.

(** ** scrapy.settings and scrapy.utils.ossignal *)

Module Settings.

Definition lookup (self : nat) : M SettingsObj :=
  w ← get;
  match settings_objs w !! self with
  | Some s => mret s
  | None => raise no_such_object
  end.

(** Modelled from the spec: [Settings.frozencopy] is defined outside
    [crawler.py]; a frozen copy is a new object with the same content that
    refuses later changes. *)
Definition frozencopy (self : nat) : M nat :=
  s ← lookup self;
  w ← get;
  modify (with_settings_objs (settings_objs w ++ [mkSettings (attributes s) true]));;
  mret (length (settings_objs w)).

(** Modelled from the spec: [Settings.set] is defined outside [crawler.py]; a
    frozen object is immutable. *)
Definition set (self : nat) (name : string) (value : Z) : M unit :=
  s ← lookup self;
  assert (negb (frozen s)) "Trying to modify an immutable Settings object";;
  modify (λ w, with_settings_objs
                 (<[self := mkSettings (<[name := value]> (attributes s)) (frozen s)]>
                    (settings_objs w)) w).

(** Modelled from the spec: [Settings.get] and [getbool] are defined
    outside [crawler.py]; a missing key reads as false. *)
Definition get_ (self : nat) (name : string) : M (option Z) :=
  s ← lookup self;
  mret (attributes s !! name).

Definition getbool (self : nat) (name : string) : M bool :=
  v ← get_ self name;
  mret (match v with Some v => negb (v =? 0)%Z | None => false end).

End Settings.

(** Modelled from the spec: [install_shutdown_handlers] is defined in
    [scrapy.utils.ossignal]; it makes [function] the handler of the termination signals. *)
Definition install_shutdown_handlers (function : Handler) : M unit :=
  modify (with_shutdown_handler function);;
  emit (ev_install_shutdown_handlers function).

(** ** class CrawlerRunner *)

Definition add_crawler (c : nat) (p : ProcessObj) : ProcessObj :=
  mkProcessObj (runner_settings p) (spiders p) ({[c]} ∪ crawlers p)
    (crawl_deferreds p) (stopping p).
Definition add_crawl_deferred (d : nat) (p : ProcessObj) : ProcessObj :=
  mkProcessObj (runner_settings p) (spiders p) (crawlers p)
    ({[d]} ∪ crawl_deferreds p) (stopping p).
Definition set_stopping (b : bool) (p : ProcessObj) : ProcessObj :=
  mkProcessObj (runner_settings p) (spiders p) (crawlers p) (crawl_deferreds p) b.

Definition get_process (self : nat) : M ProcessObj :=
  w ← get;
  match process_objs w !! self with
  | Some p => mret p
  | None => raise no_such_object
  end.

Definition update_process (self : nat) (f : ProcessObj -> ProcessObj) : M unit :=
  modify (λ w, with_process_objs (alter f self (process_objs w)) w).

Module CrawlerRunner.

(** Lines 76-81. *)
Definition __init__ (settings : nat) : M nat :=
  copy ← Settings.frozencopy settings;
  copy ← Settings.lookup copy;
  w ← get;
  let spiders := SpiderManager_from_settings (ext w) copy in
  modify (with_process_objs (process_objs w ++ [mkProcessObj settings spiders ∅ ∅ false]));;
  mret (length (process_objs w)).

(** Lines 101-105. *)
Definition _create_crawler (self : nat) (spidercls : SpiderRef) : M nat :=
  p ← get_process self;
  spidercls ← match spidercls with
              | ByName name =>
                  match spiders p !! name with
                  | Some cls => mret cls
                  | None => raise (mkExn KeyError ("Spider not found: " +:+ name))
                  end
              | ByClass cls => mret cls
              end;
  copy ← Settings.frozencopy (runner_settings p);
  Crawler.__init__ spidercls copy.

(** Lines 94-99. *)
Definition _create_logged_crawler (self : nat) (spidercls : SpiderRef) : M nat :=
  crawler ← _create_crawler self spidercls;
  emit (log_start_from_crawler crawler);;
  w ← get;
  (if start_from_crawler (ext w) crawler
   then update_crawler crawler (connect log_observer_stop)
   else mret tt);;
  mret crawler.

(** Lines 83-92. *)
Definition crawl (self : nat) (spidercls : SpiderRef) (args : Args) : M nat :=
  crawler ← _create_logged_crawler self spidercls;
  update_process self (add_crawler crawler);;
  Crawler.install crawler;;
  update_crawler crawler (connect uninstall_receiver);;
  d ← Crawler.crawl crawler args;
  update_process self (add_crawl_deferred d);;
  mret d.

(** Lines 107-108. *)
Definition stop (self : nat) : M nat :=
  p ← get_process self;
  ds ← map_M Crawler.stop (elements (crawlers p));
  defer.DeferredList ds.

End CrawlerRunner.

(** ** class CrawlerProcess(CrawlerRunner) *)

Module CrawlerProcess.

(** Lines 114-117. *)
Definition __init__ (settings : nat) : M nat :=
  self ← CrawlerRunner.__init__ settings;
  install_shutdown_handlers (signal_shutdown self);;
  update_process self (set_stopping false);;
  mret self.

(** [signal_names[signum]] *)
Definition signal_name (signum : Z) : M string :=
  w ← get;
  match signal_names (ext w) !! signum with
  | Some name => mret name
  | None => raise (mkExn KeyError "signum")
  end.

(** Lines 119-124. *)
Definition _signal_shutdown (self : nat) (signum : Z) : M unit :=
  install_shutdown_handlers (signal_kill self);;
  signame ← signal_name signum;
  emit (log_msg ("Received " +:+ signame +:+
                 ", shutting down gracefully. Send again to force "));;
  reactor.callFromThread (runner_stop self).

(** Lines 126-131. *)
Definition _signal_kill (self : nat) (signum : Z) : M unit :=
  install_shutdown_handlers SIG_IGN;;
  signame ← signal_name signum;
  emit (log_msg ("Received " +:+ signame +:+ " twice, forcing unclean shutdown"));;
  reactor.callFromThread (stop_reactor self).

(** Lines 137-138. *)
Definition _start_logging (self : nat) : M unit :=
  p ← get_process self;
  emit (log_scrapy_info (runner_settings p)).

(** Lines 140-150.  [true] is given when the method returns at line 145,
    before the reactor is touched. *)
Definition _start_reactor (self : nat) (stop_after_crawl : bool) : M bool :=
  p ← get_process self;
  fired ← (if stop_after_crawl then
             d ← defer.DeferredList (elements (crawl_deferreds p));
             w ← get;
             if default false (called <$> DeferredList.lookup d w) then mret true
             else DeferredList.addBoth d (CbStopReactor self);; mret false
           else mret false);
  if fired : bool then mret true
  else
    dns ← Settings.getbool (runner_settings p) "DNSCACHE_ENABLED";
    (if dns : bool then reactor.installResolver else mret tt);;
    reactor.addSystemEventTrigger (runner_stop self);;
    reactor.run;;
    mret false.

(** Lines 133-135. *)
Definition start (self : nat) (stop_after_crawl : bool) : M bool :=
  _start_logging self;;
  _start_reactor self stop_after_crawl.

End CrawlerProcess.

(** ** What happens to the process from outside *)

(** The loop thread, or the reactor at shutdown, calls a bound method. *)
Definition call_method (f : BoundMethod) : M unit :=
  match f with
  | runner_stop self => CrawlerRunner.stop self;; mret tt
  | stop_reactor self => _stop_reactor self
  end.

(** The loop thread runs the oldest call queued by [callFromThread]. *)
Definition run_thread_call : M unit :=
  w ← get;
  match threadCallQueue (the_reactor w) with
  | [] => mret tt
  | f :: q =>
      modify (λ w, let r := the_reactor w in
        with_reactor (mkReactor (_started r) (_stopped r) q
                        (before_shutdown r) (resolver_installed r)) w);;
      call_method f
  end.

(** A termination signal arrives: the installed handler runs. *)
Definition deliver_signal (signum : Z) : M unit :=
  w ← get;
  match shutdown_handler w with
  | signal_shutdown self => CrawlerProcess._signal_shutdown self signum
  | signal_kill self => CrawlerProcess._signal_kill self signum
  | SIG_IGN | SIG_DFL => mret tt
  end.

(** The engine of [crawler] sends [engine_stopped]: the connected receivers
    run; the dispatcher logs what a receiver raises and goes on. *)
Definition send_engine_stopped (crawler : nat) : M unit :=
  c ← get_crawler crawler;
  for_each (signals c)
    (λ r, match r with
          | uninstall_receiver => try_except (Crawler.uninstall crawler) (λ _, mret tt)
          | log_observer_stop => mret tt
          end).

(** * The vocabulary of the properties *)

(** ** The loop stop *)

(** The reactor with its [_stopped] flag set. *)
Definition stopped (r : Reactor) : Reactor :=
  mkReactor (_started r) true (threadCallQueue r) (before_shutdown r)
    (resolver_installed r).

(** The reactor with one more call queued for the loop thread. *)
Definition queued (f : BoundMethod) (r : Reactor) : Reactor :=
  mkReactor (_started r) (_stopped r) (threadCallQueue r ++ [f])
    (before_shutdown r) (resolver_installed r).

(** ** Signals *)

(** What a signal handler of [CrawlerProcess] does to the world: a new
    handler, a log line, a call queued for the loop thread. *)
Definition handled (h : Handler) (text : string) (f : BoundMethod) (w : World) : World :=
  with_trace (trace w ++ [ev_install_shutdown_handlers h; log_msg text; ev_callFromThread f])
    (with_reactor (queued f (the_reactor w))
       (with_shutdown_handler h w)).

(** ** Starting a crawl that is under way *)

Definition already_crawling : exn :=
  mkExn AssertionError "Crawling already taking place".

(** ** Stopping a crawler *)

(** The Deferred that an asynchronous call under [maybeDeferred] gives, by
    its state at birth. *)
Definition born (f : AsyncCall) : option outcome :=
  match f with
  | Raises e => Some (Failure e)
  | Returns r => r
  end.

(** How a generator leaves a [yield] on a Deferred born in state [r], when
    nothing follows the [yield] but the end of the function. *)
Definition gen_result (r : option outcome) : Res Gen :=
  match r with
  | Some Value => Ok Returned
  | Some (Failure e) => Raise e
  | None => Ok Suspended
  end.

(** The Deferred of the engine after the [yield]: consumed, or waited for. *)
Definition awaited (r : option outcome) (k : gotResult) : Deferred gotResult :=
  match r with
  | Some _ => mkDeferred (Some Value) []
  | None => mkDeferred None [k]
  end.

(** The world once [stop] has asked engine [e] to stop. *)
Definition stop_requested (self : nat) (e : Engine) (w : World) : World :=
  with_engine_deferreds
    (engine_deferreds w ++
     [awaited (born (engine_stop e)) (stop_after_engine_stop self (length (deferreds w)))])
    (with_trace (trace w ++ [ev_engine_stop self])
       (with_crawler_objs (alter (set_crawling false) self (crawler_objs w)) w)).

Definition no_engine : exn := mkExn AttributeError "'NoneType' object has no attribute".

(** ** What a method leaves as it is *)

Definition preserves (P : World -> Prop) {A} (m : M A) : Prop :=
  ∀ w, P w -> P (world_after m w).

Definition keeps {X} (f : World -> X) {A} (m : M A) : Prop :=
  ∀ w, f (world_after m w) = f w.

(** ** The installed crawler *)

Definition already_installed : exn := mkExn AssertionError "crawler already installed".

Definition not_installed : exn := mkExn AssertionError "crawler not installed".

(** The class that [_create_crawler] makes a crawler of. *)
Definition resolve (p : ProcessObj) (ref : SpiderRef) : option SpiderCls :=
  match ref with
  | ByName name => spiders p !! name
  | ByClass cls => Some cls
  end.

(** The world with one more crawler, made for runner [p]. *)
Definition crawler_created (p : ProcessObj) (s : SettingsObj) (cls : SpiderCls) (w : World) : World :=
  let crawler := length (crawler_objs w) in
  with_crawler_objs
    (crawler_objs w ++
     [mkCrawlerObj cls (length (settings_objs w))
        (if start_from_crawler (ext w) crawler then [log_observer_stop] else [])
        false None None])
    (with_trace (trace w ++ [log_start_from_crawler crawler])
       (with_settings_objs (settings_objs w ++ [mkSettings (attributes s) true]) w)).

(** The world in which [CrawlerRunner.crawl] calls [Crawler.crawl]. *)
Definition submitted (self : nat) (p : ProcessObj) (s : SettingsObj) (cls : SpiderCls)
    (w : World) : World :=
  let crawler := length (crawler_objs w) in
  let w1 := crawler_created p s cls w in
  with_crawler_objs (alter (connect uninstall_receiver) crawler (crawler_objs w1))
    (with_project_crawler (Some crawler)
       (with_process_objs (alter (add_crawler crawler) self (process_objs w1)) w1)).

(** ** Settings *)

(** A caller that changes settings and goes on when a change is refused. *)
Definition set_all (updates : list (nat * string * Z)) : M unit :=
  for_each updates
    (λ '(r, name, value), try_except (Settings.set r name value) (λ _, mret tt)).

(** ** Starting a crawl *)

(** The calls that [crawl] makes to its collaborators, in order. *)
Definition crawl_calls (self : nat) (args : Args) : list Event :=
  [ev_from_crawler self args; ev_ExecutionEngine self; ev_start_requests self;
   ev_open_spider self; ev_engine_start self].

(** How the first run of [crawl] ends, by what the collaborators do. *)
Inductive FirstRun :=
| StepFailed (x : exn)
| WaitsForOpenSpider
| WaitsForEngineStart
| RanToEnd.

Definition first_run (cls : SpiderCls) (args : Args) (mk_engine : exn + Engine) : FirstRun :=
  match from_crawler cls args with
  | inl x => StepFailed x
  | inr s =>
      match mk_engine with
      | inl x => StepFailed x
      | inr e =>
          match start_requests s with
          | Some x => StepFailed x
          | None =>
              match open_spider e with
              | Raises x | Returns (Some (Failure x)) => StepFailed x
              | Returns None => WaitsForOpenSpider
              | Returns (Some Value) =>
                  match born (engine_start e) with
                  | Some (Failure x) => StepFailed x
                  | Some Value => RanToEnd
                  | None => WaitsForEngineStart
                  end
              end
          end
      end
  end.

Definition run_result (f : FirstRun) : Res Gen :=
  match f with
  | StepFailed x => Raise x
  | WaitsForOpenSpider | WaitsForEngineStart => Ok Suspended
  | RanToEnd => Ok Returned
  end.

Definition waits_on (f : FirstRun) (self h : nat) : option gotResult :=
  match f with
  | WaitsForOpenSpider => Some (crawl_after_open_spider self h)
  | WaitsForEngineStart => Some (crawl_after_engine_start self h)
  | _ => None
  end.

Definition still_crawling (f : FirstRun) : bool :=
  match f with StepFailed _ => false | _ => true end.

Definition handle_result (f : FirstRun) : option outcome :=
  match f with
  | StepFailed x => Some (Failure x)
  | RanToEnd => Some Value
  | _ => None
  end.

(** ** A failing start *)

(** [crawl] has given up: the flag is cleared and the Deferred that was
    returned has failed with [x]. *)
Definition crawl_failed (self h : nat) (x : exn) (w : World) : Prop :=
  (crawling <$> crawler_objs w !! self) = Some false
  ∧ deferreds w !! h = Some (mkDeferred (Some (Failure x)) []).

(** [crawl] is suspended: the Deferred [d] of the engine is pending with
    [gotResult] queued on it, and the Deferred [h] that was returned is
    pending. *)
Definition crawl_waiting (d : nat) (k : gotResult) (h : nat) (w : World) : Prop :=
  engine_deferreds w !! d = Some (mkDeferred None [k])
  ∧ (result <$> deferreds w !! h) = Some None.

(** ** The members of a DeferredList *)

(** Counting the elements of a list that pass a test. *)
Fixpoint count {A} (f : A -> bool) (l : list A) : nat :=
  match l with
  | [] => 0
  | x :: l' => (if f x then 1 else 0) + count f l'
  end.

(** Has the Deferred [h] returned by [inlineCallbacks] fired? *)
Definition is_called (w : World) (h : nat) : bool :=
  match deferreds w !! h with
  | Some D => called D
  | None => false
  end.

(** Has the DeferredList [dl] fired? *)
Definition list_called (w : World) (dl : nat) : bool :=
  match deferred_lists w !! dl with
  | Some L => called (dl_deferred L)
  | None => false
  end.

(** Is [cb] the [_cbDeferred] of list [dl]? *)
Definition targets (dl : nat) (cb : handle_callback) : bool :=
  match cb with
  | CbDeferred dl' _ => dl' =? dl
  end.

(** The DeferredList [dl], made for [n] Deferreds of which [hs] have been
    given its callback so far, is in step with them: it has counted the
    members that fired (but for [credit] callbacks that are about to run),
    it has fired exactly if it has counted [n], and its callback waits on
    the pending members and nowhere else. *)
Record joined (dl : nat) (hs : list nat) (n credit : nat) (w : World) : Prop := {
  joined_list :
    ∃ L, deferred_lists w !! dl = Some L
         ∧ length (resultList L) = n
         ∧ finishedCount L + credit = count (is_called w) hs
         ∧ called (dl_deferred L) = (finishedCount L =? n);
  joined_length : length hs ≤ n;
  joined_callbacks :
    ∀ h D, deferreds w !! h = Some D ->
      count (targets dl) (callbacks D) = if called D then 0 else count (Nat.eqb h) hs;
  joined_members : Forall (λ h, h < length (deferreds w)) hs;
}.

(** Between [w0] and [w] nothing happened to the Deferreds of
    [inlineCallbacks], and to the DeferredLists only this: the Deferred
    part of list [dl] may have changed, without un-firing. *)
Record list_touched (dl : nat) (w0 w : World) : Prop := {
  touched_deferreds : deferreds w = deferreds w0;
  touched_length : length (deferred_lists w) = length (deferred_lists w0);
  touched_others : ∀ j, j ≠ dl -> deferred_lists w !! j = deferred_lists w0 !! j;
  touched_list :
    ∀ L0, deferred_lists w0 !! dl = Some L0 ->
      ∃ L, deferred_lists w !! dl = Some L
           ∧ resultList L = resultList L0
           ∧ finishedCount L = finishedCount L0
           ∧ (called (dl_deferred L0) = true -> called (dl_deferred L) = true);
}.

(** No callback waits yet for the list that will be made next. *)
Definition no_forward_callbacks (w : World) : Prop :=
  ∀ h D, deferreds w !! h = Some D ->
    Forall (λ cb, match cb with CbDeferred dl _ => dl < length (deferred_lists w) end)
      (callbacks D).

(** ** Histories *)

(** What can happen to a process: the calls of the public methods, and the
    events that reach it from the loop, the operating system, the engine
    and the code that holds the settings. *)
Inductive Operation :=
| op_new_process (settings : nat)                             (* [CrawlerProcess(settings)] *)
| op_crawl (self : nat) (spidercls : SpiderRef) (args : Args)  (* [self.crawl(...)] *)
| op_stop (self : nat)                                        (* [self.stop()] *)
| op_start (self : nat) (stop_after_crawl : bool)             (* [self.start(...)] *)
| op_stop_reactor (self : nat)                                (* [self._stop_reactor()] *)
| op_signal (signum : Z)                                      (* a termination signal *)
| op_thread_call                                              (* the loop runs a queued call *)
| op_fire (d : nat) (r : outcome)                             (* the engine fires a Deferred *)
| op_crawler_stop (crawler : nat)                             (* the engine calls [crawler.stop()] *)
| op_engine_stopped (crawler : nat)                           (* the signal [engine_stopped] *)
| op_settings_set (settings : nat) (name : string) (value : Z).

Definition perform (op : Operation) : M unit :=
  match op with
  | op_new_process settings => CrawlerProcess.__init__ settings ;; mret tt
  | op_crawl self spidercls args => CrawlerRunner.crawl self spidercls args ;; mret tt
  | op_stop self => CrawlerRunner.stop self ;; mret tt
  | op_start self stop_after_crawl => CrawlerProcess.start self stop_after_crawl ;; mret tt
  | op_stop_reactor self => _stop_reactor self
  | op_signal signum => deliver_signal signum
  | op_thread_call => run_thread_call
  | op_fire d r => EngineDeferred.callback d r
  | op_crawler_stop crawler => Crawler.stop crawler ;; mret tt
  | op_engine_stopped crawler => send_engine_stopped crawler
  | op_settings_set settings name value => Settings.set settings name value
  end.

(** A history: each operation runs in turn; one that raises is over, and
    the next one goes on from the world it left. *)
Definition history (ops : list Operation) : M unit :=
  for_each ops (λ op, try_except (perform op) (λ _, mret tt)).

(** ** Stopping the loop when the crawls are over *)

(** The loop runs, and list [dl] stops it on firing: while the list is
    pending it holds the callback [lambda _: self._stop_reactor()], and
    once it has fired the reactor has been stopped. *)
Record stops_when_fired (dl self : nat) (w : World) : Prop := {
  swf_started : _started (the_reactor w) = true;
  swf_exists : dl < length (deferred_lists w);
  swf_pending :
    ∀ L, deferred_lists w !! dl = Some L -> called (dl_deferred L) = false ->
         CbStopReactor self ∈ callbacks (dl_deferred L);
  swf_fired : list_called w dl = true -> _stopped (the_reactor w) = true;
}.

(** The reactor keeps its [_started] flag, and stays stopped once it is. *)
Definition reactor_goes_on (a b : bool) (w : World) : Prop :=
  _started (the_reactor w) = a ∧ (b = true -> _stopped (the_reactor w) = true).

(** What [_start_reactor] does to the reactor before the loop runs. *)
Definition loop_setup (w : World) : bool * list BoundMethod * bool * list BoundMethod :=
  (_started (the_reactor w), before_shutdown (the_reactor w),
   resolver_installed (the_reactor w), threadCallQueue (the_reactor w)).

(** Lines 146-150 of [_start_reactor], for a pending list [d]. *)
Definition enter_loop (self settings d : nat) : M bool :=
  DeferredList.addBoth d (CbStopReactor self);;
  dns ← Settings.getbool settings "DNSCACHE_ENABLED";
  (if dns : bool then reactor.installResolver else mret tt);;
  reactor.addSystemEventTrigger (runner_stop self);;
  reactor.run;;
  mret false.

(** ** The sets of a runner only grow *)

(** Runner [self] exists and tracks at least the crawlers [cs] and the
    Deferreds [ds]. *)
Definition tracks (self : nat) (cs ds : gset nat) (w : World) : Prop :=
  ∃ p, process_objs w !! self = Some p ∧ cs ⊆ crawlers p ∧ ds ⊆ crawl_deferreds p.

(** ** Well-formed worlds *)

(** The references that the claims rely on point where they should: a
    callback of a Deferred names a DeferredList that exists, and a runner
    tracks Deferreds that exist. *)
Definition well_formed (w : World) : Prop :=
  no_forward_callbacks w
  ∧ ∀ self p h, process_objs w !! self = Some p -> h ∈ crawl_deferreds p ->
                h < length (deferreds w).

(** The world of a program that has made no object yet. *)
Definition fresh (w : World) : Prop :=
  process_objs w = [] ∧ deferreds w = [].

(** Well-formed, with at least [n] DeferredLists. *)
Definition well_formed_upto (n : nat) (w : World) : Prop :=
  well_formed w ∧ n ≤ length (deferred_lists w).

(** At least [m] Deferreds have been made by [inlineCallbacks]. *)
Definition handles_upto (m : nat) (w : World) : Prop := m ≤ length (deferreds w).

(** ** A generator taken up by the engine *)

(** The calls that [crawler.py] makes to the spider class and the engine. *)
Definition is_engine_call (e : Event) : bool :=
  match e with
  | ev_from_crawler _ _ | ev_ExecutionEngine _ | ev_start_requests _
  | ev_open_spider _ | ev_engine_start _ | ev_engine_stop _ => true
  | _ => false
  end.

Definition engine_calls (w : World) : list Event := List.filter is_engine_call (trace w).

(** List [dl] waits for the Deferred [h], whose result goes to its slot [i]. *)
Definition awaits (w : World) (h dl i : nat) : Prop :=
  ∃ D L, deferreds w !! h = Some D ∧ CbDeferred dl i ∈ callbacks D
         ∧ deferred_lists w !! dl = Some L ∧ i < length (resultList L).

(** List [dl] has been told in its slot [i] that a Deferred fired with [r]. *)
Definition told (w : World) (dl i : nat) (r : outcome) : Prop :=
  ∃ L, deferred_lists w !! dl = Some L
       ∧ resultList L !! i = Some (Some (negb (is_Failure r), r)).

(** The slots of the lists, as far as one step of a Deferred's callbacks
    changes them: a slot once told stays told, and no list changes its
    number of slots. *)
Record slots_kept (r : outcome) (w w' : World) : Prop := {
  kept_deferreds : deferreds w' = deferreds w;
  kept_length : length (deferred_lists w') = length (deferred_lists w);
  kept_told : ∀ dl i, told w dl i r -> told w' dl i r;
  kept_slots :
    ∀ dl L, deferred_lists w !! dl = Some L ->
      ∃ L', deferred_lists w' !! dl = Some L'
            ∧ length (resultList L') = length (resultList L);
}.

(** The engine's update of its own Deferred, after the generator has run. *)
Definition engine_done (d : nat) (r : outcome) (w : World) : World :=
  match EngineDeferred.lookup d w with
  | Some D => EngineDeferred.update d (mkDeferred (Some r) (callbacks D)) w
  | None => w
  end.

(** ** A small project *)

Definition example_settings : SettingsObj := mkSettings {[ "DNSCACHE_ENABLED" := 1%Z ]} false.

(** An engine whose every call returns a Deferred still pending. *)
Definition example_engine : Engine := mkEngine (Returns None) (Returns None) (Returns None).

(** An engine that cannot be stopped. *)
Definition stubborn_engine : Engine :=
  mkEngine (Returns None) (Returns None) (Raises (mkExn (UserError 7) "stop")).

Definition example_cls : SpiderCls := mkSpiderCls (λ _, inr (mkSpider None)).

Definition example_ext : Externals :=
  mkExternals (λ c, inr (if c =? 1 then stubborn_engine else example_engine))
    (λ _, {[ "quotes" := example_cls ]}) (λ _, false)
    {[ 2%Z := "SIGINT"; 15%Z := "SIGTERM" ]}.

(** Before [CrawlerProcess(settings)]: the settings object and nothing else. *)
Definition example_world : World :=
  mkWorld [] [example_settings] [] [] [] [] None SIG_DFL reactor.initial [] example_ext.

(** After [process = CrawlerProcess(settings)]. *)
Definition example_process : World :=
  Eval vm_compute in world_after (CrawlerProcess.__init__ 0) example_world.

(** After [process.crawl("quotes")]: crawler 0 waits for [open_spider]. *)
Definition example_crawling : World :=
  Eval vm_compute in world_after (CrawlerRunner.crawl 0 (ByName "quotes") []) example_process.

(** After the engine of crawler 0 has stopped and a second
    [process.crawl("quotes")]: crawlers 0 and 1 are both crawling. *)
Definition example_two : World :=
  Eval vm_compute in world_after (history [op_engine_stopped 0; op_crawl 0 (ByName "quotes") []])
    example_crawling.

(** The runner of [example_two]. *)
Definition example_runner : ProcessObj :=
  mkProcessObj 0 {[ "quotes" := example_cls ]} {[ 0; 1 ]} {[ 0; 1 ]} false.

(** A spider class whose [from_crawler] raises. *)
Definition broken_cls : SpiderCls := mkSpiderCls (λ _, inl (mkExn (UserError 1) "from_crawler")).

(** After [process._create_crawler(BrokenSpider)]: crawler 0 is idle. *)
Definition example_broken : World :=
  Eval vm_compute in
    world_after (CrawlerRunner._create_crawler 0 (ByClass broken_cls)) example_process.

(** After [process.start()] with one crawl pending: DeferredList 0 waits
    for the Deferred of that crawl and the reactor runs. *)
Definition example_running : World :=
  Eval vm_compute in world_after (CrawlerProcess.start 0 true) example_crawling.

(** After [process.stop()] with one crawl pending: DeferredList 0 waits for
    the Deferred of [stop], which waits for the engine. *)
Definition example_stopping : World :=
  Eval vm_compute in world_after (CrawlerRunner.stop 0) example_crawling.

(** ** Submitting a crawl *)



(** ** The steps of a crawl *)


(** ** Running the loop without a stop *)


(** No DeferredList has a callback: none has been given the
    [lambda _: self._stop_reactor()] of [_start_reactor]. *)
Definition no_stop_callback (w : World) : Prop :=
  ∀ dl L, deferred_lists w !! dl = Some L -> callbacks (dl_deferred L) = [].

(** The loop runs and nothing waits to stop it. *)
Definition loop_goes_on (w : World) : Prop :=
  _started (the_reactor w) = true ∧ _stopped (the_reactor w) = false
  ∧ no_stop_callback w.


(** * Properties *)

(** Unfold the monad and run a method on a symbolic world. *)
Ltac run_M :=
  repeat (unfold outcome_of, world_after, mbind, mret, M_bind, M_ret, get, modify,
            raise, try_except, assert, emit in *; simpl in *).

(** ** The loop stop *)

Lemma stop_reactor_spec (self : nat) (w : World) :
  _stop_reactor self w =
    (Ok tt,
     if _stopped (the_reactor w) then w
     else with_trace (trace w ++ [ev_reactor_stop])
            (with_reactor (stopped (the_reactor w)) w)).
Proof.
  unfold _stop_reactor, reactor.stop. run_M.
  destruct (_stopped (the_reactor w)); reflexivity.
Qed.

Lemma reactor_stop_when_stopped (w : World) :
  _stopped (the_reactor w) = true ->
  reactor.stop w =
    (Raise (mkExn ReactorNotRunning "Can't stop reactor that isn't running."), w).
Proof. intros H. unfold reactor.stop. run_M. rewrite H. reflexivity. Qed.

Lemma stop_reactor_stopped (self : nat) (w : World) :
  _stopped (the_reactor (world_after (_stop_reactor self) w)) = true.
Proof.
  unfold world_after. rewrite stop_reactor_spec. simpl.
  destruct (_stopped (the_reactor w)) eqn:E; [exact E | reflexivity].
Qed.

(** C9: [_stop_reactor] never raises.  On a stopped reactor it changes
    nothing, although [reactor.stop()] raises there; otherwise it stops the
    reactor.  Called twice in a row, both calls return normally, the second
    one finds [reactor.stop()] raising and leaves the world as it is. *)
Theorem stop_reactor_never_raises (self : nat) (w : World) :
  let w1 := world_after (_stop_reactor self) w in
  outcome_of (_stop_reactor self) w = Ok tt
  ∧ w1 = (if _stopped (the_reactor w) then w
          else with_trace (trace w ++ [ev_reactor_stop])
                 (with_reactor (stopped (the_reactor w)) w))
  ∧ outcome_of reactor.stop w1
      = Raise (mkExn ReactorNotRunning "Can't stop reactor that isn't running.")
  ∧ is_RuntimeError (mkExn ReactorNotRunning "Can't stop reactor that isn't running.") = true
  ∧ outcome_of (_stop_reactor self) w1 = Ok tt
  ∧ world_after (_stop_reactor self) w1 = w1.
Proof.
  intros w1.
  assert (Hs : _stopped (the_reactor w1) = true) by apply stop_reactor_stopped.
  repeat split.
  - unfold outcome_of. now rewrite stop_reactor_spec.
  - unfold w1, world_after. now rewrite stop_reactor_spec.
  - unfold outcome_of. now rewrite reactor_stop_when_stopped.
  - unfold outcome_of. now rewrite stop_reactor_spec.
  - unfold world_after at 1. rewrite stop_reactor_spec. simpl. now rewrite Hs.
Qed.

(** ** Signals *)

Lemma signal_shutdown_spec (self : nat) (signum : Z) (signame : string) (w : World) :
  signal_names (ext w) !! signum = Some signame ->
  CrawlerProcess._signal_shutdown self signum w =
    (Ok tt,
     handled (signal_kill self)
       ("Received " +:+ signame +:+ ", shutting down gracefully. Send again to force ")
       (runner_stop self) w).
Proof.
  intros H.
  unfold CrawlerProcess._signal_shutdown, CrawlerProcess.signal_name,
    install_shutdown_handlers, reactor.callFromThread, handled.
  run_M. rewrite H. simpl. unfold with_trace, with_reactor, with_shutdown_handler.
  simpl. now rewrite <- !app_assoc.
Qed.

Lemma signal_kill_spec (self : nat) (signum : Z) (signame : string) (w : World) :
  signal_names (ext w) !! signum = Some signame ->
  CrawlerProcess._signal_kill self signum w =
    (Ok tt,
     handled SIG_IGN ("Received " +:+ signame +:+ " twice, forcing unclean shutdown")
       (stop_reactor self) w).
Proof.
  intros H.
  unfold CrawlerProcess._signal_kill, CrawlerProcess.signal_name,
    install_shutdown_handlers, reactor.callFromThread, handled.
  run_M. rewrite H. simpl. unfold with_trace, with_reactor, with_shutdown_handler.
  simpl. now rewrite <- !app_assoc.
Qed.

(** C1: with [_signal_shutdown] installed (as [__init__] leaves it), the
    first termination signal installs [_signal_kill], logs the graceful
    notice with the signal's name and queues [self.stop] with
    [callFromThread]; nothing else in the world changes, so no crawler and
    no Deferred is touched from the handler.  The second signal installs
    [SIG_IGN], logs the forced notice and queues [self._stop_reactor]; a
    third signal does nothing.  The loop thread then runs the two queued
    calls in order, and the second one, [_stop_reactor], stops the reactor
    whatever the state of the crawls. *)
Theorem signal_escalation
    (self : nat) (s1 s2 s3 : Z) (n1 n2 : string) (w : World) :
  shutdown_handler w = signal_shutdown self ->
  signal_names (ext w) !! s1 = Some n1 ->
  signal_names (ext w) !! s2 = Some n2 ->
  let w1 := handled (signal_kill self)
              ("Received " +:+ n1 +:+ ", shutting down gracefully. Send again to force ")
              (runner_stop self) w in
  let w2 := handled SIG_IGN
              ("Received " +:+ n2 +:+ " twice, forcing unclean shutdown")
              (stop_reactor self) w1 in
  deliver_signal s1 w = (Ok tt, w1)
  ∧ deliver_signal s2 w1 = (Ok tt, w2)
  ∧ deliver_signal s3 w2 = (Ok tt, w2)
  ∧ threadCallQueue (the_reactor w2)
      = threadCallQueue (the_reactor w) ++ [runner_stop self; stop_reactor self]
  ∧ call_method (runner_stop self) = (CrawlerRunner.stop self;; mret tt)
  ∧ (∀ w', outcome_of (call_method (stop_reactor self)) w' = Ok tt
           ∧ _stopped (the_reactor (world_after (call_method (stop_reactor self)) w')) = true).
Proof.
  intros Hh H1 H2 w1 w2.
  split; [|split; [|split; [|split; [|split]]]].
  - unfold deliver_signal. run_M. rewrite Hh. now apply signal_shutdown_spec.
  - unfold deliver_signal. run_M. now apply signal_kill_spec.
  - reflexivity.
  - simpl. now rewrite <- app_assoc.
  - reflexivity.
  - intros w'. split.
    + simpl. unfold outcome_of. now rewrite stop_reactor_spec.
    + simpl. apply stop_reactor_stopped.
Qed.

(** ** Running the monad step by step *)

Lemma bind_ok {A B} (m : M A) (k : A -> M B) (w w' : World) (a : A) :
  m w = (Ok a, w') -> (m ≫= k) w = k a w'.
Proof. intros H. unfold mbind, M_bind. now rewrite H. Qed.

Lemma bind_raise {A B} (m : M A) (k : A -> M B) (w w' : World) (e : exn) :
  m w = (Raise e, w') -> (m ≫= k) w = (Raise e, w').
Proof. intros H. unfold mbind, M_bind. now rewrite H. Qed.

Lemma lookup_snoc {A} (l : list A) (x : A) : (l ++ [x]) !! length l = Some x.
Proof. now apply list_lookup_middle. Qed.

Lemma insert_snoc {A} (l : list A) (x y : A) : <[length l := y]> (l ++ [x]) = l ++ [y].
Proof.
  replace (length l) with (length l + 0) by lia.
  now rewrite insert_app_r.
Qed.

(** Lengths of stores, and lookups and updates at a known index. *)
Ltac len_tac :=
  rewrite ?length_insert, ?length_alter, ?length_app; simpl; (assumption || lia).

Ltac store_simpl :=
  repeat first
    [ rewrite list_lookup_insert_eq by len_tac
    | rewrite list_insert_insert_eq
    | rewrite lookup_snoc
    | rewrite insert_snoc
    | progress run_M ].

(** ** Deferreds returned by [inlineCallbacks] *)

Lemma defer_new_spec (w : World) :
  defer.new w =
    (Ok (length (deferreds w)), with_deferreds (deferreds w ++ [mkDeferred None []]) w).
Proof. reflexivity. Qed.

(** Firing a Deferred on which nothing waits only records the result. *)
Lemma defer_callback_alone (d : nat) (r : outcome) (w : World) :
  deferreds w !! d = Some (mkDeferred None []) ->
  defer.callback d r w =
    (Ok tt, with_deferreds (<[d := mkDeferred (Some r) []]> (deferreds w)) w).
Proof.
  intros H.
  assert (Hlt : d < length (deferreds w)) by (eapply lookup_lt_Some; eassumption).
  unfold defer.callback, callback, _runCallbacks, defer.lookup, defer.update.
  run_M. rewrite H. simpl.
  rewrite list_lookup_insert_eq by assumption. simpl.
  now rewrite list_insert_insert_eq.
Qed.

(** The three ways out of the first run of a generator. *)
Lemma inlineCallbacks_raised (f : nat -> M Gen) (e : exn) (w w1 : World) :
  let d := length (deferreds w) in
  f d (with_deferreds (deferreds w ++ [mkDeferred None []]) w) = (Raise e, w1) ->
  deferreds w1 !! d = Some (mkDeferred None []) ->
  defer.inlineCallbacks f w =
    (Ok d, with_deferreds (<[d := mkDeferred (Some (Failure e)) []]> (deferreds w1)) w1).
Proof.
  intros d Hf Hd. unfold defer.inlineCallbacks.
  erewrite bind_ok by apply defer_new_spec.
  unfold defer._inlineCallbacks. fold d.
  unfold mbind at 1. unfold M_bind. rewrite Hf.
  unfold defer.errback. now rewrite (defer_callback_alone _ _ _ Hd).
Qed.

Lemma inlineCallbacks_returned (f : nat -> M Gen) (w w1 : World) :
  let d := length (deferreds w) in
  f d (with_deferreds (deferreds w ++ [mkDeferred None []]) w) = (Ok Returned, w1) ->
  deferreds w1 !! d = Some (mkDeferred None []) ->
  defer.inlineCallbacks f w =
    (Ok d, with_deferreds (<[d := mkDeferred (Some Value) []]> (deferreds w1)) w1).
Proof.
  intros d Hf Hd. unfold defer.inlineCallbacks.
  erewrite bind_ok by apply defer_new_spec.
  unfold defer._inlineCallbacks. fold d.
  unfold mbind at 1. unfold M_bind. rewrite Hf.
  now rewrite (defer_callback_alone _ _ _ Hd).
Qed.

Lemma inlineCallbacks_suspended (f : nat -> M Gen) (w w1 : World) :
  let d := length (deferreds w) in
  f d (with_deferreds (deferreds w ++ [mkDeferred None []]) w) = (Ok Suspended, w1) ->
  defer.inlineCallbacks f w = (Ok d, w1).
Proof.
  intros d Hf. unfold defer.inlineCallbacks.
  erewrite bind_ok by apply defer_new_spec.
  unfold defer._inlineCallbacks. fold d.
  unfold mbind at 1. unfold M_bind. now rewrite Hf.
Qed.

(** ** Starting a crawl that is under way *)

Lemma crawl_generator_while_crawling
    (self deferred : nat) (args : Args) (c : CrawlerObj) (w : World) :
  crawler_objs w !! self = Some c ->
  crawling c = true ->
  Crawler.crawl_generator self args deferred w = (Raise already_crawling, w).
Proof.
  intros Hc Hcr. unfold Crawler.crawl_generator, get_crawler.
  run_M. rewrite Hc. simpl. now rewrite Hcr.
Qed.

(** C4, as the code has it: on a crawler whose [crawling] flag is set, the
    generator of [crawl] stops at its assertion with [AssertionError], and
    [inlineCallbacks] hands that error over in the Deferred it returns.  The
    call itself does not raise: it returns a Deferred that has already
    failed with the [AssertionError], never one that succeeded or that is
    pending.  The world is otherwise as before: the crawler keeps its
    spider, its engine and its flag, and the trace shows no call of
    [from_crawler], of [ExecutionEngine] or of the engine. *)
Theorem crawl_while_crawling_fails
    (self : nat) (args : Args) (c : CrawlerObj) (w : World) :
  crawler_objs w !! self = Some c ->
  crawling c = true ->
  (∀ deferred,
     Crawler.crawl_generator self args deferred w = (Raise already_crawling, w))
  ∧ Crawler.crawl self args w =
      (Ok (length (deferreds w)),
       with_deferreds
         (deferreds w ++ [mkDeferred (Some (Failure already_crawling)) []]) w).
Proof.
  intros Hc Hcr. split.
  - intros deferred. now apply crawl_generator_while_crawling with c.
  - unfold Crawler.crawl.
    rewrite (inlineCallbacks_raised _ already_crawling w
               (with_deferreds (deferreds w ++ [mkDeferred None []]) w)).
    + simpl. now rewrite insert_snoc.
    + now apply crawl_generator_while_crawling with c.
    + simpl. apply lookup_snoc.
Qed.

(** ** Stopping a crawler *)

Lemma maybeDeferred_spec (f : AsyncCall) (w : World) :
  defer.maybeDeferred f w =
    (Ok (length (engine_deferreds w)),
     with_engine_deferreds (engine_deferreds w ++ [mkDeferred (born f) []]) w).
Proof. destruct f; reflexivity. Qed.

Lemma stop_generator_crawling (self d : nat) (c : CrawlerObj) (e : Engine) (w : World) :
  crawler_objs w !! self = Some c -> crawling c = true -> engine c = Some e ->
  Crawler.stop_generator self d w =
    (gen_result (born (engine_stop e)),
     with_engine_deferreds
       (engine_deferreds w ++
        [awaited (born (engine_stop e)) (stop_after_engine_stop self d)])
       (with_trace (trace w ++ [ev_engine_stop self])
          (with_crawler_objs (alter (set_crawling false) self (crawler_objs w)) w))).
Proof.
  intros Hc Hcr He.
  unfold Crawler.stop_generator, get_crawler, Crawler.get_engine, get_crawler,
    update_crawler.
  run_M. rewrite Hc. simpl. rewrite Hcr. simpl.
  rewrite list_lookup_alter_eq, Hc. simpl. rewrite He. simpl.
  rewrite maybeDeferred_spec. simpl.
  unfold defer.await. run_M. rewrite lookup_snoc.
  destruct (born (engine_stop e)) as [[|x]|]; simpl; rewrite insert_snoc; reflexivity.
Qed.

Lemma stop_generator_idle (self d : nat) (c : CrawlerObj) (w : World) :
  crawler_objs w !! self = Some c -> crawling c = false ->
  Crawler.stop_generator self d w = (Ok Returned, w).
Proof.
  intros Hc Hcr. unfold Crawler.stop_generator, get_crawler.
  run_M. rewrite Hc. simpl. now rewrite Hcr.
Qed.

Lemma stop_idle (self : nat) (c : CrawlerObj) (w : World) :
  crawler_objs w !! self = Some c -> crawling c = false ->
  Crawler.stop self w =
    (Ok (length (deferreds w)),
     with_deferreds (deferreds w ++ [mkDeferred (Some Value) []]) w).
Proof.
  intros Hc Hcr. unfold Crawler.stop.
  rewrite (inlineCallbacks_returned _ w
             (with_deferreds (deferreds w ++ [mkDeferred None []]) w)).
  - simpl. now rewrite insert_snoc.
  - now apply stop_generator_idle with c.
  - simpl. apply lookup_snoc.
Qed.

Lemma stop_crawling (self : nat) (c : CrawlerObj) (e : Engine) (w : World) :
  crawler_objs w !! self = Some c -> crawling c = true -> engine c = Some e ->
  Crawler.stop self w =
    (Ok (length (deferreds w)),
     with_deferreds (deferreds w ++ [mkDeferred (born (engine_stop e)) []])
       (stop_requested self e w)).
Proof.
  intros Hc Hcr He. unfold Crawler.stop.
  pose proof (stop_generator_crawling self (length (deferreds w)) c e
                (with_deferreds (deferreds w ++ [mkDeferred None []]) w)
                Hc Hcr He) as Hg.
  simpl in Hg.
  destruct (born (engine_stop e)) as [[|x]|] eqn:Hb; simpl in Hg.
  - erewrite inlineCallbacks_returned; [ | exact Hg | simpl; apply lookup_snoc ].
    unfold stop_requested. rewrite Hb. simpl. now rewrite insert_snoc.
  - erewrite inlineCallbacks_raised; [ | exact Hg | simpl; apply lookup_snoc ].
    unfold stop_requested. rewrite Hb. simpl. now rewrite insert_snoc.
  - erewrite inlineCallbacks_suspended; [ | exact Hg ].
    unfold stop_requested. now rewrite Hb.
Qed.

(** The engine fires the Deferred on which a suspended [stop] waits. *)
Lemma stop_acknowledged (self d h : nat) (r : outcome) (w : World) :
  engine_deferreds w !! d = Some (mkDeferred None [stop_after_engine_stop self h]) ->
  deferreds w !! h = Some (mkDeferred None []) ->
  EngineDeferred.callback d r w =
    (Ok tt,
     with_engine_deferreds (<[d := mkDeferred (Some Value) []]> (engine_deferreds w))
       (with_deferreds (<[h := mkDeferred (Some r) []]> (deferreds w)) w)).
Proof.
  intros Hd Hh.
  assert (Hlt : d < length (engine_deferreds w)) by (eapply lookup_lt_Some; eassumption).
  unfold EngineDeferred.callback, callback, _runCallbacks, run_callback,
    EngineDeferred.lookup, EngineDeferred.update.
  run_M. rewrite Hd. store_simpl.
  unfold EngineDeferred.run_cb, defer._inlineCallbacks. run_M.
  destruct r as [|x]; simpl.
  - rewrite defer_callback_alone by (simpl; exact Hh). store_simpl. reflexivity.
  - unfold defer.errback. rewrite defer_callback_alone by (simpl; exact Hh).
    store_simpl. reflexivity.
Qed.

Lemma stop_crawling_no_engine (self : nat) (c : CrawlerObj) (w : World) :
  crawler_objs w !! self = Some c -> crawling c = true -> engine c = None ->
  Crawler.stop self w =
    (Ok (length (deferreds w)),
     with_deferreds (deferreds w ++ [mkDeferred (Some (Failure no_engine)) []])
       (with_crawler_objs (alter (set_crawling false) self (crawler_objs w)) w)).
Proof.
  intros Hc Hcr He. unfold Crawler.stop.
  rewrite (inlineCallbacks_raised _ no_engine w
             (with_deferreds (deferreds w ++ [mkDeferred None []])
                (with_crawler_objs (alter (set_crawling false) self (crawler_objs w)) w))).
  - simpl. now rewrite insert_snoc.
  - unfold Crawler.stop_generator, get_crawler, Crawler.get_engine, get_crawler,
      update_crawler.
    run_M. rewrite Hc. simpl. rewrite Hcr. simpl.
    rewrite list_lookup_alter_eq, Hc. simpl. now rewrite He.
  - simpl. apply lookup_snoc.
Qed.

(** ** What a method leaves as it is *)

Section preserves.
Context (P : World -> Prop).

Lemma preserves_ret {A} (a : A) : preserves P (mret a).
Proof. intros w H. exact H. Qed.

Lemma preserves_raise {A} (e : exn) : preserves P (raise e : M A).
Proof. intros w H. exact H. Qed.

Lemma preserves_get : preserves P get.
Proof. intros w H. exact H. Qed.

Lemma preserves_modify (f : World -> World) :
  (∀ w, P w -> P (f w)) -> preserves P (modify f).
Proof. intros Hf w H. now apply Hf. Qed.

Lemma preserves_bind {A B} (m : M A) (k : A -> M B) :
  preserves P m -> (∀ a, preserves P (k a)) -> preserves P (m ≫= k).
Proof.
  intros Hm Hk w H. specialize (Hm w H).
  unfold world_after, mbind, M_bind in *.
  destruct (m w) as [[a|e] w']; simpl in *; [now apply Hk | exact Hm].
Qed.

Lemma preserves_try_except {A} (body : M A) (handler : exn -> M A) :
  preserves P body -> (∀ e, preserves P (handler e)) ->
  preserves P (try_except body handler).
Proof.
  intros Hm Hk w H. specialize (Hm w H).
  unfold world_after, try_except in *.
  destruct (body w) as [[a|e] w']; simpl in *; [exact Hm | now apply Hk].
Qed.

Lemma preserves_assert (b : bool) (msg : string) : preserves P (assert b msg).
Proof. intros w H. now destruct b. Qed.

Lemma preserves_for_each {A} (xs : list A) (f : A -> M unit) :
  (∀ x, preserves P (f x)) -> preserves P (for_each xs f).
Proof.
  intros Hf. induction xs as [|x xs IH]; simpl.
  - apply preserves_ret.
  - apply preserves_bind; [apply Hf | intros _; exact IH].
Qed.

Lemma preserves_map_M {A B} (f : A -> M B) (xs : list A) :
  (∀ x, preserves P (f x)) -> preserves P (map_M f xs).
Proof.
  intros Hf. induction xs as [|x xs IH]; simpl.
  - apply preserves_ret.
  - apply preserves_bind; [apply Hf | intros y].
    apply preserves_bind; [exact IH | intros ys]. apply preserves_ret.
Qed.

(** The methods of a Deferred, whatever the store it lives in. *)
Section Deferred_methods.
Context {C : Type}.
Variable lookup_d : nat -> World -> option (Deferred C).
Variable update_d : nat -> Deferred C -> World -> World.
Variable run_cb : C -> outcome -> M outcome.
Hypothesis P_update : ∀ d D w, P w -> P (update_d d D w).
Hypothesis P_run : ∀ cb r, preserves P (run_cb cb r).

Lemma preserves_run_callback d cb :
  preserves P (run_callback lookup_d update_d run_cb d cb).
Proof.
  unfold run_callback. apply preserves_bind; [apply preserves_get | intros w0].
  destruct (lookup_d d w0) as [[[r|] cbs]|]; try apply preserves_ret.
  apply preserves_bind.
  - apply preserves_try_except; [apply P_run | intros e; apply preserves_ret].
  - intros r'. apply preserves_modify. intros w H.
    destruct (lookup_d d w); [now apply P_update | exact H].
Qed.

Lemma preserves_runCallbacks d :
  preserves P (_runCallbacks lookup_d update_d run_cb d).
Proof.
  unfold _runCallbacks. apply preserves_bind; [apply preserves_get | intros w0].
  destruct (lookup_d d w0) as [D|]; [|apply preserves_ret].
  apply preserves_bind.
  - apply preserves_modify. intros w. apply P_update.
  - intros _. apply preserves_for_each. intros cb. apply preserves_run_callback.
Qed.

Lemma preserves_callback d r :
  preserves P (callback lookup_d update_d run_cb d r).
Proof.
  unfold callback. apply preserves_bind; [apply preserves_get | intros w0].
  destruct (lookup_d d w0) as [D|]; [|apply preserves_raise].
  destruct (called D); [apply preserves_raise|].
  apply preserves_bind.
  - apply preserves_modify. intros w. apply P_update.
  - intros _. apply preserves_runCallbacks.
Qed.

Lemma preserves_addBoth d cb :
  preserves P (addBoth lookup_d update_d run_cb d cb).
Proof.
  unfold addBoth. apply preserves_bind; [apply preserves_get | intros w0].
  destruct (lookup_d d w0) as [D|]; [|apply preserves_raise].
  apply preserves_bind.
  - apply preserves_modify. intros w. apply P_update.
  - intros _. destruct (called D); [apply preserves_runCallbacks | apply preserves_ret].
Qed.
End Deferred_methods.
End preserves.

Lemma preserves_inlineCallbacks (P : World -> Prop) (deferred : nat) (g : M Gen) :
  preserves P g ->
  (∀ r, preserves P (defer.callback deferred r)) ->
  preserves P (defer._inlineCallbacks deferred g).
Proof.
  intros Hg Hc w H. specialize (Hg w H).
  unfold world_after, defer._inlineCallbacks, defer.errback in *.
  destruct (g w) as [[[|]|e] w']; simpl in *.
  - now apply Hc.
  - exact Hg.
  - now apply Hc.
Qed.

Lemma keeps_intro {X} (f : World -> X) {A} (m : M A) :
  (∀ x, preserves (λ w, f w = x) m) -> keeps f m.
Proof. intros H w. now apply (H (f w)). Qed.

Ltac head_of t :=
  lazymatch t with
  | ?f _ => head_of f
  | _ => t
  end.

Ltac break_matches :=
  repeat (simpl in *;
          match goal with
          | |- context [match ?x with _ => _ end] => destruct x
          end).

(** A predicate on a part of the world that the update at hand leaves alone. *)
Ltac untouched :=
  let w := fresh "w" in let H := fresh "H" in
  intros; simpl in *; break_matches; simpl in *; solve [assumption | congruence | auto].

Create HintDb preserves.

Ltac preserves_step side :=
  cbv beta;
  first [ solve [ eauto 2 with preserves nocore ] | idtac ];
  lazymatch goal with
  | |- preserves _ (mret _) => apply preserves_ret
  | |- preserves _ (raise _) => apply preserves_raise
  | |- preserves _ get => apply preserves_get
  | |- preserves _ (assert _ _) => apply preserves_assert
  | |- preserves _ (mbind _ _) => apply preserves_bind; [|intros ?]
  | |- preserves _ (try_except _ _) => apply preserves_try_except; [|intros ?]
  | |- preserves _ (for_each _ _) => apply preserves_for_each; intros ?
  | |- preserves _ (map_M _ _) => apply preserves_map_M; intros ?
  | |- preserves _ (modify _) => apply preserves_modify; side
  | |- preserves _ (callback _ _ _ _ _) => apply preserves_callback; [side | intros ? ?]
  | |- preserves _ (addBoth _ _ _ _ _) => apply preserves_addBoth; [side | intros ? ?]
  | |- preserves _ (defer._inlineCallbacks _ _) => apply preserves_inlineCallbacks; [|intros ?]
  | |- preserves _ (match ?x with _ => _ end) => destruct x
  | |- preserves _ ?m => let h := head_of m in unfold h
  end.

Ltac preserves_tac side := repeat (preserves_step side).

Lemma crawl_keeps_process_objs self args : keeps process_objs (Crawler.crawl self args).
Proof. apply keeps_intro. intros x. preserves_tac untouched. Qed.

Lemma crawl_keeps_settings_objs self args : keeps settings_objs (Crawler.crawl self args).
Proof. apply keeps_intro. intros x. preserves_tac untouched. Qed.

Lemma crawl_keeps_project_crawler self args : keeps project_crawler (Crawler.crawl self args).
Proof. apply keeps_intro. intros x. preserves_tac untouched. Qed.

Lemma runner_stop_keeps_process_objs self : keeps process_objs (CrawlerRunner.stop self).
Proof. apply keeps_intro. intros x. preserves_tac untouched. Qed.

Lemma alter_snoc {A} (f : A -> A) (l : list A) (x : A) :
  alter f (length l) (l ++ [x]) = l ++ [f x].
Proof.
  replace (length l) with (length l + 0) by lia.
  now rewrite alter_app_r.
Qed.

(** ** The installed crawler *)

Lemma install_spec (self : nat) (w : World) :
  Crawler.install self w =
    match project_crawler w with
    | None => (Ok tt, with_project_crawler (Some self) w)
    | Some _ => (Raise already_installed, w)
    end.
Proof. unfold Crawler.install. run_M. now destruct (project_crawler w). Qed.

Lemma uninstall_spec (self : nat) (w : World) :
  Crawler.uninstall self w =
    match project_crawler w with
    | Some _ => (Ok tt, with_project_crawler None w)
    | None => (Raise not_installed, w)
    end.
Proof. unfold Crawler.uninstall. run_M. now destruct (project_crawler w). Qed.

Lemma create_logged_crawler_spec (self : nat) (ref : SpiderRef) (w : World) :
  CrawlerRunner._create_logged_crawler self ref w =
    match process_objs w !! self with
    | None => (Raise no_such_object, w)
    | Some p =>
        match resolve p ref with
        | None =>
            (Raise (mkExn KeyError
                      ("Spider not found: " +:+
                       match ref with ByName n => n | ByClass _ => "" end)), w)
        | Some cls =>
            match settings_objs w !! runner_settings p with
            | None => (Raise no_such_object, w)
            | Some s => (Ok (length (crawler_objs w)), crawler_created p s cls w)
            end
        end
    end.
Proof.
  unfold CrawlerRunner._create_logged_crawler, CrawlerRunner._create_crawler,
    get_process, Settings.frozencopy, Settings.lookup, Crawler.__init__, update_crawler,
    crawler_created.
  run_M.
  destruct (process_objs w !! self) as [p|]; [|reflexivity]. simpl.
  destruct ref as [name|cls]; simpl.
  - destruct (spiders p !! name) as [cls|]; [|reflexivity]. simpl.
    destruct (settings_objs w !! runner_settings p) as [s|]; [|reflexivity]. simpl.
    destruct (start_from_crawler (ext w) (length (crawler_objs w))); simpl;
      [unfold with_crawler_objs; simpl; now rewrite alter_snoc | reflexivity].
  - destruct (settings_objs w !! runner_settings p) as [s|]; [|reflexivity]. simpl.
    destruct (start_from_crawler (ext w) (length (crawler_objs w))); simpl;
      [unfold with_crawler_objs; simpl; now rewrite alter_snoc | reflexivity].
Qed.

Lemma runner_crawl_when_installed (self : nat) (ref : SpiderRef) (args : Args) (w : World) (c0 : nat) :
  project_crawler w = Some c0 ->
  CrawlerRunner.crawl self ref args w =
    match CrawlerRunner._create_logged_crawler self ref w with
    | (Ok crawler, w') =>
        (Raise already_installed,
         with_process_objs (alter (add_crawler crawler) self (process_objs w')) w')
    | (Raise e, w') => (Raise e, w')
    end.
Proof.
  intros Hi. unfold CrawlerRunner.crawl.
  unfold mbind at 1. unfold M_bind.
  pose proof (create_logged_crawler_spec self ref w) as Hs.
  destruct (CrawlerRunner._create_logged_crawler self ref w) as [[crawler|e] w'] eqn:E;
    [|reflexivity].
  assert (Hp : project_crawler w' = Some c0).
  { destruct (process_objs w !! self) as [p|]; [|discriminate].
    destruct (resolve p ref); [|discriminate].
    destruct (settings_objs w !! runner_settings p); [|discriminate].
    injection Hs as _ ->. exact Hi. }
  unfold update_process. run_M. rewrite install_spec. simpl. now rewrite Hp.
Qed.

Lemma runner_crawl_spec (self : nat) (ref : SpiderRef) (args : Args) (w : World)
    (p : ProcessObj) (s : SettingsObj) (cls : SpiderCls) :
  process_objs w !! self = Some p ->
  resolve p ref = Some cls ->
  settings_objs w !! runner_settings p = Some s ->
  project_crawler w = None ->
  CrawlerRunner.crawl self ref args w =
    match Crawler.crawl (length (crawler_objs w)) args (submitted self p s cls w) with
    | (Ok d, w') =>
        (Ok d, with_process_objs (alter (add_crawl_deferred d) self (process_objs w')) w')
    | (Raise e, w') => (Raise e, w')
    end.
Proof.
  intros Hp Hr Hs Hi. unfold CrawlerRunner.crawl.
  unfold mbind at 1. unfold M_bind.
  rewrite create_logged_crawler_spec, Hp, Hr, Hs.
  unfold update_process, update_crawler. run_M.
  rewrite install_spec. simpl. rewrite Hi. simpl.
  unfold submitted. simpl.
  destruct (Crawler.crawl _ _ _) as [[d|e] w']; reflexivity.
Qed.

Lemma runner_crawl_ok_inv (self : nat) (ref : SpiderRef) (args : Args) (w w1 : World) (d : nat) :
  CrawlerRunner.crawl self ref args w = (Ok d, w1) ->
  ∃ p s cls,
    process_objs w !! self = Some p ∧ resolve p ref = Some cls
    ∧ settings_objs w !! runner_settings p = Some s ∧ project_crawler w = None.
Proof.
  intros H.
  destruct (project_crawler w) as [c0|] eqn:Hi.
  - rewrite (runner_crawl_when_installed _ _ _ _ c0 Hi) in H.
    destruct (CrawlerRunner._create_logged_crawler self ref w) as [[?|?] ?]; discriminate.
  - unfold CrawlerRunner.crawl in H. unfold mbind at 1 in H. unfold M_bind in H.
    rewrite create_logged_crawler_spec in H.
    destruct (process_objs w !! self) as [p|] eqn:Hp; [|discriminate].
    destruct (resolve p ref) as [cls|] eqn:Hr; [|discriminate].
    destruct (settings_objs w !! runner_settings p) as [s|] eqn:Hs; [|discriminate].
    exists p, s, cls. repeat split; reflexivity || assumption.
Qed.

(** C7: one attribute, [scrapy.project.crawler], holds the installed
    crawler, so at most one is installed.  [install] fails its assertion
    when the attribute is set and sets it otherwise; [uninstall] fails its
    assertion when the attribute is unset and deletes it otherwise.  After
    a [CrawlerRunner.crawl] that returned, the new crawler is installed, and
    a second [crawl] for the same spider, with the first crawler still
    installed, creates and tracks its crawler and then fails the assertion
    of [install]: it starts no crawl and tracks no Deferred. *)
Theorem single_installed_crawler :
  (∀ self w,
     Crawler.install self w =
       match project_crawler w with
       | None => (Ok tt, with_project_crawler (Some self) w)
       | Some _ => (Raise already_installed, w)
       end)
  ∧ (∀ self w,
       Crawler.uninstall self w =
         match project_crawler w with
         | Some _ => (Ok tt, with_project_crawler None w)
         | None => (Raise not_installed, w)
         end)
  ∧ (∀ self ref args args' w d1 w1,
       CrawlerRunner.crawl self ref args w = (Ok d1, w1) ->
       project_crawler w1 = Some (length (crawler_objs w))
       ∧ ∃ p1 w2,
           process_objs w1 !! self = Some p1
           ∧ CrawlerRunner.crawl self ref args' w1 = (Raise already_installed, w2)
           ∧ project_crawler w2 = Some (length (crawler_objs w))
           ∧ trace w2 = trace w1 ++ [log_start_from_crawler (length (crawler_objs w1))]
           ∧ process_objs w2 !! self = Some (add_crawler (length (crawler_objs w1)) p1)
           ∧ deferreds w2 = deferreds w1
           ∧ engine_deferreds w2 = engine_deferreds w1).
Proof.
  split; [exact install_spec|]. split; [exact uninstall_spec|].
  intros self ref args args' w d1 w1 H.
  destruct (runner_crawl_ok_inv _ _ _ _ _ _ H) as (p & s & cls & Hp & Hr & Hs & Hi).
  rewrite (runner_crawl_spec _ _ _ _ p s cls Hp Hr Hs Hi) in H.
  set (c := length (crawler_objs w)) in *.
  set (wa := submitted self p s cls w) in *.
  pose proof (crawl_keeps_process_objs c args wa) as Kp.
  pose proof (crawl_keeps_settings_objs c args wa) as Ks.
  pose proof (crawl_keeps_project_crawler c args wa) as Ki.
  unfold world_after in Kp, Ks, Ki.
  destruct (Crawler.crawl c args wa) as [[d|e] wb]; [|discriminate].
  injection H as -> <-. simpl in *.
  split; [exact Ki|].
  assert (Hlt : self < length (process_objs w)) by (eapply lookup_lt_Some; eassumption).
  assert (Hp1 : alter (add_crawl_deferred d1) self (process_objs wb) !! self
                = Some (add_crawl_deferred d1 (add_crawler c p))).
  { rewrite Kp. now rewrite !list_lookup_alter_eq, Hp. }
  assert (Hr1 : resolve (add_crawl_deferred d1 (add_crawler c p)) ref = Some cls)
    by (destruct ref; exact Hr).
  eexists. eexists.
  split; [exact Hp1|].
  split.
  { erewrite runner_crawl_when_installed by (simpl; exact Ki).
    rewrite create_logged_crawler_spec. simpl. rewrite Hp1, Hr1. simpl. rewrite Ks.
    rewrite lookup_app_l by (eapply lookup_lt_Some; eassumption). rewrite Hs.
    reflexivity. }
  simpl. split; [exact Ki|]. split; [reflexivity|].
  split; [|split; reflexivity].
  rewrite list_lookup_alter_eq, Hp1. reflexivity.
Qed.

(** ** Settings *)

Lemma frozencopy_spec (self : nat) (w : World) :
  Settings.frozencopy self w =
    match settings_objs w !! self with
    | Some s =>
        (Ok (length (settings_objs w)),
         with_settings_objs (settings_objs w ++ [mkSettings (attributes s) true]) w)
    | None => (Raise no_such_object, w)
    end.
Proof.
  unfold Settings.frozencopy, Settings.lookup. run_M.
  now destruct (settings_objs w !! self).
Qed.

Lemma runner_init_spec (settings : nat) (s : SettingsObj) (w : World) :
  settings_objs w !! settings = Some s ->
  CrawlerRunner.__init__ settings w =
    (Ok (length (process_objs w)),
     with_process_objs
       (process_objs w ++
        [mkProcessObj settings
           (SpiderManager_from_settings (ext w) (mkSettings (attributes s) true)) ∅ ∅ false])
       (with_settings_objs (settings_objs w ++ [mkSettings (attributes s) true]) w)).
Proof.
  intros Hs. unfold CrawlerRunner.__init__.
  unfold mbind at 1. unfold M_bind. rewrite frozencopy_spec, Hs.
  unfold Settings.lookup. run_M. now rewrite lookup_snoc.
Qed.

Lemma create_crawler_spec (self : nat) (ref : SpiderRef) (w : World) :
  CrawlerRunner._create_crawler self ref w =
    match process_objs w !! self with
    | None => (Raise no_such_object, w)
    | Some p =>
        match resolve p ref with
        | None =>
            (Raise (mkExn KeyError
                      ("Spider not found: " +:+
                       match ref with ByName n => n | ByClass _ => "" end)), w)
        | Some cls =>
            match settings_objs w !! runner_settings p with
            | None => (Raise no_such_object, w)
            | Some s =>
                (Ok (length (crawler_objs w)),
                 with_crawler_objs
                   (crawler_objs w ++
                    [mkCrawlerObj cls (length (settings_objs w)) [] false None None])
                   (with_settings_objs
                      (settings_objs w ++ [mkSettings (attributes s) true]) w))
            end
        end
    end.
Proof.
  unfold CrawlerRunner._create_crawler, get_process, Settings.frozencopy,
    Settings.lookup, Crawler.__init__.
  run_M.
  destruct (process_objs w !! self) as [p|]; [|reflexivity]. simpl.
  destruct ref as [name|cls]; simpl.
  - destruct (spiders p !! name) as [cls|]; [|reflexivity]. simpl.
    now destruct (settings_objs w !! runner_settings p).
  - now destruct (settings_objs w !! runner_settings p).
Qed.

Lemma set_keeps_frozen (i : nat) (s : SettingsObj) (r : nat) (name : string) (value : Z) :
  frozen s = true ->
  preserves (λ w, settings_objs w !! i = Some s) (Settings.set r name value).
Proof.
  intros Hf w H. unfold world_after, Settings.set, Settings.lookup. run_M.
  destruct (settings_objs w !! r) as [s'|] eqn:Hr; simpl; [|exact H].
  destruct (frozen s') eqn:Hf'; simpl; [exact H|].
  destruct (decide (r = i)) as [->|Hne].
  - rewrite H in Hr. injection Hr as <-. congruence.
  - now rewrite list_lookup_insert_ne.
Qed.

Lemma set_all_keeps_frozen (i : nat) (s : SettingsObj) (updates : list (nat * string * Z)) :
  frozen s = true ->
  preserves (λ w, settings_objs w !! i = Some s) (set_all updates).
Proof.
  intros Hf. unfold set_all. apply preserves_for_each. intros [[r name] value].
  apply preserves_try_except; [now apply set_keeps_frozen | intros e; apply preserves_ret].
Qed.

Lemma set_frozen_refused (i : nat) (s : SettingsObj) (name : string) (value : Z) (w : World) :
  settings_objs w !! i = Some s -> frozen s = true ->
  Settings.set i name value w =
    (Raise (mkExn AssertionError "Trying to modify an immutable Settings object"), w).
Proof.
  intros H Hf. unfold Settings.set, Settings.lookup. run_M. rewrite H. simpl.
  now rewrite Hf.
Qed.

(** C8, as the code has it: the runner keeps the very settings object it
    was given, neither copied nor frozen (the frozen copy made in
    [__init__] goes to the spider manager).  Each crawler that
    [_create_crawler] makes gets a new settings object, another one than
    the runner's, frozen and with the content the runner's settings have at
    that moment; changes of settings refuse that object, and whatever is
    set later, on the runner's settings or elsewhere, the crawler's
    settings stay as they were. *)
Theorem crawler_settings_frozen_copy :
  (∀ settings s w,
     settings_objs w !! settings = Some s ->
     ∃ w1 p,
       CrawlerRunner.__init__ settings w = (Ok (length (process_objs w)), w1)
       ∧ process_objs w1 !! length (process_objs w) = Some p
       ∧ runner_settings p = settings
       ∧ spiders p = SpiderManager_from_settings (ext w) (mkSettings (attributes s) true)
       ∧ settings_objs w1 = settings_objs w ++ [mkSettings (attributes s) true]
       ∧ settings_objs w1 !! settings = Some s)
  ∧ (∀ self ref w c w1,
       CrawlerRunner._create_crawler self ref w = (Ok c, w1) ->
       ∃ p s co,
         process_objs w !! self = Some p
         ∧ settings_objs w !! runner_settings p = Some s
         ∧ crawler_objs w1 !! c = Some co
         ∧ settings co = length (settings_objs w)
         ∧ settings co ≠ runner_settings p
         ∧ settings_objs w1 !! settings co = Some (mkSettings (attributes s) true)
         ∧ (∀ name value,
              Settings.set (settings co) name value w1 =
                (Raise (mkExn AssertionError
                          "Trying to modify an immutable Settings object"), w1))
         ∧ (∀ updates,
              settings_objs (world_after (set_all updates) w1) !! settings co
              = Some (mkSettings (attributes s) true))).
Proof.
  split.
  - intros settings s w Hs. eexists. eexists.
    split; [exact (runner_init_spec settings s w Hs)|]. simpl.
    split; [apply lookup_snoc|]. split; [reflexivity|].
    split; [reflexivity|]. split; [reflexivity|].
    rewrite lookup_app_l by (eapply lookup_lt_Some; eassumption). exact Hs.
  - intros self ref w c w1 H. rewrite create_crawler_spec in H.
    destruct (process_objs w !! self) as [p|] eqn:Hp; [|discriminate].
    destruct (resolve p ref) as [cls|] eqn:Hr; [|discriminate].
    destruct (settings_objs w !! runner_settings p) as [s|] eqn:Hs; [|discriminate].
    injection H as <- <-. simpl.
    exists p, s, (mkCrawlerObj cls (length (settings_objs w)) [] false None None).
    assert (Hlt : runner_settings p < length (settings_objs w))
      by (eapply lookup_lt_Some; eassumption).
    assert (Hc : (settings_objs w ++ [mkSettings (attributes s) true])
                 !! length (settings_objs w) = Some (mkSettings (attributes s) true))
      by apply lookup_snoc.
    split; [reflexivity|]. split; [exact Hs|]. split; [apply lookup_snoc|].
    split; [reflexivity|]. split; [simpl; lia|]. split; [exact Hc|].
    split.
    + intros name value.
      apply set_frozen_refused with (s := mkSettings (attributes s) true);
        [exact Hc | reflexivity].
    + intros updates.
      apply (set_all_keeps_frozen (length (settings_objs w))
               (mkSettings (attributes s) true) updates eq_refl).
      exact Hc.
Qed.

(** ** Starting a crawl *)

Ltac crawl_simpl H :=
  repeat first
    [ rewrite list_lookup_insert_eq by len_tac
    | rewrite list_insert_insert_eq
    | rewrite list_lookup_alter_eq
    | rewrite lookup_snoc
    | rewrite insert_snoc
    | rewrite H
    | rewrite maybeDeferred_spec
    | progress run_M ].

Ltac crawl_facts H n :=
  eexists; exists n;
  split; [reflexivity|]; split; [reflexivity|]; split; [reflexivity|];
  split; [simpl; rewrite <- ?app_assoc; reflexivity|];
  split; [simpl; rewrite !list_lookup_alter_eq, H; reflexivity|].

Lemma crawl_generator_spec (self h : nat) (args : Args) (c : CrawlerObj) (w : World) :
  crawler_objs w !! self = Some c ->
  crawling c = false ->
  let f := first_run (spidercls c) args (ExecutionEngine (ext w) self) in
  ∃ w1 n,
    Crawler.crawl_generator self args h w = (run_result f, w1)
    ∧ deferreds w1 = deferreds w
    ∧ deferred_lists w1 = deferred_lists w
    ∧ trace w1 = trace w ++ take n (crawl_calls self args)
    ∧ (crawling <$> crawler_objs w1 !! self) = Some (still_crawling f)
    ∧ (∀ k, waits_on f self h = Some k ->
         ∃ d e, engine_deferreds w1 !! d = Some (mkDeferred None [k])
                ∧ (engine <$> crawler_objs w1 !! self) = Some (Some e)).
Proof.
  intros Hc Hcr f. unfold f, first_run.
  unfold Crawler.crawl_generator, Crawler.try_body, Crawler.try_body_1, Crawler.try_body_2,
    Crawler.rollback, Crawler._create_spider, Crawler._create_engine, Crawler.get_spider,
    Crawler.get_engine, get_crawler, update_crawler, defer.call, defer.engine_deferred,
    defer.await.
  crawl_simpl Hc. rewrite Hcr. crawl_simpl Hc.
  destruct (from_crawler (spidercls c) args) as [x|s]; crawl_simpl Hc.
  { crawl_facts Hc 1. intros k [=]. }
  destruct (ExecutionEngine (ext w) self) as [x|e]; crawl_simpl Hc.
  { crawl_facts Hc 2. intros k [=]. }
  destruct (start_requests s) as [x|]; crawl_simpl Hc.
  { crawl_facts Hc 3. intros k [=]. }
  destruct (open_spider e) as [x|[[|x]|]]; crawl_simpl Hc.
  - crawl_facts Hc 4. intros k [=].
  - destruct (born (engine_start e)) as [[|x]|]; crawl_simpl Hc.
    + crawl_facts Hc 5. intros k [=].
    + crawl_facts Hc 5. intros k [=].
    + crawl_facts Hc 5.
      intros k [= <-]. exists (S (length (engine_deferreds w))), e. simpl.
      split; [|now rewrite !list_lookup_alter_eq, Hc].
      replace (S (length (engine_deferreds w)))
        with (length (engine_deferreds w ++ [mkDeferred (Some Value) ([] : list gotResult)]))
        by (rewrite length_app; simpl; lia).
      apply lookup_snoc.
  - crawl_facts Hc 4. intros k [=].
  - crawl_facts Hc 4.
    intros k [= <-]. exists (length (engine_deferreds w)), e. simpl.
    split; [apply lookup_snoc | now rewrite !list_lookup_alter_eq, Hc].
Qed.

Lemma crawl_spec (self : nat) (args : Args) (c : CrawlerObj) (w : World) :
  crawler_objs w !! self = Some c ->
  crawling c = false ->
  let f := first_run (spidercls c) args (ExecutionEngine (ext w) self) in
  let h := length (deferreds w) in
  ∃ w1 n,
    Crawler.crawl self args w = (Ok h, w1)
    ∧ deferreds w1 = deferreds w ++ [mkDeferred (handle_result f) []]
    ∧ deferred_lists w1 = deferred_lists w
    ∧ trace w1 = trace w ++ take n (crawl_calls self args)
    ∧ (crawling <$> crawler_objs w1 !! self) = Some (still_crawling f)
    ∧ (∀ k, waits_on f self h = Some k ->
         ∃ d e, engine_deferreds w1 !! d = Some (mkDeferred None [k])
                ∧ (engine <$> crawler_objs w1 !! self) = Some (Some e)).
Proof.
  intros Hc Hcr f h.
  destruct (crawl_generator_spec self h args c
              (with_deferreds (deferreds w ++ [mkDeferred None []]) w) Hc Hcr)
    as (w1 & n & Hg & Hd & Hl & Ht & Hcrl & Hk).
  simpl in Hg, Hd, Hl, Ht.
  change (ext (with_deferreds (deferreds w ++ [mkDeferred None []]) w)) with (ext w) in *.
  fold f in Hg, Hcrl, Hk.
  assert (Hh : deferreds w1 !! h = Some (mkDeferred None []))
    by (rewrite Hd; apply lookup_snoc).
  unfold Crawler.crawl.
  clearbody f. destruct f; simpl in Hg.
  - exists (with_deferreds (<[h := mkDeferred (Some (Failure x)) []]> (deferreds w1)) w1), n.
    split; [now apply inlineCallbacks_raised|]. simpl.
    split; [rewrite Hd; apply insert_snoc|].
    split; [exact Hl|]. split; [exact Ht|]. split; [exact Hcrl|exact Hk].
  - exists w1, n. split; [now apply inlineCallbacks_suspended|].
    split; [exact Hd|]. split; [exact Hl|]. split; [exact Ht|]. split; [exact Hcrl|exact Hk].
  - exists w1, n. split; [now apply inlineCallbacks_suspended|].
    split; [exact Hd|]. split; [exact Hl|]. split; [exact Ht|]. split; [exact Hcrl|exact Hk].
  - exists (with_deferreds (<[h := mkDeferred (Some Value) []]> (deferreds w1)) w1), n.
    split; [now apply inlineCallbacks_returned|]. simpl.
    split; [rewrite Hd; apply insert_snoc|].
    split; [exact Hl|]. split; [exact Ht|]. split; [exact Hcrl|exact Hk].
Qed.

(** ** A failing start *)

Lemma first_run_failures (cls : SpiderCls) (args : Args) (mk : exn + Engine) (x : exn) :
  (from_crawler cls args = inl x -> first_run cls args mk = StepFailed x)
  ∧ (∀ s, from_crawler cls args = inr s -> mk = inl x ->
          first_run cls args mk = StepFailed x)
  ∧ (∀ s e, from_crawler cls args = inr s -> mk = inr e ->
            start_requests s = Some x -> first_run cls args mk = StepFailed x)
  ∧ (∀ s e, from_crawler cls args = inr s -> mk = inr e -> start_requests s = None ->
            open_spider e = Raises x ∨ open_spider e = Returns (Some (Failure x)) ->
            first_run cls args mk = StepFailed x)
  ∧ (∀ s e, from_crawler cls args = inr s -> mk = inr e -> start_requests s = None ->
            open_spider e = Returns (Some Value) ->
            engine_start e = Raises x ∨ engine_start e = Returns (Some (Failure x)) ->
            first_run cls args mk = StepFailed x).
Proof.
  unfold first_run. repeat split.
  - now intros ->.
  - now intros s -> ->.
  - now intros s e -> -> ->.
  - intros s e -> -> -> [-> | ->]; reflexivity.
  - intros s e -> -> -> -> [-> | ->]; reflexivity.
Qed.

(** ** The members of a DeferredList *)

(** Firing and [addBoth], as equations, in a store where an update is
    read back and a second update overrides the first. *)
Section Deferred_equations.
Context {C : Type}.
Variable lookup_d : nat -> World -> option (Deferred C).
Variable update_d : nat -> Deferred C -> World -> World.
Variable run_cb : C -> outcome -> M outcome.
Hypothesis lookup_update :
  ∀ d D D0 w, lookup_d d w = Some D0 -> lookup_d d (update_d d D w) = Some D.
Hypothesis update_update :
  ∀ d D D' w, update_d d D (update_d d D' w) = update_d d D w.

Lemma callback_eq (d : nat) (r : outcome) (cbs : list C) (w : World) :
  lookup_d d w = Some (mkDeferred None cbs) ->
  callback lookup_d update_d run_cb d r w =
    for_each cbs (run_callback lookup_d update_d run_cb d)
      (update_d d (mkDeferred (Some r) []) w).
Proof.
  intros H. unfold callback, _runCallbacks. run_M. rewrite H. simpl.
  rewrite (lookup_update _ _ _ _ H). simpl. now rewrite update_update.
Qed.

Lemma addBoth_eq (d : nat) (cb : C) (D : Deferred C) (w : World) :
  lookup_d d w = Some D ->
  addBoth lookup_d update_d run_cb d cb w =
    match result D with
    | None => (Ok tt, update_d d (mkDeferred None (callbacks D ++ [cb])) w)
    | Some r =>
        for_each (callbacks D ++ [cb]) (run_callback lookup_d update_d run_cb d)
          (update_d d (mkDeferred (Some r) []) w)
    end.
Proof.
  intros H. unfold addBoth, _runCallbacks, called. run_M. rewrite H. simpl.
  destruct D as [[r|] cbs]; simpl; [|reflexivity].
  rewrite (lookup_update _ _ _ _ H). simpl. now rewrite update_update.
Qed.

Lemma run_callback_eq (d : nat) (cb : C) (r0 : outcome) (cbs0 : list C) (w : World) :
  lookup_d d w = Some (mkDeferred (Some r0) cbs0) ->
  run_callback lookup_d update_d run_cb d cb w =
    (Ok tt,
     let '(res, w') := run_cb cb r0 w in
     let r' := match res with Ok a => a | Raise e => Failure e end in
     match lookup_d d w' with
     | Some D => update_d d (mkDeferred (Some r') (callbacks D)) w'
     | None => w'
     end).
Proof.
  intros H. unfold run_callback. run_M. rewrite H.
  destruct (run_cb cb r0 w) as [[a|e] w']; reflexivity.
Qed.
End Deferred_equations.

Lemma defer_lookup_update (d : nat) (D D0 : Deferred handle_callback) (w : World) :
  defer.lookup d w = Some D0 -> defer.lookup d (defer.update d D w) = Some D.
Proof.
  unfold defer.lookup, defer.update. simpl. intros H.
  apply list_lookup_insert_eq. eapply lookup_lt_Some. eassumption.
Qed.

Lemma defer_update_update (d : nat) (D D' : Deferred handle_callback) (w : World) :
  defer.update d D (defer.update d D' w) = defer.update d D w.
Proof.
  unfold defer.update, with_deferreds. simpl. now rewrite list_insert_insert_eq.
Qed.

Lemma DeferredList_lookup_update (d : nat) (D D0 : Deferred list_callback) (w : World) :
  DeferredList.lookup d w = Some D0 ->
  DeferredList.lookup d (DeferredList.update d D w) = Some D.
Proof.
  unfold DeferredList.lookup, DeferredList.update. simpl. intros H.
  rewrite list_lookup_alter_eq.
  destruct (deferred_lists w !! d); [reflexivity | discriminate].
Qed.

Lemma DeferredList_update_update (d : nat) (D D' : Deferred list_callback) (w : World) :
  DeferredList.update d D (DeferredList.update d D' w) = DeferredList.update d D w.
Proof.
  unfold DeferredList.update, with_deferred_lists. simpl.
  now rewrite list_alter_alter_eq.
Qed.

Lemma count_app {A} (f : A -> bool) (l k : list A) :
  count f (l ++ k) = count f l + count f k.
Proof. induction l as [|x l IH]; simpl; [reflexivity | rewrite IH; lia]. Qed.

Lemma count_le_length {A} (f : A -> bool) (l : list A) : count f l ≤ length l.
Proof. induction l as [|x l IH]; simpl; [lia | destruct (f x); lia]. Qed.

Lemma count_all {A} (f : A -> bool) (l : list A) :
  count f l = length l ↔ ∀ x, x ∈ l -> f x = true.
Proof.
  induction l as [|x l IH]; simpl.
  - split; [intros _ y Hy; inversion Hy | reflexivity].
  - pose proof (count_le_length f l) as Hle. split.
    + intros H y Hy. destruct (f x) eqn:E; [|lia].
      apply elem_of_cons in Hy as [->|Hy]; [exact E|].
      apply IH; [lia | exact Hy].
    + intros H. rewrite (H x) by apply list_elem_of_here.
      assert (count f l = length l) as -> by (apply IH; intros y Hy; apply H; now apply list_elem_of_further).
      reflexivity.
Qed.

Lemma count_ext {A} (f g : A -> bool) (l : list A) :
  (∀ x, x ∈ l -> f x = g x) -> count f l = count g l.
Proof.
  induction l as [|x l IH]; simpl; [reflexivity|]. intros H.
  rewrite (H x) by apply list_elem_of_here.
  rewrite IH; [reflexivity|]. intros y Hy. apply H. now apply list_elem_of_further.
Qed.

Lemma joined_ext (dl : nat) (hs : list nat) (n c : nat) (w w' : World) :
  deferreds w' = deferreds w -> deferred_lists w' = deferred_lists w ->
  joined dl hs n c w -> joined dl hs n c w'.
Proof.
  intros Hd Hl [J1 J2 J3 J4].
  assert (Hc : ∀ h, is_called w' h = is_called w h)
    by (intros h; unfold is_called; now rewrite Hd).
  split.
  - destruct J1 as (L & H1 & H2 & H3 & H4). exists L. rewrite Hl.
    rewrite (count_ext _ (is_called w)) by (intros; apply Hc). auto.
  - exact J2.
  - rewrite Hd. exact J3.
  - rewrite Hd. exact J4.
Qed.

(** What a joined list tells: it has fired if and only if all its members
    have. *)
Lemma joined_iff (dl : nat) (hs : list nat) (w : World) :
  joined dl hs (length hs) 0 w ->
  list_called w dl = true ↔ ∀ h, h ∈ hs -> is_called w h = true.
Proof.
  intros [(L & H1 & H2 & H3 & H4) _ _ _]. unfold list_called. rewrite H1, H4.
  rewrite Nat.eqb_eq, <- count_all. lia.
Qed.

Lemma list_touched_refl (dl : nat) (w : World) : list_touched dl w w.
Proof. split; try reflexivity. intros L0 H. exists L0. auto. Qed.

Lemma list_touched_trans (dl : nat) (w0 w1 w2 : World) :
  list_touched dl w0 w1 -> list_touched dl w1 w2 -> list_touched dl w0 w2.
Proof.
  intros [A1 A2 A3 A4] [B1 B2 B3 B4]. split.
  - congruence.
  - congruence.
  - intros j Hj. rewrite B3, A3; auto.
  - intros L0 H0. destruct (A4 L0 H0) as (L1 & H1 & R1 & F1 & C1).
    destruct (B4 L1 H1) as (L2 & H2 & R2 & F2 & C2).
    exists L2. repeat split; try congruence. auto.
Qed.

Lemma list_touched_ext (dl : nat) (w0 w w' : World) :
  deferreds w' = deferreds w -> deferred_lists w' = deferred_lists w ->
  list_touched dl w0 w -> list_touched dl w0 w'.
Proof. intros Hd Hl [A1 A2 A3 A4]. split; rewrite ?Hd, ?Hl; auto. Qed.

Lemma list_update_touched (dl : nat) (D : Deferred list_callback) (w : World) :
  (∀ L, deferred_lists w !! dl = Some L -> called (dl_deferred L) = true -> called D = true) ->
  list_touched dl w (DeferredList.update dl D w).
Proof.
  intros HD. unfold DeferredList.update. split; simpl.
  - reflexivity.
  - apply length_alter.
  - intros j Hj. now apply list_lookup_alter_ne.
  - intros L0 H0. rewrite list_lookup_alter_eq, H0. simpl.
    eexists. split; [reflexivity|]. simpl. repeat split. intros Hc. now apply (HD L0).
Qed.

Lemma stop_reactor_then_value (self : nat) (w : World) :
  ∃ w', (_stop_reactor self ;; mret Value) w = (Ok Value, w')
        ∧ deferreds w' = deferreds w ∧ deferred_lists w' = deferred_lists w.
Proof.
  unfold mbind, M_bind. rewrite stop_reactor_spec.
  eexists. split; [reflexivity|]. destruct (_stopped (the_reactor w)); now split.
Qed.

Lemma run_list_callback_touched (dl : nat) (cb : list_callback) (w : World) :
  list_touched dl w
    (world_after
       (run_callback DeferredList.lookup DeferredList.update DeferredList.run_cb dl cb) w).
Proof.
  unfold world_after.
  destruct (DeferredList.lookup dl w) as [[[r0|] cbs0]|] eqn:E.
  - rewrite (run_callback_eq _ _ _ dl cb r0 cbs0 w E). simpl.
    destruct cb as [self]. unfold DeferredList.run_cb.
    destruct (stop_reactor_then_value self w) as (w' & -> & Hd & Hl).
    assert (E' : DeferredList.lookup dl w' = DeferredList.lookup dl w)
      by (unfold DeferredList.lookup; now rewrite Hl).
    rewrite E', E. simpl.
    apply list_touched_trans with w'.
    + apply list_touched_ext with w; auto using list_touched_refl.
    + apply list_update_touched. reflexivity.
  - unfold run_callback. run_M. rewrite E. apply list_touched_refl.
  - unfold run_callback. run_M. rewrite E. apply list_touched_refl.
Qed.

Lemma list_callbacks_touched (dl : nat) (cbs : list list_callback) (w : World) :
  list_touched dl w
    (world_after
       (for_each cbs
          (run_callback DeferredList.lookup DeferredList.update DeferredList.run_cb dl)) w).
Proof.
  revert w. induction cbs as [|cb cbs IH]; intros w; simpl.
  - apply list_touched_refl.
  - pose proof (run_list_callback_touched dl cb w) as H1.
    unfold world_after, mbind, M_bind in *.
    destruct (run_callback _ _ _ dl cb w) as [[[]|e] w1]; simpl in *; [|exact H1].
    apply list_touched_trans with w1; [exact H1 | apply IH].
Qed.

(** Firing list [dl]: only its Deferred part changes, and it has fired. *)
Lemma list_callback_touched (dl : nat) (r : outcome) (w : World) :
  let w' := world_after (DeferredList.callback dl r) w in
  list_touched dl w w'
  ∧ (∀ L, deferred_lists w !! dl = Some L -> list_called w' dl = true).
Proof.
  intros w'. unfold w', world_after, DeferredList.callback.
  destruct (deferred_lists w !! dl) as [L|] eqn:EL.
  - destruct (dl_deferred L) as [[r0|] cbs] eqn:ED.
    + (* already fired: AlreadyCalledError *)
      unfold callback. run_M. unfold DeferredList.lookup. rewrite EL. simpl.
      rewrite ED. simpl. split; [apply list_touched_refl|].
      intros L' [= <-]. unfold list_called. now rewrite EL, ED.
    + assert (E : DeferredList.lookup dl w = Some (mkDeferred None cbs))
        by (unfold DeferredList.lookup; now rewrite EL, <- ED).
      rewrite (callback_eq _ _ _ DeferredList_lookup_update DeferredList_update_update
                 dl r cbs w E).
      pose proof (list_callbacks_touched dl cbs
                    (DeferredList.update dl (mkDeferred (Some r) []) w)) as H2.
      unfold world_after in H2.
      assert (H1 : list_touched dl w (DeferredList.update dl (mkDeferred (Some r) []) w))
        by (apply list_update_touched; reflexivity).
      split; [now apply list_touched_trans with (2 := H2)|].
      intros L' _. 
      destruct (touched_list _ _ _ H2 (mkListObj (mkDeferred (Some r) []) (resultList L) (finishedCount L)))
        as (L2 & HL2 & _ & _ & Hc).
      { unfold DeferredList.update. simpl. now rewrite list_lookup_alter_eq, EL. }
      unfold list_called. rewrite HL2. now apply Hc.
  - unfold callback. run_M. unfold DeferredList.lookup. rewrite EL. simpl.
    split; [apply list_touched_refl | intros L [=]].
Qed.

Lemma list_addBoth_touched (dl : nat) (cb : list_callback) (w : World) :
  list_touched dl w (world_after (DeferredList.addBoth dl cb) w).
Proof.
  unfold world_after, DeferredList.addBoth.
  destruct (DeferredList.lookup dl w) as [D|] eqn:E.
  - rewrite (addBoth_eq _ _ _ DeferredList_lookup_update DeferredList_update_update
               dl cb D w E).
    assert (EL : ∀ L, deferred_lists w !! dl = Some L -> dl_deferred L = D).
    { intros L HL. unfold DeferredList.lookup in E. rewrite HL in E. now injection E. }
    destruct (result D) as [r|] eqn:ER.
    + eapply list_touched_trans; [|apply list_callbacks_touched].
      apply list_update_touched. reflexivity.
    + simpl. apply list_update_touched. intros L HL Hc.
      rewrite (EL L HL) in Hc. unfold called in Hc. now rewrite ER in Hc.
  - unfold addBoth. run_M. rewrite E. apply list_touched_refl.
Qed.

Lemma joined_touched_other (dl dl' : nat) (hs : list nat) (n c : nat) (w w' : World) :
  dl' ≠ dl -> list_touched dl' w w' -> joined dl hs n c w -> joined dl hs n c w'.
Proof.
  intros Hne [A1 A2 A3 A4] [J1 J2 J3 J4].
  assert (Hc : ∀ h, is_called w' h = is_called w h)
    by (intros h; unfold is_called; now rewrite A1).
  split.
  - destruct J1 as (L & H1 & H2 & H3 & H4). exists L.
    rewrite A3 by auto.
    rewrite (count_ext _ (is_called w)) by (intros; apply Hc). auto.
  - exact J2.
  - rewrite A1. exact J3.
  - rewrite A1. exact J4.
Qed.

Lemma cbDeferred_eq (dl' i : nat) (r : outcome) (w : World) :
  DeferredList._cbDeferred dl' i r w =
    match deferred_lists w !! dl' with
    | None => (Raise no_such_object, w)
    | Some L =>
        let L' := mkListObj (dl_deferred L)
                    (<[i := Some (negb (is_Failure r), r)]> (resultList L))
                    (S (finishedCount L)) in
        ((if negb (called (dl_deferred L'))
             && (finishedCount L' =? length (resultList L'))
          then DeferredList.callback dl' Value
          else mret tt) ;; mret r)
          (with_deferred_lists (<[dl' := L']> (deferred_lists w)) w)
    end.
Proof.
  unfold DeferredList._cbDeferred. unfold mbind at 1. unfold M_bind at 1. unfold get.
  cbv beta iota. destruct (deferred_lists w !! dl'); reflexivity.
Qed.

(** The callback of a list runs for one of its members. *)
Lemma cbDeferred_joined (dl dl' i : nat) (r : outcome) (hs : list nat) (n c : nat) (w : World) :
  joined dl hs n (c + (if dl' =? dl then 1 else 0)) w ->
  let w' := world_after (DeferredList._cbDeferred dl' i r) w in
  joined dl hs n c w' ∧ deferreds w' = deferreds w.
Proof.
  intros J w'. unfold w', world_after. rewrite cbDeferred_eq.
  destruct (deferred_lists w !! dl') as [L|] eqn:EL.
  2:{ simpl. split; [|reflexivity].
      destruct (Nat.eqb_spec dl' dl) as [->|Hne].
      - destruct J as [(L & H1 & _) _ _ _]. congruence.
      - now rewrite Nat.add_0_r in J. }
  cbv zeta.
  set (L' := mkListObj (dl_deferred L)
               (<[i := Some (negb (is_Failure r), r)]> (resultList L))
               (S (finishedCount L))).
  set (w1 := with_deferred_lists (<[dl' := L']> (deferred_lists w)) w).
  assert (Hlt : dl' < length (deferred_lists w)) by (eapply lookup_lt_Some; eassumption).
  assert (HL1 : deferred_lists w1 !! dl' = Some L')
    by (simpl; now apply list_lookup_insert_eq).
  set (fire := negb (called (dl_deferred L')) && (finishedCount L' =? length (resultList L'))).
  set (w2 := world_after (if fire then DeferredList.callback dl' Value else mret tt) w1).
  assert (Hw2 : (((if fire then DeferredList.callback dl' Value else mret tt) ;; mret r) w1).2
                = w2).
  { unfold w2, world_after, mbind, M_bind.
    destruct ((if fire then DeferredList.callback dl' Value else mret tt) w1) as [[[]|e] w3];
      reflexivity. }
  rewrite Hw2. clear Hw2.
  assert (T : list_touched dl' w1 w2
              ∧ (fire = true -> list_called w2 dl' = true)).
  { unfold w2. destruct fire.
    - destruct (list_callback_touched dl' Value w1) as [T1 T2].
      split; [exact T1|]. intros _. now apply (T2 L').
    - split; [apply list_touched_refl | discriminate]. }
  destruct T as [T Tf].
  split; [|now rewrite (touched_deferreds _ _ _ T)].
  destruct (Nat.eqb_spec dl' dl) as [->|Hne].
  - (* the list at hand: one more member counted *)
    destruct J as [(L0 & H1 & H2 & H3 & H4) J2 J3 J4].
    assert (L0 = L) as -> by congruence.
    destruct (touched_list _ _ _ T L' HL1) as (L2 & HL2 & R2 & F2 & C2).
    assert (Hc : ∀ h, is_called w2 h = is_called w h)
      by (intros h; unfold is_called; now rewrite (touched_deferreds _ _ _ T)).
    pose proof (count_le_length (is_called w) hs) as Hle.
    assert (Hfc : finishedCount L < n) by lia.
    assert (Hnc : called (dl_deferred L) = false)
      by (rewrite H4; apply Nat.eqb_neq; lia).
    split.
    + exists L2. split; [exact HL2|]. rewrite R2, F2.
      unfold L'. cbn [finishedCount resultList]. rewrite length_insert.
      split; [exact H2|].
      split; [rewrite (count_ext _ (is_called w)) by (intros; apply Hc); lia|].
      assert (Hfire : fire = (S (finishedCount L) =? n)).
      { unfold fire, L'. cbn [dl_deferred finishedCount resultList].
        now rewrite length_insert, Hnc, H2. }
      destruct (S (finishedCount L) =? n) eqn:E.
      * specialize (Tf Hfire). unfold list_called in Tf. now rewrite HL2 in Tf.
      * (* not fired now, and not fired before *)
        unfold w2 in HL2. rewrite Hfire in HL2. unfold world_after in HL2. simpl in HL2.
        rewrite list_lookup_insert_eq in HL2 by assumption.
        injection HL2 as <-. exact Hnc.
    + exact J2.
    + rewrite (touched_deferreds _ _ _ T). exact J3.
    + rewrite (touched_deferreds _ _ _ T). exact J4.
  - rewrite Nat.add_0_r in J.
    apply joined_touched_other with dl' w1; [exact Hne | exact T |].
    (* the insert at another list *)
    destruct J as [(L0 & H1 & H2 & H3 & H4) J2 J3 J4]. split; simpl; auto.
    exists L0. rewrite list_lookup_insert_ne by auto. auto.
Qed.

(** A fired Deferred gets another result: nothing changes for the lists. *)
Lemma joined_set_result (dl : nat) (hs : list nat) (n c : nat) (w : World)
    (h : nat) (r0 r' : outcome) (cbs : list handle_callback) :
  deferreds w !! h = Some (mkDeferred (Some r0) cbs) ->
  joined dl hs n c w ->
  joined dl hs n c (defer.update h (mkDeferred (Some r') cbs) w).
Proof.
  intros Hh [J1 J2 J3 J4].
  assert (Hlt : h < length (deferreds w)) by (eapply lookup_lt_Some; eassumption).
  assert (Hc : ∀ h', is_called (defer.update h (mkDeferred (Some r') cbs) w) h'
                     = is_called w h').
  { intros h'. unfold is_called, defer.update. simpl.
    destruct (decide (h = h')) as [<-|Hne].
    - now rewrite list_lookup_insert_eq, Hh.
    - now rewrite list_lookup_insert_ne. }
  split.
  - destruct J1 as (L & H1 & H2 & H3 & H4). exists L.
    rewrite (count_ext _ (is_called w)) by (intros; apply Hc). auto.
  - exact J2.
  - intros h' D. unfold defer.update. simpl.
    destruct (decide (h = h')) as [<-|Hne].
    + rewrite list_lookup_insert_eq by assumption. intros [= <-].
      apply (J3 h _ Hh).
    + rewrite list_lookup_insert_ne by assumption. apply J3.
  - unfold defer.update. simpl. now rewrite length_insert.
Qed.

(** One callback of a fired Deferred runs. *)
Lemma run_handle_callback_joined (dl : nat) (hs : list nat) (n c : nat) (h : nat)
    (cb : handle_callback) (w : World) :
  is_called w h = true ->
  joined dl hs n (c + (if targets dl cb then 1 else 0)) w ->
  let w' := world_after (run_callback defer.lookup defer.update defer.run_cb h cb) w in
  joined dl hs n c w' ∧ is_called w' h = true.
Proof.
  intros Hh J w'. unfold w', world_after.
  unfold is_called in Hh.
  destruct (deferreds w !! h) as [[[r0|] cbs0]|] eqn:E; try discriminate.
  rewrite (run_callback_eq _ _ _ h cb r0 cbs0 w E).
  destruct cb as [dl' i]. simpl in J. unfold defer.run_cb.
  destruct (cbDeferred_joined dl dl' i r0 hs n c w J) as [J' Hd].
  unfold world_after in J', Hd.
  destruct (DeferredList._cbDeferred dl' i r0 w) as [res w1]. simpl in *.
  unfold defer.lookup. rewrite Hd, E. simpl.
  split.
  - apply joined_set_result with r0; [now rewrite Hd | exact J'].
  - unfold is_called, defer.update. simpl.
    rewrite list_lookup_insert_eq; [reflexivity|].
    rewrite Hd. eapply lookup_lt_Some. eassumption.
Qed.

Lemma run_handle_callbacks_joined (dl : nat) (hs : list nat) (n : nat) (h : nat)
    (cbs : list handle_callback) :
  ∀ c w,
    is_called w h = true ->
    joined dl hs n (c + count (targets dl) cbs) w ->
    joined dl hs n c
      (world_after (for_each cbs (run_callback defer.lookup defer.update defer.run_cb h)) w).
Proof.
  induction cbs as [|cb cbs IH]; intros c w Hh J; simpl in *.
  - now rewrite Nat.add_0_r in J.
  - replace (c + ((if targets dl cb then 1 else 0) + count (targets dl) cbs))
      with ((c + count (targets dl) cbs) + (if targets dl cb then 1 else 0)) in J by lia.
    destruct (run_handle_callback_joined dl hs n _ h cb w Hh J) as [J1 H1].
    unfold world_after, mbind, M_bind in *.
    destruct (run_callback defer.lookup defer.update defer.run_cb h cb w)
      as [[[]|e] w1] eqn:E; simpl in *.
    + now apply IH.
    + (* [run_callback] never raises *)
      exfalso. unfold run_callback in E. run_M.
      destruct (defer.lookup h w) as [[[r0|] cbs0]|]; try discriminate.
      destruct (defer.run_cb cb r0 w) as [[a|e'] w2]; discriminate.
Qed.

Lemma count_called_fired (w : World) (h : nat) (r : outcome) (hs : list nat) :
  is_called w h = false -> h < length (deferreds w) ->
  count (is_called (defer.update h (mkDeferred (Some r) []) w)) hs
  = count (is_called w) hs + count (Nat.eqb h) hs.
Proof.
  intros Hh Hlt. induction hs as [|x hs IH]; simpl; [reflexivity|].
  rewrite IH. unfold is_called at 1, defer.update. simpl.
  destruct (Nat.eqb_spec h x) as [<-|Hne].
  - rewrite list_lookup_insert_eq by assumption. simpl. rewrite Hh. lia.
  - rewrite list_lookup_insert_ne by assumption. fold (is_called w x). lia.
Qed.

(** Firing a Deferred keeps every list in step. *)
Lemma joined_callback (dl : nat) (hs : list nat) (n : nat) (h : nat) (r : outcome) :
  preserves (joined dl hs n 0) (defer.callback h r).
Proof.
  intros w J. unfold world_after, defer.callback.
  destruct (deferreds w !! h) as [[[r0|] cbs]|] eqn:E.
  - unfold callback. run_M. unfold defer.lookup. now rewrite E.
  - rewrite (callback_eq _ _ _ defer_lookup_update defer_update_update h r cbs w E).
    assert (Hlt : h < length (deferreds w)) by (eapply lookup_lt_Some; eassumption).
    apply run_handle_callbacks_joined.
    + unfold is_called, defer.update. simpl. now rewrite list_lookup_insert_eq.
    + destruct J as [(L & H1 & H2 & H3 & H4) J2 J3 J4]. split.
      * exists L. split; [exact H1|]. split; [exact H2|]. split; [|exact H4].
        rewrite count_called_fired by (unfold is_called; rewrite ?E; auto).
        pose proof (J3 h _ E) as Hcb. simpl in Hcb. lia.
      * exact J2.
      * intros h' D. unfold defer.update. simpl.
        destruct (decide (h = h')) as [<-|Hne].
        -- rewrite list_lookup_insert_eq by assumption. now intros [= <-].
        -- rewrite list_lookup_insert_ne by assumption. apply J3.
      * unfold defer.update. simpl. now rewrite length_insert.
  - unfold callback. run_M. unfold defer.lookup. now rewrite E.
Qed.

(** A new Deferred is no member of any list. *)
Lemma joined_new (dl : nat) (hs : list nat) (n : nat) :
  preserves (joined dl hs n 0) defer.new.
Proof.
  intros w [J1 J2 J3 J4]. unfold world_after. rewrite defer_new_spec. simpl.
  assert (Hc : ∀ h, h < length (deferreds w) ->
                    is_called (with_deferreds (deferreds w ++ [mkDeferred None []]) w) h
                    = is_called w h).
  { intros h Hh. unfold is_called. simpl. now rewrite lookup_app_l. }
  split; simpl.
  - destruct J1 as (L & H1 & H2 & H3 & H4). exists L.
    rewrite (count_ext _ (is_called w)); [auto|].
    intros h Hh. apply Hc. rewrite Forall_forall in J4. now apply J4.
  - exact J2.
  - intros h D Hh. apply lookup_snoc_Some in Hh as [[Hlt Hh] | [-> <-]].
    + now apply J3.
    + simpl. symmetry. clear -J4. induction J4 as [|x hs Hx _ IH]; simpl; [reflexivity|].
      rewrite IH. destruct (Nat.eqb_spec (length (deferreds w)) x); [lia | reflexivity].
  - rewrite length_app. simpl. eapply Forall_impl; [exact J4|]. simpl. intros; lia.
Qed.

(** The callback of a list is given to a Deferred.  For another list than
    [dl] the count of [dl] is not concerned ([member = false]); for [dl]
    itself the Deferred becomes one more member. *)
Lemma joined_addBoth (dl dl' i : nat) (hs : list nat) (n : nat) (h : nat) (w : World) :
  let member := dl' =? dl in
  let hs' := if member then hs ++ [h] else hs in
  h < length (deferreds w) ->
  length hs' ≤ n ->
  joined dl hs n 0 w ->
  joined dl hs' n 0 (world_after (defer.addBoth h (CbDeferred dl' i)) w).
Proof.
  intros member hs' Hlt Hn J. unfold world_after, defer.addBoth.
  destruct (deferreds w !! h) as [D|] eqn:E;
    [|apply lookup_ge_None in E; lia].
  rewrite (addBoth_eq _ _ _ defer_lookup_update defer_update_update h _ D w E).
  assert (Hcount : ∀ f : nat -> bool, count f hs' = count f hs + if member then (if f h then 1 else 0) else 0).
  { intros f. unfold hs'. destruct member; [|lia]. rewrite count_app. simpl. lia. }
  destruct J as [(L & H1 & H2 & H3 & H4) J2 J3 J4].
  assert (J4' : Forall (λ x, x < length (deferreds w)) hs').
  { unfold hs'. destruct member; [|exact J4]. apply Forall_app. split; [exact J4|].
    now apply Forall_singleton. }
  destruct D as [[r|] cbs]; simpl.
  - (* fired: the callbacks run now *)
    apply run_handle_callbacks_joined.
    { unfold is_called, defer.update. simpl. now rewrite list_lookup_insert_eq. }
    pose proof (J3 h _ E) as Hcb. simpl in Hcb.
    assert (Hc : ∀ x, is_called (defer.update h (mkDeferred (Some r) []) w) x = is_called w x).
    { intros x. unfold is_called, defer.update. simpl.
      destruct (decide (h = x)) as [<-|Hne].
      - now rewrite list_lookup_insert_eq, E.
      - now rewrite list_lookup_insert_ne. }
    split.
    + exists L. split; [exact H1|]. split; [exact H2|]. split; [|exact H4].
      rewrite (count_ext _ (is_called w)) by (intros; apply Hc).
      rewrite Hcount, count_app, Hcb. simpl. fold member.
      unfold is_called at 2. rewrite E. simpl. destruct member; lia.
    + exact Hn.
    + intros h' D'. unfold defer.update. simpl.
      destruct (decide (h = h')) as [<-|Hne].
      * rewrite list_lookup_insert_eq by assumption. now intros [= <-].
      * rewrite list_lookup_insert_ne by assumption. intros HD'.
        rewrite (J3 h' D' HD'). destruct (called D'); [reflexivity|].
        rewrite Hcount. destruct member; [|lia].
        destruct (Nat.eqb_spec h' h); [congruence | lia].
    + unfold defer.update. simpl. now rewrite length_insert.
  - (* pending: the callback waits *)
    pose proof (J3 h _ E) as Hcb. simpl in Hcb.
    assert (Hc : ∀ x, is_called (defer.update h (mkDeferred None (cbs ++ [CbDeferred dl' i])) w) x
                      = is_called w x).
    { intros x. unfold is_called, defer.update. simpl.
      destruct (decide (h = x)) as [<-|Hne].
      - now rewrite list_lookup_insert_eq, E.
      - now rewrite list_lookup_insert_ne. }
    split.
    + exists L. split; [exact H1|]. split; [exact H2|]. split; [|exact H4].
      rewrite (count_ext _ (is_called w)) by (intros; apply Hc).
      rewrite Hcount. unfold is_called at 2. rewrite E. simpl. destruct member; lia.
    + exact Hn.
    + intros h' D'. unfold defer.update. simpl.
      destruct (decide (h = h')) as [<-|Hne].
      * rewrite list_lookup_insert_eq by assumption. intros [= <-]. simpl.
        rewrite count_app, Hcb, Hcount. simpl. fold member.
        rewrite Nat.eqb_refl. destruct member; lia.
      * rewrite list_lookup_insert_ne by assumption. intros HD'.
        rewrite (J3 h' D' HD'). destruct (called D'); [reflexivity|].
        rewrite Hcount. destruct member; [|lia].
        destruct (Nat.eqb_spec h' h); [congruence | lia].
    + unfold defer.update. simpl. now rewrite length_insert.
Qed.

Lemma joined_addBoth_other (dl dl' i : nat) (hs : list nat) (n : nat) (h : nat) :
  dl' ≠ dl ->
  preserves (joined dl hs n 0) (defer.addBoth h (CbDeferred dl' i)).
Proof.
  intros Hne w J.
  destruct (decide (h < length (deferreds w))) as [Hlt|Hge].
  - pose proof (joined_addBoth dl dl' i hs n h w Hlt) as H.
    simpl in H. apply Nat.eqb_neq in Hne. rewrite Hne in H.
    apply H; [apply (joined_length _ _ _ _ _ J) | exact J].
  - unfold world_after, defer.addBoth, addBoth. run_M. unfold defer.lookup.
    rewrite lookup_ge_None_2 by lia. exact J.
Qed.

(** [addBoth] on a list leaves the lists in step. *)
Lemma joined_list_addBoth (dl dl' : nat) (hs : list nat) (n : nat) (cb : list_callback) :
  preserves (joined dl hs n 0) (DeferredList.addBoth dl' cb).
Proof.
  intros w J. pose proof (list_addBoth_touched dl' cb w) as T.
  destruct (decide (dl' = dl)) as [->|Hne];
    [|now apply joined_touched_other with dl' w].
  (* [dl] itself: it stays fired or pending as it was *)
  unfold world_after, DeferredList.addBoth in *.
  destruct J as [(L & H1 & H2 & H3 & H4) J2 J3 J4].
  destruct T as [T1 T2 T3 T4].
  set (w' := (addBoth DeferredList.lookup DeferredList.update DeferredList.run_cb dl cb w).2) in *.
  assert (Hc : ∀ h, is_called w' h = is_called w h)
    by (intros h; unfold is_called; now rewrite T1).
  destruct (T4 L H1) as (L' & HL' & R' & F' & C').
  split.
  - exists L'. split; [exact HL'|]. rewrite R', F'.
    split; [exact H2|].
    split; [rewrite (count_ext _ (is_called w)) by (intros; apply Hc); exact H3|].
    rewrite <- H4. destruct (called (dl_deferred L)) eqn:Ec; [now apply C'|].
    (* pending before: [addBoth] only queued the callback *)
    assert (E : DeferredList.lookup dl w = Some (dl_deferred L))
      by (unfold DeferredList.lookup; now rewrite H1).
    unfold w' in HL'.
    rewrite (addBoth_eq _ _ _ DeferredList_lookup_update DeferredList_update_update
               dl cb _ w E) in HL'.
    unfold called in Ec. destruct (result (dl_deferred L)); [discriminate|].
    simpl in HL'. rewrite list_lookup_alter_eq, H1 in HL'. now injection HL' as <-.
  - exact J2.
  - rewrite T1. exact J3.
  - rewrite T1. exact J4.
Qed.

(** The loop of [_runCallbacks] never raises: what a callback raises
    becomes the result. *)
Lemma run_callback_ok {C} (lookup_d : nat -> World -> option (Deferred C))
    (update_d : nat -> Deferred C -> World -> World) (run_cb : C -> outcome -> M outcome)
    (d : nat) (cb : C) (w : World) :
  outcome_of (run_callback lookup_d update_d run_cb d cb) w = Ok tt.
Proof.
  unfold outcome_of, run_callback. run_M.
  destruct (lookup_d d w) as [[[r0|] cbs0]|]; try reflexivity.
  destruct (run_cb cb r0 w) as [[a|e] w1]; reflexivity.
Qed.

Lemma run_callbacks_ok {C} (lookup_d : nat -> World -> option (Deferred C))
    (update_d : nat -> Deferred C -> World -> World) (run_cb : C -> outcome -> M outcome)
    (d : nat) (cbs : list C) (w : World) :
  outcome_of (for_each cbs (run_callback lookup_d update_d run_cb d)) w = Ok tt.
Proof.
  revert w. induction cbs as [|cb cbs IH]; intros w; simpl; [reflexivity|].
  pose proof (run_callback_ok lookup_d update_d run_cb d cb w) as H.
  unfold outcome_of, mbind, M_bind in *.
  destruct (run_callback lookup_d update_d run_cb d cb w) as [[[]|e] w1];
    simpl in H; [apply IH | discriminate].
Qed.

Lemma defer_addBoth_ok (h : nat) (cb : handle_callback) (w : World) :
  h < length (deferreds w) -> outcome_of (defer.addBoth h cb) w = Ok tt.
Proof.
  intros Hlt. destruct (lookup_lt_is_Some_2 _ _ Hlt) as [D E].
  unfold outcome_of, defer.addBoth.
  rewrite (addBoth_eq _ _ _ defer_lookup_update defer_update_update h cb D w E).
  destruct (result D); [apply run_callbacks_ok | reflexivity].
Qed.

Lemma defer_addBoth_length (h : nat) (cb : handle_callback) (N : nat) :
  preserves (λ w, length (deferreds w) = N) (defer.addBoth h cb).
Proof.
  unfold defer.addBoth. apply preserves_addBoth.
  - intros d D w H. unfold defer.update. simpl. now rewrite length_insert.
  - intros cb' r. preserves_tac untouched.
Qed.

(** The loop of [DeferredList.__init__] over the members. *)
Lemma DeferredList_members_joined (dl n : nat) :
  ∀ (ds : list nat) (f : nat -> nat -> nat * nat) (pre : list nat) (w : World),
    (∀ i d, (f i d).2 = d) ->
    joined dl pre n 0 w ->
    length (pre ++ ds) ≤ n ->
    Forall (λ h, h < length (deferreds w)) ds ->
    let loop := for_each (imap f ds) (λ '(index, d), defer.addBoth d (CbDeferred dl index)) in
    outcome_of loop w = Ok tt
    ∧ joined dl (pre ++ ds) n 0 (world_after loop w)
    ∧ length (deferreds (world_after loop w)) = length (deferreds w).
Proof.
  induction ds as [|d ds IH]; intros f pre w Hf J Hn Hds loop; unfold loop; simpl.
  - rewrite app_nil_r. split; [reflexivity | split; [exact J | reflexivity]].
  - pose proof (Hf 0 d) as Hf0. destruct (f 0 d) as [i0 d0] eqn:E0. simpl in Hf0. subst d0.
    apply Forall_cons in Hds as [Hd Hds].
    pose proof (defer_addBoth_ok d (CbDeferred dl i0) w Hd) as Hok.
    pose proof (joined_addBoth dl dl i0 pre n d w Hd) as Hj.
    simpl in Hj. rewrite Nat.eqb_refl in Hj.
    rewrite length_app in Hn. simpl in Hn.
    specialize (Hj ltac:(rewrite length_app; simpl; lia) J).
    pose proof (defer_addBoth_length d (CbDeferred dl i0) _ w eq_refl) as Hl.
    unfold outcome_of, world_after, mbind, M_bind in *.
    destruct (defer.addBoth d (CbDeferred dl i0) w) as [[[]|e] w1]; simpl in *;
      [|discriminate].
    destruct (IH (f ∘ S) (pre ++ [d]) w1) as (I1 & I2 & I3).
    + intros i x. apply Hf.
    + exact Hj.
    + rewrite !length_app. simpl. lia.
    + now rewrite Hl.
    + rewrite <- app_assoc in I2. simpl in I2. rewrite I3, Hl.
      split; [exact I1 | split; [exact I2 | reflexivity]].
Qed.

Lemma DeferredList_eq (ds : list nat) (w : World) :
  defer.DeferredList ds w =
    let self := length (deferred_lists w) in
    ((if length ds =? 0 then DeferredList.callback self Value else mret tt) ;;
     for_each (imap pair ds) (λ '(index, d), defer.addBoth d (CbDeferred self index)) ;;
     mret self)
      (with_deferred_lists
         (deferred_lists w ++
          [mkListObj (mkDeferred None []) (replicate (length ds) None) 0]) w).
Proof. reflexivity. Qed.

Lemma count_targets_fresh (dl : nat) (cbs : list handle_callback) (N : nat) :
  Forall (λ cb, match cb with CbDeferred dl' _ => dl' < N end) cbs -> N ≤ dl ->
  count (targets dl) cbs = 0.
Proof.
  intros H Hle. induction H as [|[dl' i] cbs Hcb _ IH]; simpl; [reflexivity|].
  rewrite IH. destruct (Nat.eqb_spec dl' dl); [lia | reflexivity].
Qed.

(** A new DeferredList is in step with its members. *)
Lemma DeferredList_joined (ds : list nat) (w : World) :
  no_forward_callbacks w ->
  Forall (λ h, h < length (deferreds w)) ds ->
  let self := length (deferred_lists w) in
  outcome_of (defer.DeferredList ds) w = Ok self
  ∧ joined self ds (length ds) 0 (world_after (defer.DeferredList ds) w).
Proof.
  intros Hwf Hds self. unfold outcome_of, world_after. rewrite DeferredList_eq.
  fold self. cbv zeta.
  set (L0 := mkListObj (mkDeferred None []) (replicate (length ds) None) 0).
  set (w1 := with_deferred_lists (deferred_lists w ++ [L0]) w).
  assert (HL : deferred_lists w1 !! self = Some L0) by (simpl; apply lookup_snoc).
  (* after the firing of an empty list *)
  set (first := if length ds =? 0 then DeferredList.callback self Value else mret tt).
  assert (H1 : outcome_of first w1 = Ok tt ∧ joined self [] (length ds) 0 (world_after first w1)
               ∧ deferreds (world_after first w1) = deferreds w).
  { assert (Hcbs : ∀ h D, deferreds w !! h = Some D ->
                          count (targets self) (callbacks D) = 0).
    { intros h D HD. eapply count_targets_fresh; [apply (Hwf h D HD) | unfold self; lia]. }
    unfold first. destruct (Nat.eqb_spec (length ds) 0) as [E|E].
    - assert (EL : DeferredList.lookup self w1 = Some (mkDeferred None []))
        by (unfold DeferredList.lookup; now rewrite HL).
      unfold outcome_of, world_after, DeferredList.callback.
      rewrite (callback_eq _ _ _ DeferredList_lookup_update DeferredList_update_update
                 self Value [] w1 EL).
      simpl. split; [reflexivity|]. split; [|reflexivity].
      split; simpl.
      + eexists. unfold self. rewrite alter_snoc. split; [apply lookup_snoc|]. simpl.
        rewrite length_replicate, E. now repeat split.
      + lia.
      + intros h D HD. rewrite (Hcbs h D HD). now destruct (called D).
      + constructor.
    - split; [reflexivity|]. split; [|reflexivity]. unfold world_after. simpl.
      split; simpl.
      + exists L0. split; [apply lookup_snoc|]. simpl. rewrite length_replicate.
        repeat split. destruct (length ds); [lia | reflexivity].
      + lia.
      + intros h D HD. rewrite (Hcbs h D HD). now destruct (called D).
      + constructor. }
  destruct H1 as (O1 & J1 & D1).
  unfold outcome_of, world_after, mbind, M_bind in *.
  destruct (first w1) as [[[]|e] w2]; simpl in *; [|discriminate].
  destruct (DeferredList_members_joined self (length ds) ds pair [] w2) as (O2 & J2 & _).
  - reflexivity.
  - exact J1.
  - simpl. lia.
  - now rewrite D1.
  - unfold outcome_of, world_after in *. simpl in J2.
    destruct (for_each (imap pair ds) _ w2) as [[[]|e] w3]; simpl in *; [|discriminate].
    now split.
Qed.

(** A new DeferredList leaves the older ones in step. *)
Lemma joined_DeferredList (dl : nat) (hs : list nat) (n : nat) (ds : list nat) :
  preserves (joined dl hs n 0) (defer.DeferredList ds).
Proof.
  intros w J. unfold world_after. rewrite DeferredList_eq. cbv zeta.
  assert (Hdl : dl < length (deferred_lists w)).
  { destruct J as [(L & H1 & _) _ _ _]. eapply lookup_lt_Some. eassumption. }
  set (self := length (deferred_lists w)) in *.
  assert (Hne : self ≠ dl) by lia.
  match goal with |- joined _ _ _ _ (?m ?w1).2 => change (joined dl hs n 0 (world_after m w1)) end.
  apply preserves_bind; [|intros _; apply preserves_bind; [|intros _; apply preserves_ret]|].
  - destruct (length ds =? 0); [|apply preserves_ret].
    intros w1 J1. apply joined_touched_other with self w1; [exact Hne | | exact J1].
    apply list_callback_touched.
  - apply preserves_for_each. intros [index d]. now apply joined_addBoth_other.
  - destruct J as [(L & H1 & H2 & H3 & H4) J2 J3 J4]. split; simpl; auto.
    exists L. rewrite lookup_app_l by assumption. auto.
Qed.

(** ** Histories *)

Lemma preserves_history (P : World -> Prop) (ops : list Operation) :
  (∀ op, preserves P (perform op)) -> preserves P (history ops).
Proof.
  intros H. unfold history. apply preserves_for_each. intros op.
  apply preserves_try_except; [apply H | intros e; apply preserves_ret].
Qed.

#[export] Hint Resolve joined_callback joined_new joined_DeferredList joined_list_addBoth
  : preserves.

(** A predicate on the Deferreds and the lists that the update at hand
    leaves alone. *)
Ltac joined_untouched :=
  intros; simpl in *; break_matches;
  solve [ assumption | eapply joined_ext; [ | | eassumption ]; reflexivity ].

Lemma joined_perform (dl : nat) (hs : list nat) (n : nat) (op : Operation) :
  preserves (joined dl hs n 0) (perform op).
Proof. destruct op; simpl; preserves_tac joined_untouched. Qed.

(** Whatever happens next, a list in step with its members stays so. *)
Lemma joined_history (dl : nat) (hs : list nat) (n : nat) (ops : list Operation) :
  preserves (joined dl hs n 0) (history ops).
Proof. apply preserves_history. intros op. apply joined_perform. Qed.

(** ** Stopping all crawlers *)

Lemma stop_no_crawler (self : nat) (w : World) :
  crawler_objs w !! self = None ->
  Crawler.stop self w =
    (Ok (length (deferreds w)),
     with_deferreds (deferreds w ++ [mkDeferred (Some (Failure no_such_object)) []]) w).
Proof.
  intros Hc. unfold Crawler.stop.
  rewrite (inlineCallbacks_raised _ no_such_object w
             (with_deferreds (deferreds w ++ [mkDeferred None []]) w)).
  - simpl. now rewrite insert_snoc.
  - unfold Crawler.stop_generator, get_crawler. run_M. now rewrite Hc.
  - simpl. apply lookup_snoc.
Qed.

(** [Crawler.stop] always gives a new Deferred; it leaves the lists and
    the other Deferreds alone and sets no [crawling] flag. *)
Lemma crawler_stop_facts (self : nat) (w : World) :
  ∃ w' o,
    Crawler.stop self w = (Ok (length (deferreds w)), w')
    ∧ deferreds w' = deferreds w ++ [mkDeferred o []]
    ∧ deferred_lists w' = deferred_lists w
    ∧ (crawling <$> crawler_objs w' !! self) ≠ Some true
    ∧ (∀ c, (crawling <$> crawler_objs w' !! c) = Some true ->
            (crawling <$> crawler_objs w !! c) = Some true).
Proof.
  destruct (crawler_objs w !! self) as [c|] eqn:Hc.
  - destruct (crawling c) eqn:Hcr; [destruct (engine c) as [e|] eqn:He|].
    + eexists. eexists. split; [exact (stop_crawling self c e w Hc Hcr He)|]. simpl.
      split; [reflexivity|]. split; [reflexivity|].
      split; [now rewrite list_lookup_alter_eq, Hc|].
      intros c'. destruct (decide (self = c')) as [<-|Hne].
      * now rewrite list_lookup_alter_eq, Hc.
      * now rewrite list_lookup_alter_ne.
    + eexists. eexists. split; [exact (stop_crawling_no_engine self c w Hc Hcr He)|]. simpl.
      split; [reflexivity|]. split; [reflexivity|].
      split; [now rewrite list_lookup_alter_eq, Hc|].
      intros c'. destruct (decide (self = c')) as [<-|Hne].
      * now rewrite list_lookup_alter_eq, Hc.
      * now rewrite list_lookup_alter_ne.
    + eexists. eexists. split; [exact (stop_idle self c w Hc Hcr)|]. simpl.
      split; [reflexivity|]. split; [reflexivity|].
      split; [rewrite Hc; simpl; congruence | auto].
  - eexists. eexists. split; [exact (stop_no_crawler self w Hc)|]. simpl.
    split; [reflexivity|]. split; [reflexivity|].
    split; [now rewrite Hc | auto].
Qed.

Lemma no_forward_callbacks_snoc (w w' : World) (o : option outcome) :
  deferreds w' = deferreds w ++ [mkDeferred o []] ->
  deferred_lists w' = deferred_lists w ->
  no_forward_callbacks w -> no_forward_callbacks w'.
Proof.
  intros Hd Hl H h D. rewrite Hd, Hl. intros HD.
  apply lookup_snoc_Some in HD as [[_ HD] | [_ <-]]; [now apply (H h) | constructor].
Qed.

(** [c.stop() for c in self.crawlers]: one new Deferred for each crawler,
    in order, and no crawler is left crawling. *)
Lemma stop_each_crawler (cs : list nat) :
  ∀ w, ∃ w',
    map_M Crawler.stop cs w = (Ok (seq (length (deferreds w)) (length cs)), w')
    ∧ length (deferreds w') = length (deferreds w) + length cs
    ∧ deferred_lists w' = deferred_lists w
    ∧ (no_forward_callbacks w -> no_forward_callbacks w')
    ∧ (∀ c, c ∈ cs -> (crawling <$> crawler_objs w' !! c) ≠ Some true)
    ∧ (∀ c, (crawling <$> crawler_objs w' !! c) = Some true ->
            (crawling <$> crawler_objs w !! c) = Some true).
Proof.
  induction cs as [|c cs IH]; intros w; simpl.
  - exists w. split; [reflexivity|]. split; [lia|]. split; [reflexivity|].
    split; [auto|]. split; [intros c Hc; inversion Hc | auto].
  - destruct (crawler_stop_facts c w) as (w1 & o & E1 & D1 & L1 & C1 & M1).
    destruct (IH w1) as (w2 & E2 & D2 & L2 & N2 & C2 & M2).
    exists w2. unfold mbind, M_bind. rewrite E1, E2.
    assert (Hlen : length (deferreds w1) = S (length (deferreds w)))
      by (rewrite D1, length_app; simpl; lia).
    rewrite Hlen.
    split; [reflexivity|]. split; [lia|]. split; [congruence|].
    split; [intros H; apply N2; now apply no_forward_callbacks_snoc with w o|].
    split.
    + intros c' Hc'. apply elem_of_cons in Hc' as [->|Hc'].
      * intros H. apply C1. now apply M2.
      * now apply C2.
    + intros c' H. apply M1. now apply M2.
Qed.

(** C2: in a well-formed world (and every world reached from a fresh one
    is well-formed), [CrawlerRunner.stop] calls [stop] on every crawler of
    [self.crawlers], which gives one Deferred for each and leaves no
    crawler crawling, and returns the DeferredList of these Deferreds.
    From then on, whatever happens and in whatever order, the list has
    fired exactly when all of them have fired, with a value or with a
    failure alike. *)
Theorem stop_joins_all_crawlers (self : nat) (p : ProcessObj) (w : World) :
  process_objs w !! self = Some p ->
  well_formed w ->
  let cs := elements (crawlers p) in
  let hs := seq (length (deferreds w)) (length cs) in
  let dl := length (deferred_lists w) in
  let w1 := world_after (CrawlerRunner.stop self) w in
  outcome_of (CrawlerRunner.stop self) w = Ok dl
  ∧ length hs = size (crawlers p)
  ∧ (∃ w', map_M Crawler.stop cs w = (Ok hs, w'))
  ∧ (∀ c, c ∈ crawlers p -> (crawling <$> crawler_objs w1 !! c) ≠ Some true)
  ∧ (∀ ops,
       let w2 := world_after (history ops) w1 in
       list_called w2 dl = true ↔ ∀ h, h ∈ hs -> is_called w2 h = true).
Proof.
  intros Hp [Hwf _] cs hs dl w1.
  destruct (stop_each_crawler cs w) as (w' & E & D & L & N & C & _).
  fold hs in E.
  assert (Hhs : Forall (λ h, h < length (deferreds w')) hs).
  { apply Forall_forall. intros h Hh. unfold hs in Hh. apply elem_of_seq in Hh. lia. }
  destruct (DeferredList_joined hs w' (N Hwf) Hhs) as [O J].
  rewrite L in O, J. fold dl in O, J.
  assert (Es : CrawlerRunner.stop self w = defer.DeferredList hs w').
  { unfold CrawlerRunner.stop, get_process. run_M. rewrite Hp. simpl.
    fold cs. now rewrite E. }
  assert (Hc1 : crawler_objs w1 = crawler_objs w').
  { unfold w1, world_after. rewrite Es.
    assert (K : keeps crawler_objs (defer.DeferredList hs))
      by (apply keeps_intro; intros x; preserves_tac untouched).
    apply K. }
  split; [unfold outcome_of; now rewrite Es|].
  split; [unfold hs, cs; now rewrite length_seq|].
  split; [now exists w'|].
  split.
  - intros c Hc. rewrite Hc1. apply C. unfold cs. now apply elem_of_elements.
  - intros ops w2. apply joined_iff. apply joined_history.
    unfold w1, world_after. rewrite Es. exact J.
Qed.

(** ** Stopping the loop when the crawls are over *)

Lemma swf_ext (dl self : nat) (w w' : World) :
  _started (the_reactor w') = _started (the_reactor w) ->
  _stopped (the_reactor w') = _stopped (the_reactor w) ->
  deferred_lists w' = deferred_lists w ->
  stops_when_fired dl self w -> stops_when_fired dl self w'.
Proof.
  intros H1 H2 H3 [K1 K2 K3 K4]. split.
  - congruence.
  - now rewrite H3.
  - rewrite H3. exact K3.
  - unfold list_called. rewrite H3, H2. exact K4.
Qed.

Lemma swf_stop_reactor (dl self self' : nat) :
  preserves (stops_when_fired dl self) (_stop_reactor self').
Proof.
  intros w [K1 K2 K3 K4]. unfold world_after. rewrite stop_reactor_spec. simpl.
  destruct (_stopped (the_reactor w)) eqn:E; split; auto.
Qed.

Lemma swf_reactor_stop (dl self : nat) :
  preserves (stops_when_fired dl self) reactor.stop.
Proof.
  intros w [K1 K2 K3 K4]. unfold world_after, reactor.stop. run_M.
  destruct (_stopped (the_reactor w)) eqn:E; split; auto.
Qed.

Lemma swf_reactor_run (dl self : nat) :
  preserves (stops_when_fired dl self) reactor.run.
Proof.
  intros w K. unfold world_after, reactor.run. run_M.
  now rewrite (swf_started _ _ _ K).
Qed.

Lemma reactor_goes_on_stop_reactor (a b : bool) (self : nat) :
  preserves (reactor_goes_on a b) (_stop_reactor self).
Proof.
  intros w [H1 H2]. unfold world_after. rewrite stop_reactor_spec. simpl.
  destruct (_stopped (the_reactor w)) eqn:E; split; auto.
Qed.

#[export] Hint Resolve reactor_goes_on_stop_reactor : preserves.

Ltac reactor_untouched :=
  intros; simpl in *; break_matches; solve [ assumption ].

Lemma reactor_goes_on_run_list_callback (a b : bool) (dl : nat) (cb : list_callback) :
  preserves (reactor_goes_on a b)
    (run_callback DeferredList.lookup DeferredList.update DeferredList.run_cb dl cb).
Proof.
  apply preserves_run_callback.
  - intros d D w H. exact H.
  - intros cb' r. preserves_tac reactor_untouched.
Qed.

Lemma run_list_callback_stops (dl self : nat) (w : World) :
  list_called w dl = true ->
  _stopped (the_reactor
              (world_after
                 (run_callback DeferredList.lookup DeferredList.update
                    DeferredList.run_cb dl (CbStopReactor self)) w)) = true.
Proof.
  intros Hc. unfold list_called in Hc.
  destruct (deferred_lists w !! dl) as [L|] eqn:EL; [|discriminate].
  assert (E : ∃ r0 cbs0, DeferredList.lookup dl w = Some (mkDeferred (Some r0) cbs0)).
  { unfold DeferredList.lookup. rewrite EL. simpl. unfold called in Hc.
    destruct (dl_deferred L) as [[r0|] cbs0]; [eauto | discriminate]. }
  destruct E as (r0 & cbs0 & E).
  unfold world_after. rewrite (run_callback_eq _ _ _ dl _ r0 cbs0 w E). simpl.
  unfold mbind, M_bind. rewrite stop_reactor_spec. simpl.
  destruct (_stopped (the_reactor w)) eqn:Est; simpl.
  - rewrite E. exact Est.
  - unfold DeferredList.lookup in *. simpl. rewrite EL. reflexivity.
Qed.

(** The reactor is stopped once the callbacks of a fired list have run,
    when [lambda _: self._stop_reactor()] is among them. *)
Lemma list_callbacks_stop (dl self : nat) (cbs : list list_callback) :
  ∀ w,
    list_called w dl = true ->
    _stopped (the_reactor w) = true ∨ CbStopReactor self ∈ cbs ->
    _stopped (the_reactor
                (world_after
                   (for_each cbs
                      (run_callback DeferredList.lookup DeferredList.update
                         DeferredList.run_cb dl)) w)) = true.
Proof.
  induction cbs as [|cb cbs IH]; intros w Hc Hor; simpl.
  - destruct Hor as [H|H]; [exact H | inversion H].
  - pose proof (run_callback_ok DeferredList.lookup DeferredList.update
                  DeferredList.run_cb dl cb w) as Hok.
    pose proof (run_list_callback_touched dl cb w) as T.
    pose proof (reactor_goes_on_run_list_callback
                  (_started (the_reactor w)) (_stopped (the_reactor w)) dl cb w
                  (conj eq_refl (λ H, H))) as [_ R].
    pose proof (run_list_callback_stops dl) as St.
    unfold outcome_of, world_after, mbind, M_bind in *.
    destruct (run_callback _ _ _ dl cb w) as [[[]|e] w1] eqn:E1; simpl in *; [|discriminate].
    apply IH.
    + unfold list_called in *.
      destruct (deferred_lists w !! dl) as [L|] eqn:EL; [|discriminate].
      destruct (touched_list _ _ _ T L EL) as (L' & -> & _ & _ & C). now apply C.
    + destruct Hor as [H|H]; [left; now apply R|].
      apply elem_of_cons in H as [<-|H]; [left | now right].
      specialize (St self w Hc). now rewrite E1 in St.
Qed.

Lemma reactor_goes_on_list_callback (a b : bool) (dl : nat) (r : outcome) :
  preserves (reactor_goes_on a b) (DeferredList.callback dl r).
Proof.
  unfold DeferredList.callback. apply preserves_callback.
  - intros d D w H. exact H.
  - intros cb' r'. preserves_tac reactor_untouched.
Qed.

Lemma reactor_goes_on_list_addBoth (a b : bool) (dl : nat) (cb : list_callback) :
  preserves (reactor_goes_on a b) (DeferredList.addBoth dl cb).
Proof.
  unfold DeferredList.addBoth. apply preserves_addBoth.
  - intros d D w H. exact H.
  - intros cb' r'. preserves_tac reactor_untouched.
Qed.

Lemma swf_list_callback (dl self dl' : nat) (r : outcome) :
  preserves (stops_when_fired dl self) (DeferredList.callback dl' r).
Proof.
  intros w K. destruct (list_callback_touched dl' r w) as [T Tc].
  pose proof (reactor_goes_on_list_callback
                (_started (the_reactor w)) (_stopped (the_reactor w)) dl' r w
                (conj eq_refl (λ H, H))) as [R1 R2].
  destruct K as [K1 K2 K3 K4].
  split.
  - congruence.
  - now rewrite (touched_length _ _ _ T).
  - destruct (decide (dl' = dl)) as [->|Hne].
    + intros L' HL' Hnc.
      destruct (lookup_lt_is_Some_2 _ _ K2) as [L EL].
      destruct (called (dl_deferred L)) eqn:Ec.
      * destruct (touched_list _ _ _ T L EL) as (L2 & HL2 & _ & _ & C).
        rewrite HL' in HL2. injection HL2 as <-. rewrite C in Hnc by assumption.
        discriminate.
      * specialize (Tc L EL). unfold list_called in Tc. rewrite HL' in Tc. congruence.
    + intros L'. rewrite (touched_others _ _ _ T dl) by auto. apply K3.
  - destruct (decide (dl' = dl)) as [->|Hne].
    + intros _. destruct (lookup_lt_is_Some_2 _ _ K2) as [L EL].
      destruct (called (dl_deferred L)) eqn:Ec.
      * apply R2. apply K4. unfold list_called. now rewrite EL.
      * (* the list at hand fires: its callback stops the reactor *)
        assert (E : DeferredList.lookup dl w = Some (mkDeferred None (callbacks (dl_deferred L)))).
        { unfold DeferredList.lookup. rewrite EL. simpl. unfold called in Ec.
          destruct (dl_deferred L) as [[r0|] cbs]; [discriminate | reflexivity]. }
        unfold world_after, DeferredList.callback.
        rewrite (callback_eq _ _ _ DeferredList_lookup_update DeferredList_update_update
                   dl r _ w E).
        apply list_callbacks_stop with self.
        -- unfold list_called, DeferredList.update. simpl.
           now rewrite list_lookup_alter_eq, EL.
        -- right. now apply (K3 L).
    + unfold list_called. rewrite (touched_others _ _ _ T dl) by auto.
      intros H. apply R2. now apply K4.
Qed.

Lemma swf_list_addBoth (dl self dl' : nat) (cb : list_callback) :
  preserves (stops_when_fired dl self) (DeferredList.addBoth dl' cb).
Proof.
  intros w K. pose proof (list_addBoth_touched dl' cb w) as T.
  pose proof (reactor_goes_on_list_addBoth
                (_started (the_reactor w)) (_stopped (the_reactor w)) dl' cb w
                (conj eq_refl (λ H, H))) as [R1 R2].
  destruct K as [K1 K2 K3 K4].
  destruct (lookup_lt_is_Some_2 _ _ K2) as [L EL].
  split.
  - congruence.
  - now rewrite (touched_length _ _ _ T).
  - destruct (decide (dl' = dl)) as [->|Hne].
    + intros L' HL' Hnc.
      (* pending after, so pending before: the callback was only queued *)
      destruct (called (dl_deferred L)) eqn:Ec.
      * destruct (touched_list _ _ _ T L EL) as (L2 & HL2 & _ & _ & C).
        rewrite HL' in HL2. injection HL2 as <-. rewrite C in Hnc by assumption.
        discriminate.
      * assert (E : DeferredList.lookup dl w = Some (dl_deferred L))
          by (unfold DeferredList.lookup; now rewrite EL).
        unfold world_after, DeferredList.addBoth in HL'.
        rewrite (addBoth_eq _ _ _ DeferredList_lookup_update DeferredList_update_update
                   dl cb _ w E) in HL'.
        unfold called in Ec. destruct (result (dl_deferred L)) eqn:Er; [discriminate|].
        simpl in HL'. rewrite list_lookup_alter_eq, EL in HL'. injection HL' as <-.
        simpl. apply elem_of_app. left. apply (K3 L EL). unfold called. now rewrite Er.
    + intros L'. rewrite (touched_others _ _ _ T dl) by auto. apply K3.
  - destruct (decide (dl' = dl)) as [->|Hne].
    + intros Hc. destruct (called (dl_deferred L)) eqn:Ec.
      * apply R2. apply K4. unfold list_called. now rewrite EL.
      * (* [addBoth] does not fire a pending list *)
        exfalso.
        assert (E : DeferredList.lookup dl w = Some (dl_deferred L))
          by (unfold DeferredList.lookup; now rewrite EL).
        unfold world_after, DeferredList.addBoth, list_called in Hc.
        rewrite (addBoth_eq _ _ _ DeferredList_lookup_update DeferredList_update_update
                   dl cb _ w E) in Hc.
        unfold called in Ec. destruct (result (dl_deferred L)) eqn:Er; [discriminate|].
        simpl in Hc. rewrite list_lookup_alter_eq, EL in Hc. discriminate.
    + unfold list_called. rewrite (touched_others _ _ _ T dl) by auto.
      intros H. apply R2. now apply K4.
Qed.

Lemma swf_cbDeferred (dl self dl' i : nat) (r : outcome) :
  preserves (stops_when_fired dl self) (DeferredList._cbDeferred dl' i r).
Proof.
  intros w K. unfold world_after. rewrite cbDeferred_eq.
  destruct (deferred_lists w !! dl') as [L|] eqn:EL; [|exact K].
  cbv zeta.
  match goal with
  | |- stops_when_fired _ _ (((if ?b then _ else _) ;; _) ?w1).2 =>
      change (stops_when_fired dl self
                (world_after ((if b then DeferredList.callback dl' Value else mret tt) ;; mret r) w1))
  end.
  apply preserves_bind; [|intros _; apply preserves_ret|].
  - match goal with |- preserves _ (if ?b then _ else _) => destruct b end;
      [apply swf_list_callback | apply preserves_ret].
  - (* the new count and result of list [dl'] *)
    destruct K as [K1 K2 K3 K4].
    assert (Hlt : dl' < length (deferred_lists w)) by (eapply lookup_lt_Some; eassumption).
    split; simpl.
    + exact K1.
    + now rewrite length_insert.
    + intros L'. destruct (decide (dl' = dl)) as [->|Hne].
      * rewrite list_lookup_insert_eq by assumption. intros [= <-]. simpl. now apply K3.
      * rewrite list_lookup_insert_ne by assumption. apply K3.
    + unfold list_called in *. simpl. destruct (decide (dl' = dl)) as [->|Hne].
      * rewrite list_lookup_insert_eq by assumption. simpl. now rewrite EL in K4.
      * now rewrite list_lookup_insert_ne.
Qed.

#[export] Hint Resolve swf_stop_reactor swf_reactor_stop swf_reactor_run
  swf_list_callback swf_list_addBoth swf_cbDeferred : preserves.

Ltac swf_untouched :=
  intros; simpl in *; break_matches;
  solve [ assumption
        | eapply swf_ext; [ | | | eassumption ]; reflexivity ].

Lemma swf_DeferredList (dl self : nat) (ds : list nat) :
  preserves (stops_when_fired dl self) (defer.DeferredList ds).
Proof.
  intros w K. unfold world_after. rewrite DeferredList_eq. cbv zeta.
  match goal with
  | |- stops_when_fired _ _ (?m ?w1).2 =>
      change (stops_when_fired dl self (world_after m w1))
  end.
  apply preserves_bind; [|intros _; apply preserves_bind; [|intros _; apply preserves_ret]|].
  - destruct (length ds =? 0); [apply swf_list_callback | apply preserves_ret].
  - apply preserves_for_each. intros [index d]. preserves_tac swf_untouched.
  - destruct K as [K1 K2 K3 K4]. split; simpl.
    + exact K1.
    + rewrite length_app. lia.
    + intros L. rewrite lookup_app_l by assumption. apply K3.
    + unfold list_called in *. simpl. now rewrite lookup_app_l.
Qed.

#[export] Hint Resolve swf_DeferredList : preserves.

Lemma swf_perform (dl self : nat) (op : Operation) :
  preserves (stops_when_fired dl self) (perform op).
Proof. destruct op; simpl; preserves_tac swf_untouched. Qed.

(** Whatever happens next, the list still stops the loop on firing. *)
Lemma swf_history (dl self : nat) (ops : list Operation) :
  preserves (stops_when_fired dl self) (history ops).
Proof. apply preserves_history. intros op. apply swf_perform. Qed.

(** Making a DeferredList fires no Deferred and un-fires none. *)
Lemma cbDeferred_keeps_deferreds (dl i : nat) (r : outcome) :
  keeps deferreds (DeferredList._cbDeferred dl i r).
Proof. apply keeps_intro. intros x. preserves_tac untouched. Qed.

Lemma run_handle_callback_same_called (h : nat) (cb : handle_callback) (w : World) :
  is_called w h = true ->
  ∀ x, is_called (world_after (run_callback defer.lookup defer.update defer.run_cb h cb) w) x
       = is_called w x.
Proof.
  intros Hh x. unfold world_after. unfold is_called in Hh.
  destruct (deferreds w !! h) as [[[r0|] cbs0]|] eqn:E; try discriminate.
  rewrite (run_callback_eq _ _ _ h cb r0 cbs0 w E).
  destruct cb as [dl i]. unfold defer.run_cb.
  pose proof (cbDeferred_keeps_deferreds dl i r0 w) as Hd. unfold world_after in Hd.
  destruct (DeferredList._cbDeferred dl i r0 w) as [res w1]. simpl in *.
  unfold defer.lookup. rewrite Hd, E. unfold is_called, defer.update. simpl. rewrite Hd.
  destruct (decide (h = x)) as [<-|Hne].
  - rewrite list_lookup_insert_eq by (eapply lookup_lt_Some; eassumption). now rewrite E.
  - now rewrite list_lookup_insert_ne.
Qed.

Lemma run_handle_callbacks_same_called (h : nat) (cbs : list handle_callback) :
  ∀ w, is_called w h = true ->
  ∀ x, is_called
         (world_after (for_each cbs (run_callback defer.lookup defer.update defer.run_cb h)) w) x
       = is_called w x.
Proof.
  induction cbs as [|cb cbs IH]; intros w Hh x; simpl; [reflexivity|].
  pose proof (run_handle_callback_same_called h cb w Hh) as H1.
  pose proof (run_callback_ok defer.lookup defer.update defer.run_cb h cb w) as Hok.
  unfold outcome_of, world_after, mbind, M_bind in *.
  destruct (run_callback defer.lookup defer.update defer.run_cb h cb w) as [[[]|e] w1];
    simpl in *; [|discriminate].
  rewrite IH by (now rewrite H1). apply H1.
Qed.

Lemma addBoth_same_called (h : nat) (cb : handle_callback) (w : World) :
  ∀ x, is_called (world_after (defer.addBoth h cb) w) x = is_called w x.
Proof.
  intros x. unfold world_after, defer.addBoth.
  destruct (deferreds w !! h) as [D|] eqn:E.
  - rewrite (addBoth_eq _ _ _ defer_lookup_update defer_update_update h cb D w E).
    assert (Hlt : h < length (deferreds w)) by (eapply lookup_lt_Some; eassumption).
    assert (Hu : ∀ cbs, is_called (defer.update h (mkDeferred (result D) cbs) w) x
                        = is_called w x).
    { intros cbs. unfold is_called, defer.update. simpl.
      destruct (decide (h = x)) as [<-|Hne].
      - rewrite list_lookup_insert_eq by assumption. now rewrite E.
      - now rewrite list_lookup_insert_ne. }
    destruct (result D) as [r|] eqn:Er.
    + etransitivity; [|apply (Hu [])].
      apply (run_handle_callbacks_same_called h).
      unfold is_called, defer.update. simpl. now rewrite list_lookup_insert_eq.
    + apply Hu.
  - unfold addBoth. run_M. unfold defer.lookup. now rewrite E.
Qed.

Lemma DeferredList_same_called (ds : list nat) (w : World) :
  ∀ x, is_called (world_after (defer.DeferredList ds) w) x = is_called w x.
Proof.
  intros x.
  apply (preserves_bind (λ w', is_called w' x = is_called w x)); [apply preserves_get| |reflexivity].
  intros w0.
  apply preserves_bind; [apply preserves_modify; intros; assumption|intros _].
  apply preserves_bind; [|intros _].
  - destruct (length ds =? 0); [|apply preserves_ret].
    intros w1 H1. rewrite <- H1. unfold is_called.
    now rewrite (touched_deferreds _ _ _ (proj1 (list_callback_touched _ Value w1))).
  - apply preserves_bind; [|intros _; apply preserves_ret].
    apply preserves_for_each. intros [index d] w1 H1. now rewrite addBoth_same_called.
Qed.

Lemma list_called_lookup (w : World) (dl : nat) :
  default false (called <$> DeferredList.lookup dl w) = list_called w dl.
Proof.
  unfold DeferredList.lookup, list_called. now destruct (deferred_lists w !! dl).
Qed.

Lemma count_forallb {A} (f : A -> bool) (l : list A) :
  forallb f l = true ↔ ∀ x, x ∈ l -> f x = true.
Proof.
  rewrite forallb_forall. split; intros H x Hx; apply H; now apply list_elem_of_In.
Qed.

Lemma DeferredList_keeps_loop_setup (ds : list nat) :
  keeps loop_setup (defer.DeferredList ds).
Proof. apply keeps_intro. intros x. unfold loop_setup. preserves_tac untouched. Qed.

Lemma start_reactor_eq (self : nat) (p : ProcessObj) (w : World) :
  process_objs w !! self = Some p ->
  CrawlerProcess._start_reactor self true w =
    match defer.DeferredList (elements (crawl_deferreds p)) w with
    | (Ok d, w1) =>
        if list_called w1 d then (Ok true, w1)
        else enter_loop self (runner_settings p) d w1
    | (Raise e, w1) => (Raise e, w1)
    end.
Proof.
  intros Hp.
  unfold CrawlerProcess._start_reactor, enter_loop, get_process.
  unfold mbind, M_bind, mret, M_ret, get. rewrite Hp.
  destruct (defer.DeferredList (elements (crawl_deferreds p)) w) as [[d|e] w1];
    [|reflexivity].
  rewrite list_called_lookup.
  destruct (list_called w1 d); [reflexivity|].
  destruct (DeferredList.addBoth d (CbStopReactor self) w1) as [[[]|e] w2]; reflexivity.
Qed.

Lemma enter_loop_joined (dl : nat) (hs : list nat) (n : nat) (self settings d : nat) :
  preserves (joined dl hs n 0) (enter_loop self settings d).
Proof. preserves_tac joined_untouched. Qed.

Lemma enter_loop_spec (self settings d : nat) (s : SettingsObj) (L : ListObj) (w : World) :
  deferred_lists w !! d = Some L ->
  called (dl_deferred L) = false ->
  settings_objs w !! settings = Some s ->
  _started (the_reactor w) = false ->
  let w1 := world_after (enter_loop self settings d) w in
  outcome_of (enter_loop self settings d) w = Ok false
  ∧ _started (the_reactor w1) = true
  ∧ _stopped (the_reactor w1) = false
  ∧ before_shutdown (the_reactor w1) = before_shutdown (the_reactor w) ++ [runner_stop self]
  ∧ list_called w1 d = false
  ∧ stops_when_fired d self w1.
Proof.
  intros HL Hc Hs Hst w1.
  assert (E : DeferredList.lookup d w = Some (dl_deferred L))
    by (unfold DeferredList.lookup; now rewrite HL).
  assert (Hr : result (dl_deferred L) = None)
    by (unfold called in Hc; destruct (result (dl_deferred L)); [discriminate | reflexivity]).
  assert (Hlt : d < length (deferred_lists w)) by (eapply lookup_lt_Some; eassumption).
  assert (K : ∃ W, enter_loop self settings d w = (Ok false, W)
                ∧ _started (the_reactor W) = true
                ∧ _stopped (the_reactor W) = false
                ∧ before_shutdown (the_reactor W)
                  = before_shutdown (the_reactor w) ++ [runner_stop self]
                ∧ deferred_lists W
                  = alter (λ L0, mkListObj
                             (mkDeferred None (callbacks (dl_deferred L) ++ [CbStopReactor self]))
                             (resultList L0) (finishedCount L0)) d (deferred_lists w)).
  { unfold enter_loop. unfold mbind, M_bind. unfold DeferredList.addBoth.
    rewrite (addBoth_eq _ _ _ DeferredList_lookup_update DeferredList_update_update
               d _ _ w E).
    rewrite Hr.
    unfold Settings.getbool, Settings.get_, Settings.lookup, reactor.installResolver,
      reactor.addSystemEventTrigger, reactor.run, DeferredList.update.
    run_M. rewrite Hs. simpl.
    destruct (match attributes s !! "DNSCACHE_ENABLED" with
              | Some v => negb (v =? 0)%Z
              | None => false
              end); simpl; rewrite Hst; simpl.
    all: eexists; split; [reflexivity|]; simpl; auto. }
  destruct K as (W & HW & K1 & K2 & K3 & K4).
  unfold w1, outcome_of, world_after. rewrite HW. simpl.
  assert (Hnc : list_called W d = false).
  { unfold list_called. rewrite K4, list_lookup_alter_eq, HL. reflexivity. }
  split; [reflexivity|]. split; [exact K1|]. split; [exact K2|]. split; [exact K3|].
  split; [exact Hnc|].
  split.
  - exact K1.
  - rewrite K4, length_alter. exact Hlt.
  - intros L'. rewrite K4, list_lookup_alter_eq, HL. simpl. intros [= <-] _. simpl.
    apply elem_of_app. right. apply list_elem_of_here.
  - rewrite Hnc. discriminate.
Qed.

Lemma DeferredList_keeps_settings_objs (ds : list nat) :
  keeps settings_objs (defer.DeferredList ds).
Proof. apply keeps_intro. intros x. preserves_tac untouched. Qed.

(** C3: in a well-formed world (and every world reached from a fresh one
    is well-formed), [_start_reactor(stop_after_crawl=True)] makes a DeferredList over
    the Deferreds in [crawl_deferreds] at the time of the call, and whatever
    happens later (crawls submitted afterwards included) that list has fired
    exactly when those Deferreds all have.  If they have all fired already,
    in particular when there is none, the call returns at once and the
    reactor is neither set up nor started.  Otherwise the reactor is started,
    and as soon as the Deferreds of the snapshot have all fired it has been
    asked to stop. *)
Theorem start_reactor_stop_after_crawl (self : nat) (p : ProcessObj) (w : World) :
  process_objs w !! self = Some p ->
  well_formed w ->
  let dl := length (deferred_lists w) in
  let run := CrawlerProcess._start_reactor self true in
  let w1 := world_after run w in
  (∀ ops, let w2 := world_after (history ops) w1 in
     list_called w2 dl = true ↔ ∀ h, h ∈ crawl_deferreds p -> is_called w2 h = true)
  ∧ ((∀ h, h ∈ crawl_deferreds p -> is_called w h = true) ->
     outcome_of run w = Ok true
     ∧ w1 = world_after (defer.DeferredList (elements (crawl_deferreds p))) w
     ∧ loop_setup w1 = loop_setup w)
  ∧ (crawl_deferreds p = ∅ -> outcome_of run w = Ok true ∧ loop_setup w1 = loop_setup w)
  ∧ (∀ h s, h ∈ crawl_deferreds p -> is_called w h = false ->
       settings_objs w !! runner_settings p = Some s ->
       _started (the_reactor w) = false ->
       outcome_of run w = Ok false
       ∧ _started (the_reactor w1) = true
       ∧ _stopped (the_reactor w1) = false
       ∧ before_shutdown (the_reactor w1)
         = before_shutdown (the_reactor w) ++ [runner_stop self]
       ∧ list_called w1 dl = false
       ∧ ∀ ops, let w2 := world_after (history ops) w1 in
           (∀ h', h' ∈ crawl_deferreds p -> is_called w2 h' = true) ->
           _stopped (the_reactor w2) = true).
Proof.
  intros Hp [Hwf Hwt] dl run w1.
  assert (Hhs : ∀ h, h ∈ crawl_deferreds p -> h < length (deferreds w))
    by (intros h; now apply (Hwt self p)).
  set (hs := elements (crawl_deferreds p)).
  assert (Hin : ∀ h, h ∈ hs ↔ h ∈ crawl_deferreds p) by (intros h; apply elem_of_elements).
  assert (Hall : Forall (λ h, h < length (deferreds w)) hs).
  { apply Forall_forall. intros h Hh. apply Hhs. now apply Hin. }
  destruct (DeferredList_joined hs w Hwf Hall) as [Hout J]. fold dl in Hout, J.
  pose proof (DeferredList_same_called hs w) as Hsame.
  pose proof (DeferredList_keeps_loop_setup hs w) as Hsetup.
  pose proof (DeferredList_keeps_settings_objs hs w) as Hset.
  pose proof (start_reactor_eq self p w Hp) as Heq. fold hs in Heq.
  unfold outcome_of, world_after in Hout, J, Hsame, Hsetup, Hset.
  destruct (defer.DeferredList hs w) as [[d|e] wd] eqn:Ed; simpl in *; [|discriminate].
  injection Hout as ->.
  assert (Hfired : list_called wd dl = true ↔ ∀ h, h ∈ crawl_deferreds p -> is_called w h = true).
  { rewrite (joined_iff dl hs wd J). split; intros H h Hh.
    - rewrite <- Hsame. apply H. now apply Hin.
    - rewrite Hsame. apply H. now apply Hin. }
  assert (Hj1 : joined dl hs (length hs) 0 w1).
  { unfold w1, world_after, run. rewrite Heq.
    destruct (list_called wd dl); [exact J|].
    now apply (enter_loop_joined dl hs (length hs) self (runner_settings p) dl wd). }
  assert (Hnow : (∀ h, h ∈ crawl_deferreds p -> is_called w h = true) ->
                 outcome_of run w = Ok true ∧ w1 = wd ∧ loop_setup w1 = loop_setup w).
  { intros H. apply Hfired in H. unfold w1, outcome_of, world_after, run. rewrite Heq, H.
    simpl. auto. }
  split; [|split; [|split]].
  - intros ops.
    etransitivity;
      [exact (joined_iff dl hs _ (joined_history dl hs (length hs) ops w1 Hj1))|].
    split; intros H h Hh; apply H; now apply Hin.
  - intros H. destruct (Hnow H) as (H1 & H2 & H3).
    split; [exact H1|]. split; [|exact H3].
    rewrite H2. unfold world_after. now rewrite Ed.
  - intros He. destruct Hnow as (H1 & _ & H2); [|now split].
    intros h Hh. rewrite He in Hh. now apply not_elem_of_empty in Hh.
  - intros h s Hh Hnc Hs Hst.
    assert (Hpend : list_called wd dl = false).
    { destruct (list_called wd dl) eqn:E; [|reflexivity].
      rewrite (proj1 Hfired eq_refl h Hh) in Hnc. discriminate. }
    destruct J as [(L & HL & _ & _ & HcL) J2 J3 J4].
    assert (Hc : called (dl_deferred L) = false).
    { unfold list_called in Hpend. now rewrite HL in Hpend. }
    assert (Hst' : _started (the_reactor wd) = false).
    { unfold loop_setup in Hsetup. injection Hsetup as -> _ _ _. exact Hst. }
    assert (Hs' : settings_objs wd !! runner_settings p = Some s) by (now rewrite Hset).
    destruct (enter_loop_spec self (runner_settings p) dl s L wd HL Hc Hs' Hst')
      as (K1 & K2 & K3 & K4 & K5 & K6).
    assert (Hw1 : w1 = world_after (enter_loop self (runner_settings p) dl) wd).
    { unfold w1, world_after, run. now rewrite Heq, Hpend. }
    split; [|split; [|split; [|split; [|split]]]].
    + unfold outcome_of, run. rewrite Heq, Hpend. exact K1.
    + now rewrite Hw1.
    + now rewrite Hw1.
    + rewrite Hw1, K4. unfold loop_setup in Hsetup. now injection Hsetup as _ -> _ _.
    + now rewrite Hw1.
    + intros ops H.
      rewrite <- Hw1 in K6.
      apply (swf_fired _ _ _ (swf_history dl self ops w1 K6)).
      apply (joined_iff dl hs _ (joined_history dl hs (length hs) ops w1 Hj1)).
      intros h' Hh'. apply H. now apply Hin.
Qed.

(** ** The sets of a runner only grow *)

Lemma tracks_ext (self : nat) (cs ds : gset nat) (w w' : World) :
  process_objs w' = process_objs w -> tracks self cs ds w -> tracks self cs ds w'.
Proof. intros H (p & H1 & H2). exists p. now rewrite H. Qed.

Lemma tracks_alter (self self' : nat) (cs ds : gset nat) (f : ProcessObj -> ProcessObj) :
  (∀ p, crawlers p ⊆ crawlers (f p) ∧ crawl_deferreds p ⊆ crawl_deferreds (f p)) ->
  preserves (tracks self cs ds) (update_process self' f).
Proof.
  intros Hf w (p & H1 & H2 & H3). unfold world_after, update_process. run_M.
  destruct (decide (self' = self)) as [->|Hne].
  - exists (f p). simpl. rewrite list_lookup_alter_eq, H1. destruct (Hf p) as [F1 F2].
    split; [reflexivity|]. split; etransitivity; eassumption.
  - exists p. simpl. now rewrite list_lookup_alter_ne.
Qed.

Lemma tracks_add_crawler (self self' c : nat) (cs ds : gset nat) :
  preserves (tracks self cs ds) (update_process self' (add_crawler c)).
Proof. apply tracks_alter. intros p. simpl. split; set_solver. Qed.

Lemma tracks_add_crawl_deferred (self self' d : nat) (cs ds : gset nat) :
  preserves (tracks self cs ds) (update_process self' (add_crawl_deferred d)).
Proof. apply tracks_alter. intros p. simpl. split; set_solver. Qed.

Lemma tracks_set_stopping (self self' : nat) (b : bool) (cs ds : gset nat) :
  preserves (tracks self cs ds) (update_process self' (set_stopping b)).
Proof. apply tracks_alter. intros p. simpl. split; set_solver. Qed.

Ltac tracks_untouched :=
  intros; simpl in *; break_matches;
  solve [ assumption | eapply tracks_ext; [ | eassumption ]; reflexivity ].

Lemma tracks_runner_init (self settings : nat) (cs ds : gset nat) :
  preserves (tracks self cs ds) (CrawlerRunner.__init__ settings).
Proof.
  intros w (p & H1 & H2). unfold world_after.
  assert (K : ∃ l, process_objs (CrawlerRunner.__init__ settings w).2 = process_objs w ++ l).
  { destruct (settings_objs w !! settings) as [s|] eqn:Hs.
    - rewrite (runner_init_spec settings s w Hs). simpl. eexists. reflexivity.
    - exists []. rewrite app_nil_r. unfold CrawlerRunner.__init__.
      unfold mbind at 1. unfold M_bind. rewrite frozencopy_spec, Hs. reflexivity. }
  destruct K as [l K]. exists p. rewrite K. split; [|exact H2].
  apply lookup_app_l_Some. exact H1.
Qed.

#[export] Hint Resolve tracks_add_crawler tracks_add_crawl_deferred tracks_set_stopping
  tracks_runner_init : preserves.

Lemma tracks_perform (self : nat) (cs ds : gset nat) (op : Operation) :
  preserves (tracks self cs ds) (perform op).
Proof. destruct op; simpl; preserves_tac tracks_untouched. Qed.

Lemma tracks_history (self : nat) (cs ds : gset nat) (ops : list Operation) :
  preserves (tracks self cs ds) (history ops).
Proof. apply preserves_history. intros op. apply tracks_perform. Qed.

Lemma start_reactor_keeps_process_objs (self : nat) (b : bool) :
  keeps process_objs (CrawlerProcess._start_reactor self b).
Proof. apply keeps_intro. intros x. preserves_tac untouched. Qed.

Lemma signal_shutdown_keeps_process_objs (self : nat) (signum : Z) :
  keeps process_objs (CrawlerProcess._signal_shutdown self signum).
Proof. apply keeps_intro. intros x. preserves_tac untouched. Qed.

Lemma signal_kill_keeps_process_objs (self : nat) (signum : Z) :
  keeps process_objs (CrawlerProcess._signal_kill self signum).
Proof. apply keeps_intro. intros x. preserves_tac untouched. Qed.

Lemma thread_call_keeps_process_objs : keeps process_objs run_thread_call.
Proof. apply keeps_intro. intros x. preserves_tac untouched. Qed.

Lemma runner_crawl_tracked (self : nat) (ref : SpiderRef) (args : Args) (w w' : World)
    (p : ProcessObj) (d : nat) :
  process_objs w !! self = Some p ->
  CrawlerRunner.crawl self ref args w = (Ok d, w') ->
  process_objs w' !! self
  = Some (add_crawl_deferred d (add_crawler (length (crawler_objs w)) p)).
Proof.
  intros Hp H.
  destruct (runner_crawl_ok_inv self ref args w w' d H) as (p' & s & cls & H1 & H2 & H3 & H4).
  assert (p' = p) as -> by congruence.
  rewrite (runner_crawl_spec self ref args w p s cls H1 H2 H3 H4) in H.
  pose proof (crawl_keeps_process_objs (length (crawler_objs w)) args (submitted self p s cls w))
    as Hk.
  unfold world_after in Hk.
  destruct (Crawler.crawl (length (crawler_objs w)) args (submitted self p s cls w))
    as [[d'|e] w1]; [|discriminate].
  injection H as -> <-. simpl in *.
  rewrite list_lookup_alter_eq, Hk, list_lookup_alter_eq, Hp. reflexivity.
Qed.

(** C10: the sets [crawlers] and [crawl_deferreds] of a runner only grow.
    A [crawl] that returns has added the new crawler to the one and the
    Deferred of its crawl to the other; [stop], [_start_reactor], the two
    signal handlers and the calls they leave to the loop change no runner at
    all; and after any history the runner still tracks every crawler and
    every Deferred it tracked before, so that [stop] then stops at least
    those crawlers and [_start_reactor] waits for at least those
    Deferreds. *)
Theorem tracked_sets_only_grow (self : nat) (p : ProcessObj) (w : World) :
  process_objs w !! self = Some p ->
  (∀ ref args d w',
     CrawlerRunner.crawl self ref args w = (Ok d, w') ->
     ∃ p', process_objs w' !! self = Some p'
           ∧ crawlers p' = {[length (crawler_objs w)]} ∪ crawlers p
           ∧ crawl_deferreds p' = {[d]} ∪ crawl_deferreds p)
  ∧ process_objs (world_after (CrawlerRunner.stop self) w) = process_objs w
  ∧ (∀ b, process_objs (world_after (CrawlerProcess._start_reactor self b) w) = process_objs w)
  ∧ (∀ signum,
       process_objs (world_after (CrawlerProcess._signal_shutdown self signum) w) = process_objs w
       ∧ process_objs (world_after (CrawlerProcess._signal_kill self signum) w) = process_objs w)
  ∧ process_objs (world_after run_thread_call w) = process_objs w
  ∧ (∀ ops, let w' := world_after (history ops) w in
       ∃ p', process_objs w' !! self = Some p'
             ∧ crawlers p ⊆ crawlers p'
             ∧ crawl_deferreds p ⊆ crawl_deferreds p'
             ∧ CrawlerRunner.stop self w'
               = (ds ← map_M Crawler.stop (elements (crawlers p')); defer.DeferredList ds) w'
             ∧ CrawlerProcess._start_reactor self true w'
               = match defer.DeferredList (elements (crawl_deferreds p')) w' with
                 | (Ok d, w1) =>
                     if list_called w1 d then (Ok true, w1)
                     else enter_loop self (runner_settings p') d w1
                 | (Raise e, w1) => (Raise e, w1)
                 end).
Proof.
  intros Hp. split; [|split; [|split; [|split; [|split]]]].
  - intros ref args d w' H.
    eexists. split; [exact (runner_crawl_tracked self ref args w w' p d Hp H)|].
    split; reflexivity.
  - apply runner_stop_keeps_process_objs.
  - intros b. apply start_reactor_keeps_process_objs.
  - intros signum. split.
    + apply signal_shutdown_keeps_process_objs.
    + apply signal_kill_keeps_process_objs.
  - apply thread_call_keeps_process_objs.
  - intros ops w'.
    assert (T : tracks self (crawlers p) (crawl_deferreds p) w) by (exists p; auto).
    apply (tracks_history self _ _ ops) in T. fold w' in T.
    destruct T as (p' & H1 & H2 & H3). exists p'.
    split; [exact H1|]. split; [exact H2|]. split; [exact H3|]. split.
    + unfold CrawlerRunner.stop, get_process, mbind, M_bind, get.
      now rewrite H1.
    + exact (start_reactor_eq self p' w' H1).
Qed.

(** ** Well-formed worlds *)

Lemma fresh_well_formed (w : World) : fresh w -> well_formed w.
Proof.
  intros [Hp Hd]. split.
  - intros h D. rewrite Hd. intros H. now rewrite lookup_nil in H.
  - intros self p h. rewrite Hp. intros H. now rewrite lookup_nil in H.
Qed.

Lemma well_formed_ext (w w' : World) :
  deferreds w' = deferreds w ->
  length (deferred_lists w) ≤ length (deferred_lists w') ->
  process_objs w' = process_objs w ->
  well_formed w -> well_formed w'.
Proof.
  intros Hd Hl Hp [N T]. split.
  - intros h D. rewrite Hd. intros H. specialize (N h D H).
    eapply Forall_impl; [exact N|]. intros [dl i] Hlt. simpl in *. lia.
  - intros self p h. rewrite Hp, Hd. apply T.
Qed.

(** A predicate that an update of a Deferred respects when the callbacks
    it leaves were there before. *)
Section shrinking.
Context {C : Type} (P : World -> Prop).
Variable lookup_d : nat -> World -> option (Deferred C).
Variable update_d : nat -> Deferred C -> World -> World.
Variable run_cb : C -> outcome -> M outcome.
Hypothesis P_shrink :
  ∀ d D D0 w, P w -> lookup_d d w = Some D0 -> callbacks D ⊆ callbacks D0 ->
              P (update_d d D w).
Hypothesis P_run : ∀ cb r, preserves P (run_cb cb r).

Lemma shrinking_run_callback (d : nat) (cb : C) :
  preserves P (run_callback lookup_d update_d run_cb d cb).
Proof.
  intros w H. unfold world_after, run_callback. run_M.
  destruct (lookup_d d w) as [[[r|] cbs]|] eqn:E; simpl; try exact H.
  pose proof (P_run cb r w H) as H1. unfold world_after in H1.
  destruct (run_cb cb r w) as [[r'|e] w1]; simpl in *.
  all: destruct (lookup_d d w1) as [D|] eqn:E1; [|exact H1].
  all: eapply P_shrink; [exact H1 | exact E1 | reflexivity].
Qed.

Lemma shrinking_runCallbacks (d : nat) :
  preserves P (_runCallbacks lookup_d update_d run_cb d).
Proof.
  intros w H. unfold world_after, _runCallbacks.
  unfold mbind at 1. unfold M_bind at 1. unfold get.
  destruct (lookup_d d w) as [D|] eqn:E; [|exact H].
  unfold mbind, M_bind, modify.
  apply (preserves_for_each P (callbacks D) _ (shrinking_run_callback d)).
  eapply P_shrink; [exact H | exact E | simpl; apply list_subseteq_nil].
Qed.

Lemma shrinking_callback (d : nat) (r : outcome) :
  preserves P (callback lookup_d update_d run_cb d r).
Proof.
  intros w H. unfold world_after, callback.
  unfold mbind at 1. unfold M_bind at 1. unfold get.
  destruct (lookup_d d w) as [D|] eqn:E; [|exact H].
  destruct (called D); [exact H|].
  unfold mbind, M_bind, modify.
  apply shrinking_runCallbacks.
  eapply P_shrink; [exact H | exact E | reflexivity].
Qed.

Lemma growing_addBoth (d : nat) (cb : C) :
  (∀ D0 w, P w -> lookup_d d w = Some D0 ->
           P (update_d d (mkDeferred (result D0) (callbacks D0 ++ [cb])) w)) ->
  preserves P (addBoth lookup_d update_d run_cb d cb).
Proof.
  intros Hgrow w H. unfold world_after, addBoth.
  unfold mbind at 1. unfold M_bind at 1. unfold get.
  destruct (lookup_d d w) as [D|] eqn:E; [|exact H].
  unfold mbind, M_bind, modify.
  destruct (called D); [apply shrinking_runCallbacks|]; now apply Hgrow.
Qed.
End shrinking.

Lemma well_formed_upto_ext (n : nat) (w w' : World) :
  deferreds w' = deferreds w ->
  length (deferred_lists w) ≤ length (deferred_lists w') ->
  process_objs w' = process_objs w ->
  well_formed_upto n w -> well_formed_upto n w'.
Proof.
  intros Hd Hl Hp [H1 H2]. split; [now apply well_formed_ext with w | lia].
Qed.

Lemma list_callback_keeps_process_objs (dl : nat) (r : outcome) :
  keeps process_objs (DeferredList.callback dl r).
Proof. apply keeps_intro. intros x. preserves_tac untouched. Qed.

Lemma well_formed_upto_list_callback (n dl : nat) (r : outcome) :
  preserves (well_formed_upto n) (DeferredList.callback dl r).
Proof.
  intros w H. destruct (list_callback_touched dl r w) as [[T1 T2 _ _] _].
  apply well_formed_upto_ext with w; auto.
  - lia.
  - apply list_callback_keeps_process_objs.
Qed.

Lemma well_formed_upto_cbDeferred (n dl i : nat) (r : outcome) :
  preserves (well_formed_upto n) (DeferredList._cbDeferred dl i r).
Proof.
  intros w H. unfold world_after. rewrite cbDeferred_eq.
  destruct (deferred_lists w !! dl) as [L|] eqn:EL; [|exact H].
  cbv zeta.
  match goal with
  | |- well_formed_upto _ (?m ?w1).2 => change (well_formed_upto n (world_after m w1))
  end.
  apply preserves_bind; [|intros _; apply preserves_ret|].
  - match goal with |- preserves _ (if ?b then _ else _) => destruct b end;
      [apply well_formed_upto_list_callback | apply preserves_ret].
  - apply well_formed_upto_ext with w; simpl; auto. now rewrite length_insert.
Qed.

Lemma well_formed_upto_shrink (n d : nat) (D D0 : Deferred handle_callback) (w : World) :
  well_formed_upto n w -> defer.lookup d w = Some D0 -> callbacks D ⊆ callbacks D0 ->
  well_formed_upto n (defer.update d D w).
Proof.
  unfold defer.lookup. intros [[N T] Hn] E Hsub. split; [split|exact Hn].
  - intros h D'. simpl. intros H.
    destruct (decide (h = d)) as [->|Hne].
    + rewrite list_lookup_insert_eq in H by (eapply lookup_lt_Some; eassumption).
      injection H as <-. specialize (N d D0 E).
      rewrite Forall_forall in N. apply Forall_forall. intros cb Hcb. apply N. now apply Hsub.
    + rewrite list_lookup_insert_ne in H by congruence. now apply (N h).
  - intros self p h. simpl. rewrite length_insert. apply T.
Qed.

Lemma well_formed_upto_run_cb (n : nat) (cb : handle_callback) (r : outcome) :
  preserves (well_formed_upto n) (defer.run_cb cb r).
Proof. destruct cb as [dl i]. apply well_formed_upto_cbDeferred. Qed.

Lemma well_formed_upto_callback (n d : nat) (r : outcome) :
  preserves (well_formed_upto n) (defer.callback d r).
Proof.
  apply shrinking_callback.
  - intros. now apply well_formed_upto_shrink with D0.
  - apply well_formed_upto_run_cb.
Qed.

Lemma well_formed_upto_addBoth (n d dl i : nat) :
  dl < n -> preserves (well_formed_upto n) (defer.addBoth d (CbDeferred dl i)).
Proof.
  intros Hdl. apply growing_addBoth.
  - intros. now apply well_formed_upto_shrink with D0.
  - apply well_formed_upto_run_cb.
  - unfold defer.lookup. intros D0 w [[N T] Hn] E. split; [split|exact Hn].
    + intros h D'. simpl. intros H.
      destruct (decide (h = d)) as [->|Hne].
      * rewrite list_lookup_insert_eq in H by (eapply lookup_lt_Some; eassumption).
        injection H as <-. simpl. apply Forall_app. split; [now apply (N d)|].
        constructor; [lia | constructor].
      * rewrite list_lookup_insert_ne in H by congruence. now apply (N h).
    + intros self p h. simpl. rewrite length_insert. apply T.
Qed.

Lemma well_formed_upto_0 (w : World) : well_formed w ↔ well_formed_upto 0 w.
Proof. unfold well_formed_upto. split; [intros H; split; [exact H | lia] | now intros [H _]]. Qed.

Lemma well_formed_callback (d : nat) (r : outcome) :
  preserves well_formed (defer.callback d r).
Proof.
  intros w H. apply well_formed_upto_0. apply well_formed_upto_callback.
  now apply well_formed_upto_0.
Qed.

Lemma well_formed_new : preserves well_formed defer.new.
Proof.
  intros w [N T]. unfold world_after. rewrite defer_new_spec. simpl. split.
  - intros h D. simpl. intros H.
    apply lookup_snoc_Some in H as [[_ H] | [_ <-]]; [now apply (N h) | constructor].
  - intros self p h. simpl. rewrite length_app. simpl. intros Hp Hh.
    specialize (T self p h Hp Hh). lia.
Qed.

Lemma well_formed_DeferredList (ds : list nat) :
  preserves well_formed (defer.DeferredList ds).
Proof.
  intros w H. unfold world_after. rewrite DeferredList_eq. cbv zeta.
  set (self := length (deferred_lists w)).
  match goal with
  | |- well_formed (?m ?w1).2 =>
      assert (K : well_formed_upto (S self) (world_after m w1)); [|apply K]
  end.
  apply preserves_bind; [|intros _; apply preserves_bind; [|intros _; apply preserves_ret]|].
  - destruct (length ds =? 0); [apply well_formed_upto_list_callback | apply preserves_ret].
  - apply preserves_for_each. intros [index d]. apply well_formed_upto_addBoth. lia.
  - split.
    + apply well_formed_ext with w; simpl; auto. rewrite length_app. lia.
    + simpl. rewrite length_app. simpl. unfold self. lia.
Qed.

Lemma well_formed_cbDeferred (dl i : nat) (r : outcome) :
  preserves well_formed (DeferredList._cbDeferred dl i r).
Proof.
  intros w H. apply well_formed_upto_0. apply well_formed_upto_cbDeferred.
  now apply well_formed_upto_0.
Qed.

Lemma well_formed_update_process (self : nat) (f : ProcessObj -> ProcessObj) :
  (∀ p, crawl_deferreds (f p) = crawl_deferreds p) ->
  preserves well_formed (update_process self f).
Proof.
  intros Hf w [N T]. split; [exact N|].
  intros self' p h. unfold world_after, update_process. run_M.
  destruct (decide (self' = self)) as [->|Hne].
  - rewrite list_lookup_alter_eq.
    destruct (process_objs w !! self) as [p0|] eqn:E; [|discriminate].
    intros [= <-]. rewrite Hf. now apply (T self).
  - rewrite list_lookup_alter_ne by congruence. apply T.
Qed.

Lemma well_formed_add_crawler (self c : nat) :
  preserves well_formed (update_process self (add_crawler c)).
Proof. now apply well_formed_update_process. Qed.

Lemma well_formed_set_stopping (self : nat) (b : bool) :
  preserves well_formed (update_process self (set_stopping b)).
Proof. now apply well_formed_update_process. Qed.

Lemma well_formed_runner_init (settings : nat) :
  preserves well_formed (CrawlerRunner.__init__ settings).
Proof.
  intros w [N T]. unfold world_after.
  destruct (settings_objs w !! settings) as [s|] eqn:Hs.
  - rewrite (runner_init_spec settings s w Hs). simpl. split; [exact N|].
    intros self p h. simpl. intros Hp.
    apply lookup_snoc_Some in Hp as [[_ Hp] | [_ <-]]; [now apply (T self)|].
    simpl. intros Hh. now apply not_elem_of_empty in Hh.
  - unfold CrawlerRunner.__init__. unfold mbind at 1. unfold M_bind.
    rewrite frozencopy_spec, Hs. now split.
Qed.

Ltac well_formed_untouched :=
  intros; simpl in *; break_matches;
  solve [ assumption
        | eapply well_formed_ext; [ | | | eassumption ];
          simpl; rewrite ?length_alter, ?length_insert; reflexivity ].

#[export] Hint Resolve well_formed_callback well_formed_new well_formed_DeferredList
  well_formed_cbDeferred well_formed_add_crawler well_formed_set_stopping
  well_formed_runner_init : preserves.

Lemma well_formed_crawler_crawl (self : nat) (args : Args) :
  preserves well_formed (Crawler.crawl self args).
Proof. preserves_tac well_formed_untouched. Qed.

Lemma handles_upto_new (m : nat) : preserves (handles_upto m) defer.new.
Proof.
  intros w H. unfold world_after, handles_upto in *. rewrite defer_new_spec. simpl.
  rewrite length_app. lia.
Qed.

#[export] Hint Resolve handles_upto_new : preserves.

Ltac handles_untouched :=
  intros; unfold handles_upto in *; simpl in *; break_matches; simpl in *;
  rewrite ?length_insert, ?length_alter; solve [assumption | lia].

(** A function under [inlineCallbacks] returns the Deferred it has made. *)
Lemma crawl_gives_new_handle (self : nat) (args : Args) (w w' : World) (d : nat) :
  Crawler.crawl self args w = (Ok d, w') ->
  d = length (deferreds w) ∧ d < length (deferreds w').
Proof.
  unfold Crawler.crawl, defer.inlineCallbacks.
  unfold mbind at 1. unfold M_bind at 1. rewrite defer_new_spec.
  set (w1 := with_deferreds (deferreds w ++ [mkDeferred None []]) w).
  set (h := length (deferreds w)).
  assert (H1 : handles_upto (S h) w1).
  { unfold handles_upto, w1, h. simpl. rewrite length_app. simpl. lia. }
  assert (K : preserves (handles_upto (S h))
                (defer._inlineCallbacks h (Crawler.crawl_generator self args h)))
    by preserves_tac handles_untouched.
  specialize (K w1 H1). unfold world_after in K.
  unfold mbind, M_bind.
  destruct (defer._inlineCallbacks h (Crawler.crawl_generator self args h) w1)
    as [[[]|e] w2]; simpl in *; [|discriminate].
  intros [= <- <-]. split; [reflexivity|]. unfold handles_upto in K. lia.
Qed.

Lemma well_formed_runner_crawl (self : nat) (ref : SpiderRef) (args : Args) :
  preserves well_formed (CrawlerRunner.crawl self ref args).
Proof.
  unfold CrawlerRunner.crawl.
  apply preserves_bind; [preserves_tac well_formed_untouched | intros crawler].
  apply preserves_bind; [apply well_formed_add_crawler | intros _].
  apply preserves_bind; [preserves_tac well_formed_untouched | intros _].
  apply preserves_bind; [preserves_tac well_formed_untouched | intros _].
  intros w H. pose proof (well_formed_crawler_crawl crawler args w H) as H1.
  unfold world_after in *. unfold mbind at 1. unfold M_bind at 1.
  destruct (Crawler.crawl crawler args w) as [[d|e] w1] eqn:E; simpl in *; [|exact H1].
  destruct (crawl_gives_new_handle crawler args w w1 d E) as [_ Hd].
  unfold update_process. run_M. destruct H1 as [N T]. split; [exact N|].
  intros self' p h. simpl.
  destruct (decide (self' = self)) as [->|Hne].
  - rewrite list_lookup_alter_eq.
    destruct (process_objs w1 !! self) as [p0|] eqn:Ep; [|discriminate].
    intros [= <-]. simpl. intros Hh. apply elem_of_union in Hh as [Hh|Hh].
    + apply elem_of_singleton in Hh. now subst h.
    + now apply (T self p0).
  - rewrite list_lookup_alter_ne by congruence. apply T.
Qed.

#[export] Hint Resolve well_formed_runner_crawl : preserves.

Lemma well_formed_perform (op : Operation) : preserves well_formed (perform op).
Proof. destruct op; simpl; preserves_tac well_formed_untouched. Qed.

(** Every world that a program reaches from a fresh one is well-formed. *)
Lemma well_formed_history (ops : list Operation) : preserves well_formed (history ops).
Proof. apply preserves_history. intros op. apply well_formed_perform. Qed.

Lemma reachable_well_formed (w : World) (ops : list Operation) :
  fresh w -> well_formed (world_after (history ops) w).
Proof. intros H. apply well_formed_history. now apply fresh_well_formed. Qed.

(** ** A generator taken up by the engine *)

Lemma list_callback_ok (dl : nat) (r : outcome) (L : ListObj) (w : World) :
  deferred_lists w !! dl = Some L -> called (dl_deferred L) = false ->
  outcome_of (DeferredList.callback dl r) w = Ok tt.
Proof.
  intros HL Hc. unfold outcome_of, DeferredList.callback.
  destruct (dl_deferred L) as [[r0|] cbs] eqn:ED; [discriminate|].
  assert (E : DeferredList.lookup dl w = Some (mkDeferred None cbs))
    by (unfold DeferredList.lookup; now rewrite HL, <- ED).
  rewrite (callback_eq _ _ _ DeferredList_lookup_update DeferredList_update_update
             dl r cbs w E).
  apply run_callbacks_ok.
Qed.

(** What [_cbDeferred] does for a list that exists: the slot is written,
    the count goes up, the list may fire, and the result is passed on. *)
Lemma cbDeferred_spec (dl i : nat) (r : outcome) (L : ListObj) (w : World) :
  deferred_lists w !! dl = Some L ->
  ∃ w', DeferredList._cbDeferred dl i r w = (Ok r, w')
        ∧ deferreds w' = deferreds w
        ∧ length (deferred_lists w') = length (deferred_lists w)
        ∧ (∀ j, j ≠ dl -> deferred_lists w' !! j = deferred_lists w !! j)
        ∧ ∃ L', deferred_lists w' !! dl = Some L'
                ∧ resultList L' = <[i := Some (negb (is_Failure r), r)]> (resultList L).
Proof.
  intros HL. rewrite cbDeferred_eq, HL. cbv zeta.
  assert (Hlt : dl < length (deferred_lists w)) by (eapply lookup_lt_Some; eassumption).
  set (L1 := mkListObj (dl_deferred L)
               (<[i := Some (negb (is_Failure r), r)]> (resultList L))
               (S (finishedCount L))).
  set (w1 := with_deferred_lists (<[dl := L1]> (deferred_lists w)) w).
  assert (H1 : deferred_lists w1 !! dl = Some L1) by (simpl; now apply list_lookup_insert_eq).
  set (b := negb (called (dl_deferred L1))
            && (finishedCount L1 =? length (resultList L1))).
  assert (K : ∃ w', (if b then DeferredList.callback dl Value else mret tt) w1 = (Ok tt, w')
                    ∧ list_touched dl w1 w').
  { destruct b eqn:Eb.
    - apply andb_true_iff in Eb as [Eb _]. apply negb_true_iff in Eb.
      pose proof (list_callback_ok dl Value L1 w1 H1 Eb) as Hok.
      destruct (list_callback_touched dl Value w1) as [Ht _].
      unfold outcome_of, world_after in *.
      destruct (DeferredList.callback dl Value w1) as [o w']. simpl in *. subst o.
      now exists w'.
    - exists w1. split; [reflexivity | apply list_touched_refl]. }
  destruct K as (w' & E & [T1 T2 T3 T4]).
  exists w'. unfold mbind, M_bind. rewrite E. split; [reflexivity|].
  split; [exact T1|]. split; [rewrite T2; simpl; now rewrite length_insert|].
  split.
  - intros j Hj. rewrite T3 by exact Hj. simpl. now apply list_lookup_insert_ne.
  - destruct (T4 L1 H1) as (L' & H' & R' & _). exists L'. split; [exact H'|exact R'].
Qed.

Lemma slots_kept_refl (r : outcome) (w : World) : slots_kept r w w.
Proof. split; auto. intros dl L H. now exists L. Qed.

Lemma slots_kept_trans (r : outcome) (w0 w1 w2 : World) :
  slots_kept r w0 w1 -> slots_kept r w1 w2 -> slots_kept r w0 w2.
Proof.
  intros [A1 A2 A3 A4] [B1 B2 B3 B4]. split; try congruence; auto.
  intros dl L H. destruct (A4 dl L H) as (L1 & H1 & E1).
  destruct (B4 dl L1 H1) as (L2 & H2 & E2). exists L2. split; [exact H2 | congruence].
Qed.

Lemma run_handle_callback_delivers (h dl i : nat) (r : outcome) (w : World) :
  deferreds w !! h = Some (mkDeferred (Some r) []) ->
  dl < length (deferred_lists w) ->
  ∃ w', run_callback defer.lookup defer.update defer.run_cb h (CbDeferred dl i) w
        = (Ok tt, w')
        ∧ slots_kept r w w'
        ∧ (∀ L, deferred_lists w !! dl = Some L -> i < length (resultList L) ->
                told w' dl i r).
Proof.
  intros Hh Hdl.
  destruct (lookup_lt_is_Some_2 _ _ Hdl) as [L HL].
  destruct (cbDeferred_spec dl i r L w HL) as (w1 & E & D1 & N1 & O1 & L' & HL' & R').
  rewrite (run_callback_eq _ _ _ h (CbDeferred dl i) r [] w Hh).
  unfold defer.run_cb. rewrite E. unfold defer.lookup. rewrite D1, Hh.
  eexists. split; [reflexivity|]. unfold defer.update. simpl.
  assert (Hid : <[h := mkDeferred (Some r) []]> (deferreds w1) = deferreds w).
  { rewrite D1. now apply list_insert_id. }
  split; [split|]; simpl.
  - exact Hid.
  - exact N1.
  - intros dl0 i0 (L0 & H0 & T0).
    destruct (decide (dl0 = dl)) as [->|Hne].
    + assert (L0 = L) as -> by congruence.
      exists L'. split; [exact HL'|]. rewrite R'.
      destruct (decide (i0 = i)) as [->|Hi].
      * apply list_lookup_insert_eq. eapply lookup_lt_Some. eassumption.
      * now rewrite list_lookup_insert_ne by congruence.
    + exists L0. now rewrite O1.
  - intros dl0 L0 H0.
    destruct (decide (dl0 = dl)) as [->|Hne].
    + assert (L0 = L) as -> by congruence.
      exists L'. split; [exact HL'|]. rewrite R'. apply length_insert.
    + exists L0. now rewrite O1.
  - intros L0 H0 Hi. assert (L0 = L) as -> by congruence.
    exists L'. split; [exact HL'|]. rewrite R'. now apply list_lookup_insert_eq.
Qed.

Lemma run_handle_callbacks_deliver (h : nat) (r : outcome) (cbs : list handle_callback) :
  ∀ w,
    deferreds w !! h = Some (mkDeferred (Some r) []) ->
    Forall (λ cb, match cb with CbDeferred dl _ => dl < length (deferred_lists w) end) cbs ->
    ∃ w', for_each cbs (run_callback defer.lookup defer.update defer.run_cb h) w
          = (Ok tt, w')
          ∧ slots_kept r w w'
          ∧ (∀ dl i L, CbDeferred dl i ∈ cbs -> deferred_lists w !! dl = Some L ->
                       i < length (resultList L) -> told w' dl i r).
Proof.
  induction cbs as [|[dl i] cbs IH]; intros w Hh Hcbs.
  - exists w. split; [reflexivity|]. split; [apply slots_kept_refl|].
    intros dl i L H. now apply elem_of_nil in H.
  - apply Forall_cons in Hcbs as [Hdl Hcbs].
    destruct (run_handle_callback_delivers h dl i r w Hh Hdl) as (w1 & E1 & K1 & T1).
    destruct (IH w1) as (w2 & E2 & K2 & T2).
    { now rewrite (kept_deferreds _ _ _ K1). }
    { rewrite (kept_length _ _ _ K1). exact Hcbs. }
    exists w2. simpl. unfold mbind, M_bind. rewrite E1.
    split; [exact E2|]. split; [now apply slots_kept_trans with w1|].
    intros dl0 i0 L0 Hin H0 Hi.
    apply elem_of_cons in Hin as [[= -> ->]|Hin].
    + apply (kept_told _ _ _ K2). now apply (T1 L0).
    + destruct (kept_slots _ _ _ K1 dl0 L0 H0) as (L1 & H1 & E).
      apply (T2 dl0 i0 L1 Hin H1). now rewrite E.
Qed.

(** Firing a pending Deferred whose callbacks all belong to lists that
    exist: the result is stored, and every waiting list is told. *)
Lemma defer_callback_delivers (h : nat) (r : outcome) (cbs : list handle_callback)
    (w : World) :
  deferreds w !! h = Some (mkDeferred None cbs) ->
  Forall (λ cb, match cb with CbDeferred dl _ => dl < length (deferred_lists w) end) cbs ->
  ∃ w', defer.callback h r w = (Ok tt, w')
        ∧ deferreds w' = <[h := mkDeferred (Some r) []]> (deferreds w)
        ∧ length (deferred_lists w') = length (deferred_lists w)
        ∧ (∀ dl i, awaits w h dl i -> told w' dl i r).
Proof.
  intros Hh Hcbs. unfold defer.callback.
  rewrite (callback_eq _ _ _ defer_lookup_update defer_update_update h r cbs w Hh).
  assert (Hlt : h < length (deferreds w)) by (eapply lookup_lt_Some; eassumption).
  destruct (run_handle_callbacks_deliver h r cbs
              (defer.update h (mkDeferred (Some r) []) w))
    as (w' & E & [K1 K2 K3 K4] & T).
  { unfold defer.update. simpl. now apply list_lookup_insert_eq. }
  { exact Hcbs. }
  exists w'. split; [exact E|]. split; [exact K1|]. split; [exact K2|].
  intros dl i (D & L & HD & Hin & HL & Hi).
  assert (D = mkDeferred None cbs) as -> by congruence. simpl in Hin.
  now apply (T dl i L).
Qed.

Lemma engine_lookup_update (d : nat) (D D0 : Deferred gotResult) (w : World) :
  EngineDeferred.lookup d w = Some D0 ->
  EngineDeferred.lookup d (EngineDeferred.update d D w) = Some D.
Proof.
  unfold EngineDeferred.lookup, EngineDeferred.update. simpl. intros H.
  apply list_lookup_insert_eq. eapply lookup_lt_Some. eassumption.
Qed.

Lemma engine_update_update (d : nat) (D D' : Deferred gotResult) (w : World) :
  EngineDeferred.update d D (EngineDeferred.update d D' w) = EngineDeferred.update d D w.
Proof.
  unfold EngineDeferred.update, with_engine_deferreds. simpl.
  now rewrite list_insert_insert_eq.
Qed.

(** The engine fires a Deferred on which one generator waits. *)
Lemma engine_callback_eq (d : nat) (r : outcome) (k : gotResult) (w : World) :
  engine_deferreds w !! d = Some (mkDeferred None [k]) ->
  EngineDeferred.callback d r w =
    (Ok tt,
     let '(res, w1) :=
       EngineDeferred.run_cb k r (EngineDeferred.update d (mkDeferred (Some r) []) w) in
     let r' := match res with Ok a => a | Raise e => Failure e end in
     match EngineDeferred.lookup d w1 with
     | Some D => EngineDeferred.update d (mkDeferred (Some r') (callbacks D)) w1
     | None => w1
     end).
Proof.
  intros Hd. unfold EngineDeferred.callback.
  rewrite (callback_eq _ _ _ engine_lookup_update engine_update_update d r [k] w Hd).
  cbn [for_each]. unfold mbind, M_bind.
  rewrite (run_callback_eq _ _ _ d k r []
             (EngineDeferred.update d (mkDeferred (Some r) []) w)
             (engine_lookup_update d _ _ w Hd)).
  reflexivity.
Qed.

Ltac calls_untouched :=
  intros; unfold engine_calls in *; simpl in *; break_matches; simpl in *;
  rewrite ?List.filter_app; simpl; rewrite ?app_nil_r;
  solve [assumption | congruence].

Lemma defer_callback_keeps_engine_calls (h : nat) (r : outcome) :
  keeps engine_calls (defer.callback h r).
Proof. apply keeps_intro. intros x. preserves_tac calls_untouched. Qed.

Lemma defer_callback_keeps_crawler_objs (h : nat) (r : outcome) :
  keeps crawler_objs (defer.callback h r).
Proof. apply keeps_intro. intros x. preserves_tac untouched. Qed.

Lemma defer_callback_keeps_engine_deferreds (h : nat) (r : outcome) :
  keeps engine_deferreds (defer.callback h r).
Proof. apply keeps_intro. intros x. preserves_tac untouched. Qed.

Lemma told_ext (w w' : World) (dl i : nat) (r : outcome) :
  deferred_lists w' = deferred_lists w -> told w dl i r -> told w' dl i r.
Proof. intros H (L & H1 & H2). exists L. now rewrite H. Qed.

Lemma awaits_ext (w w' : World) (h dl i : nat) :
  deferreds w' = deferreds w -> deferred_lists w' = deferred_lists w ->
  awaits w h dl i -> awaits w' h dl i.
Proof. intros Hd Hl (D & L & H). exists D, L. now rewrite Hd, Hl. Qed.

Lemma engine_done_frame (d : nat) (r : outcome) (w : World) :
  crawler_objs (engine_done d r w) = crawler_objs w
  ∧ deferreds (engine_done d r w) = deferreds w
  ∧ deferred_lists (engine_done d r w) = deferred_lists w
  ∧ trace (engine_done d r w) = trace w.
Proof. unfold engine_done. destruct (EngineDeferred.lookup d w); now repeat split. Qed.

(** The generator behind [k], taken up by the engine with [r], ends:
    it returns ([r'] is a value) or raises ([r'] is a failure).  Then the
    Deferred [h] that [inlineCallbacks] returned fires with [r'], and the
    lists that wait for it are told. *)
Lemma generator_ends_later (d h : nat) (k : gotResult) (r r' : outcome)
    (cbs : list handle_callback) (w wr : World) :
  engine_deferreds w !! d = Some (mkDeferred None [k]) ->
  EngineDeferred.deferred_of k = h ->
  deferreds w !! h = Some (mkDeferred None cbs) ->
  Forall (λ cb, match cb with CbDeferred dl _ => dl < length (deferred_lists w) end) cbs ->
  Crawler.resume k r (EngineDeferred.update d (mkDeferred (Some r) []) w)
  = (gen_result (Some r'), wr) ->
  deferreds wr = deferreds w ->
  deferred_lists wr = deferred_lists w ->
  let w2 := world_after (EngineDeferred.callback d r) w in
  outcome_of (EngineDeferred.callback d r) w = Ok tt
  ∧ crawler_objs w2 = crawler_objs wr
  ∧ deferreds w2 = <[h := mkDeferred (Some r') []]> (deferreds w)
  ∧ engine_calls w2 = engine_calls wr
  ∧ (∀ dl i, awaits w h dl i -> told w2 dl i r').
Proof.
  intros Hd Hk Hh Hcbs Hres Hdw Hlw w2. unfold w2, outcome_of, world_after.
  rewrite (engine_callback_eq d r k w Hd). cbn [fst snd].
  rewrite <- Hdw in Hh. rewrite <- Hlw in Hcbs.
  destruct (defer_callback_delivers h r' cbs wr Hh Hcbs) as (w' & E & D' & N' & T').
  assert (Hrun : EngineDeferred.run_cb k r
                   (EngineDeferred.update d (mkDeferred (Some r) []) w) = (Ok Value, w')).
  { unfold EngineDeferred.run_cb, defer._inlineCallbacks. unfold mbind, M_bind.
    rewrite Hres, Hk. destruct r' as [|x]; simpl; unfold defer.errback; now rewrite E. }
  rewrite Hrun. cbv beta iota zeta. fold (engine_done d Value w').
  destruct (engine_done_frame d Value w') as (F1 & F2 & F3 & F4).
  pose proof (defer_callback_keeps_crawler_objs h r' wr) as Kc.
  pose proof (defer_callback_keeps_engine_calls h r' wr) as Kt.
  unfold world_after in Kc, Kt. rewrite E in Kc, Kt. simpl in Kc, Kt.
  split; [reflexivity|]. split; [now rewrite F1|].
  split; [rewrite F2, D'; now rewrite Hdw|].
  split; [unfold engine_calls in *; now rewrite F4|].
  intros dl i Ha. apply told_ext with w'; [exact F3|]. apply T'.
  now apply awaits_ext with w.
Qed.

(** The generator behind [k] waits again. *)
Lemma generator_waits_later (d : nat) (k : gotResult) (r : outcome) (w ws : World) :
  engine_deferreds w !! d = Some (mkDeferred None [k]) ->
  Crawler.resume k r (EngineDeferred.update d (mkDeferred (Some r) []) w)
  = (Ok Suspended, ws) ->
  EngineDeferred.callback d r w = (Ok tt, engine_done d Value ws).
Proof.
  intros Hd Hres. rewrite (engine_callback_eq d r k w Hd).
  unfold EngineDeferred.run_cb, defer._inlineCallbacks. unfold mbind, M_bind.
  now rewrite Hres.
Qed.

(** A failure that arrives through the Deferred of the engine, at either
    [yield] of [crawl]. *)
Lemma crawl_fails_later (self d h : nat) (k : gotResult) (x : exn)
    (cbs : list handle_callback) (c : CrawlerObj) (w : World) :
  k = crawl_after_open_spider self h ∨ k = crawl_after_engine_start self h ->
  engine_deferreds w !! d = Some (mkDeferred None [k]) ->
  deferreds w !! h = Some (mkDeferred None cbs) ->
  Forall (λ cb, match cb with CbDeferred dl _ => dl < length (deferred_lists w) end) cbs ->
  crawler_objs w !! self = Some c ->
  let w2 := world_after (EngineDeferred.callback d (Failure x)) w in
  outcome_of (EngineDeferred.callback d (Failure x)) w = Ok tt
  ∧ (crawling <$> crawler_objs w2 !! self) = Some false
  ∧ deferreds w2 = <[h := mkDeferred (Some (Failure x)) []]> (deferreds w)
  ∧ engine_calls w2 = engine_calls w
  ∧ (∀ dl i, awaits w h dl i -> told w2 dl i (Failure x)).
Proof.
  intros Hk Hd Hh Hcbs Hc w2.
  set (w0 := EngineDeferred.update d (mkDeferred (Some (Failure x)) []) w).
  set (wr := with_crawler_objs (alter (set_crawling false) self (crawler_objs w0)) w0).
  destruct (generator_ends_later d h k (Failure x) (Failure x) cbs w wr Hd)
    as (H1 & H2 & H3 & H4 & H5); auto.
  - now destruct Hk as [-> | ->].
  - now destruct Hk as [-> | ->].
  - fold w2 in H2, H3, H4, H5. split; [exact H1|]. split; [|now repeat split].
    rewrite H2. simpl. now rewrite list_lookup_alter_eq, Hc.
Qed.

(** The engine acknowledges a [stop]: the Deferred that [stop] returned
    fires with what the engine gave. *)
Lemma stop_acknowledged_later (self d h : nat) (r : outcome)
    (cbs : list handle_callback) (w : World) :
  engine_deferreds w !! d = Some (mkDeferred None [stop_after_engine_stop self h]) ->
  deferreds w !! h = Some (mkDeferred None cbs) ->
  Forall (λ cb, match cb with CbDeferred dl _ => dl < length (deferred_lists w) end) cbs ->
  let w2 := world_after (EngineDeferred.callback d r) w in
  outcome_of (EngineDeferred.callback d r) w = Ok tt
  ∧ crawler_objs w2 = crawler_objs w
  ∧ deferreds w2 = <[h := mkDeferred (Some r) []]> (deferreds w)
  ∧ engine_calls w2 = engine_calls w
  ∧ (∀ dl i, awaits w h dl i -> told w2 dl i r).
Proof.
  intros Hd Hh Hcbs.
  apply (generator_ends_later d h _ r r cbs w
           (EngineDeferred.update d (mkDeferred (Some r) []) w) Hd); auto.
  now destruct r.
Qed.

(** The generator of [crawl], taken up after [open_spider]: it calls
    [engine.start] and ends, fails or waits again. *)
Lemma resume_after_open_spider (self h : nat) (c : CrawlerObj) (e : Engine) (w : World) :
  crawler_objs w !! self = Some c -> engine c = Some e ->
  let ws := with_engine_deferreds
              (engine_deferreds w ++
               [awaited (born (engine_start e)) (crawl_after_engine_start self h)])
              (with_trace (trace w ++ [ev_engine_start self]) w) in
  Crawler.resume (crawl_after_open_spider self h) Value w =
    match born (engine_start e) with
    | Some Value => (Ok Returned, ws)
    | Some (Failure x) =>
        (Raise x, with_crawler_objs (alter (set_crawling false) self (crawler_objs w)) ws)
    | None => (Ok Suspended, ws)
    end.
Proof.
  intros Hc He ws. unfold ws.
  unfold Crawler.resume, Crawler.try_body_1, Crawler.get_engine, get_crawler, defer.await,
    Crawler.rollback, update_crawler.
  run_M. rewrite Hc. simpl. rewrite He. simpl. rewrite maybeDeferred_spec. simpl.
  rewrite lookup_snoc.
  destruct (born (engine_start e)) as [[|x]|]; simpl; rewrite insert_snoc; reflexivity.
Qed.

(** The engine's Deferred of [open_spider] fires with a value: [crawl]
    goes on to [engine.start]. *)
Lemma crawl_resumes_after_open_spider (self d h : nat) (cbs : list handle_callback)
    (c : CrawlerObj) (e : Engine) (w : World) :
  engine_deferreds w !! d = Some (mkDeferred None [crawl_after_open_spider self h]) ->
  deferreds w !! h = Some (mkDeferred None cbs) ->
  Forall (λ cb, match cb with CbDeferred dl _ => dl < length (deferred_lists w) end) cbs ->
  crawler_objs w !! self = Some c ->
  engine c = Some e ->
  let w2 := world_after (EngineDeferred.callback d Value) w in
  outcome_of (EngineDeferred.callback d Value) w = Ok tt
  ∧ engine_calls w2 = engine_calls w ++ [ev_engine_start self]
  ∧ match born (engine_start e) with
    | Some (Failure x) =>
        (crawling <$> crawler_objs w2 !! self) = Some false
        ∧ deferreds w2 = <[h := mkDeferred (Some (Failure x)) []]> (deferreds w)
        ∧ (∀ dl i, awaits w h dl i -> told w2 dl i (Failure x))
    | Some Value =>
        deferreds w2 = <[h := mkDeferred (Some Value) []]> (deferreds w)
        ∧ (∀ dl i, awaits w h dl i -> told w2 dl i Value)
    | None =>
        engine_deferreds w2 !! length (engine_deferreds w)
        = Some (mkDeferred None [crawl_after_engine_start self h])
        ∧ deferreds w2 = deferreds w
        ∧ deferred_lists w2 = deferred_lists w
        ∧ crawler_objs w2 = crawler_objs w
    end.
Proof.
  intros Hd Hh Hcbs Hc He w2.
  assert (Hdl : d < length (engine_deferreds w)) by (eapply lookup_lt_Some; eassumption).
  set (w0 := EngineDeferred.update d (mkDeferred (Some Value) []) w).
  assert (Hlen : length (engine_deferreds w0) = length (engine_deferreds w))
    by (unfold w0; simpl; apply length_insert).
  pose proof (resume_after_open_spider self h c e w0 Hc He) as Hres. cbv zeta in Hres.
  set (ws := with_engine_deferreds
               (engine_deferreds w0 ++
                [awaited (born (engine_start e)) (crawl_after_engine_start self h)])
               (with_trace (trace w0 ++ [ev_engine_start self]) w0)) in *.
  assert (Hcalls : engine_calls ws = engine_calls w ++ [ev_engine_start self]).
  { unfold engine_calls, ws. simpl. now rewrite List.filter_app. }
  destruct (born (engine_start e)) as [[|x]|] eqn:Eb.
  - (* [engine.start] has ended: the Deferred of [crawl] fires *)
    destruct (generator_ends_later d h _ Value Value cbs w ws Hd eq_refl Hh Hcbs Hres)
      as (H1 & H2 & H3 & H4 & H5); [reflexivity | reflexivity |].
    fold w2 in H2, H3, H4, H5.
    split; [exact H1|]. split; [now rewrite H4|]. now split.
  - (* [engine.start] has failed *)
    destruct (generator_ends_later d h _ Value (Failure x) cbs w _ Hd eq_refl Hh Hcbs Hres)
      as (H1 & H2 & H3 & H4 & H5); [reflexivity | reflexivity |].
    fold w2 in H2, H3, H4, H5.
    split; [exact H1|]. split; [rewrite H4; exact Hcalls|].
    split; [|now split]. rewrite H2. simpl. now rewrite list_lookup_alter_eq, Hc.
  - (* [engine.start] is under way: [crawl] waits again *)
    pose proof (generator_waits_later d _ Value w ws Hd Hres) as E.
    unfold w2, outcome_of, world_after. rewrite E. cbn [fst snd].
    destruct (engine_done_frame d Value ws) as (F1 & F2 & F3 & F4).
    split; [reflexivity|].
    split; [unfold engine_calls in *; rewrite F4; exact Hcalls|].
    split; [|split; [rewrite F2; reflexivity | split; [rewrite F3 | rewrite F1]; reflexivity]].
    unfold engine_done, EngineDeferred.lookup, EngineDeferred.update.
    assert (Hd' : engine_deferreds ws !! d = Some (mkDeferred (Some Value) [])).
    { unfold ws. simpl. rewrite lookup_app_l by (rewrite length_insert; exact Hdl).
      now apply list_lookup_insert_eq. }
    rewrite Hd'. simpl. rewrite list_lookup_insert_ne by lia.
    rewrite <- (length_insert (engine_deferreds w) d (mkDeferred (Some Value) [])).
    apply lookup_snoc.
Qed.

Lemma pending_callbacks (w : World) (h : nat) :
  well_formed w -> (result <$> deferreds w !! h) = Some None ->
  ∃ cbs, deferreds w !! h = Some (mkDeferred None cbs)
         ∧ Forall (λ cb, match cb with
                         | CbDeferred dl _ => dl < length (deferred_lists w)
                         end) cbs.
Proof.
  intros [N _] H. destruct (deferreds w !! h) as [[r cbs]|] eqn:E; [|discriminate].
  simpl in H. injection H as ->. exists cbs. split; [reflexivity|]. exact (N h _ E).
Qed.

(** C5: [stop] on a crawler that is not crawling gives a Deferred that has
    already fired and changes nothing else: no field of the crawler, no
    call of the engine.  On a crawling crawler it clears the flag, then
    calls [engine.stop] under [maybeDeferred]; the Deferred it gives is in
    the state of the engine's.  When the engine's is pending and fires, at
    once or in any later well-formed world in which the two still wait,
    with a value or with a failure, the Deferred of [stop] fires with the
    same and the lists that wait for it are told.  (A crawling crawler
    without an engine has its flag cleared and gets a Deferred failed with
    [AttributeError].) *)
Theorem stop_idle_or_crawling (self : nat) (c : CrawlerObj) (w : World) :
  crawler_objs w !! self = Some c ->
  let h := length (deferreds w) in
  let d := length (engine_deferreds w) in
  let w1 := world_after (Crawler.stop self) w in
  outcome_of (Crawler.stop self) w = Ok h
  ∧ w1 = match crawling c, engine c with
         | false, _ =>
             with_deferreds (deferreds w ++ [mkDeferred (Some Value) []]) w
         | true, Some e =>
             with_deferreds (deferreds w ++ [mkDeferred (born (engine_stop e)) []])
               (stop_requested self e w)
         | true, None =>
             with_deferreds (deferreds w ++ [mkDeferred (Some (Failure no_engine)) []])
               (with_crawler_objs (alter (set_crawling false) self (crawler_objs w)) w)
         end
  ∧ (∀ e, crawling c = true -> engine c = Some e ->
       (crawling <$> crawler_objs w1 !! self) = Some false
       ∧ trace w1 = trace w ++ [ev_engine_stop self]
       ∧ (result <$> deferreds w1 !! h) = Some (born (engine_stop e))
       ∧ (born (engine_stop e) = None ->
            engine_deferreds w1 !! d = Some (mkDeferred None [stop_after_engine_stop self h])
            ∧ (∀ r, let w2 := world_after (EngineDeferred.callback d r) w1 in
                    outcome_of (EngineDeferred.callback d r) w1 = Ok tt
                    ∧ (result <$> deferreds w2 !! h) = Some (Some r))
            ∧ (∀ w' r,
                 well_formed w' ->
                 engine_deferreds w' !! d
                 = Some (mkDeferred None [stop_after_engine_stop self h]) ->
                 (result <$> deferreds w' !! h) = Some None ->
                 let w2 := world_after (EngineDeferred.callback d r) w' in
                 outcome_of (EngineDeferred.callback d r) w' = Ok tt
                 ∧ deferreds w2 !! h = Some (mkDeferred (Some r) [])
                 ∧ engine_calls w2 = engine_calls w'
                 ∧ (∀ dl i, awaits w' h dl i -> told w2 dl i r)))).
Proof.
  intros Hc h d w1.
  destruct (crawling c) eqn:Hcr; [destruct (engine c) as [e|] eqn:He|].
  - assert (E : Crawler.stop self w
                = (Ok h, with_deferreds (deferreds w ++ [mkDeferred (born (engine_stop e)) []])
                           (stop_requested self e w)))
      by now apply stop_crawling with c.
    assert (E1 : w1 = with_deferreds (deferreds w ++ [mkDeferred (born (engine_stop e)) []])
                        (stop_requested self e w))
      by (unfold w1, world_after; now rewrite E).
    split; [unfold outcome_of; now rewrite E|].
    split; [exact E1|].
    intros e' _ [= <-]. rewrite E1. simpl.
    split; [now rewrite list_lookup_alter_eq, Hc|].
    split; [reflexivity|].
    split; [unfold h; now rewrite lookup_snoc|].
    intros Hb. rewrite Hb.
    split; [unfold d; simpl; now rewrite lookup_snoc|]. split.
    + intros r. unfold outcome_of, world_after.
      rewrite (stop_acknowledged self d h r).
      * simpl. split; [reflexivity|]. unfold h. now rewrite insert_snoc, lookup_snoc.
      * simpl. unfold d. now rewrite Hb, lookup_snoc.
      * simpl. unfold h. now rewrite lookup_snoc.
    + intros w' r Hwf Hd' Hh'.
      destruct (pending_callbacks w' h Hwf Hh') as (cbs & Hh & Hcbs).
      destruct (stop_acknowledged_later self d h r cbs w' Hd' Hh Hcbs)
        as (K1 & _ & K3 & K4 & K5).
      split; [exact K1|]. split; [|split; [exact K4 | exact K5]].
      rewrite K3. apply list_lookup_insert_eq. eapply lookup_lt_Some. eassumption.
  - assert (E : Crawler.stop self w
                = (Ok h, with_deferreds (deferreds w ++ [mkDeferred (Some (Failure no_engine)) []])
                           (with_crawler_objs
                              (alter (set_crawling false) self (crawler_objs w)) w)))
      by now apply stop_crawling_no_engine with c.
    split; [unfold outcome_of; now rewrite E|].
    split; [unfold w1, world_after; now rewrite E|].
    intros e _ H. discriminate H.
  - assert (E : Crawler.stop self w
                = (Ok h, with_deferreds (deferreds w ++ [mkDeferred (Some Value) []]) w))
      by now apply stop_idle with c.
    split; [unfold outcome_of; now rewrite E|].
    split; [unfold w1, world_after; now rewrite E|].
    intros e H. discriminate H.
Qed.

(** C6: when a step of [crawl] fails, be it [from_crawler], the
    construction of the engine, [start_requests], [open_spider] (raising,
    or through its Deferred, at once or later) or [engine.start] (the
    same), the [crawling] flag is cleared and the Deferred that [crawl]
    returned fails with that very error; a failure that arrives later, in
    a well-formed world, is also told to every DeferredList that waits for
    that Deferred.  No step is run a second time: the calls made are an
    initial part of the five calls, each made once, and a failure that
    arrives through a Deferred causes no further call. *)
Theorem crawl_failure_rolls_back :
  (∀ self args c w,
     crawler_objs w !! self = Some c -> crawling c = false ->
     let h := length (deferreds w) in
     ∃ w1 n,
       Crawler.crawl self args w = (Ok h, w1)
       ∧ trace w1 = trace w ++ take n (crawl_calls self args)
       ∧ match first_run (spidercls c) args (ExecutionEngine (ext w) self) with
         | StepFailed x => crawl_failed self h x w1
         | WaitsForOpenSpider =>
             ∃ d e, crawl_waiting d (crawl_after_open_spider self h) h w1
                    ∧ (engine <$> crawler_objs w1 !! self) = Some (Some e)
         | WaitsForEngineStart =>
             ∃ d, crawl_waiting d (crawl_after_engine_start self h) h w1
         | RanToEnd => deferreds w1 !! h = Some (mkDeferred (Some Value) [])
         end)
  ∧ (∀ cls args mk x,
       (from_crawler cls args = inl x -> first_run cls args mk = StepFailed x)
       ∧ (∀ s, from_crawler cls args = inr s -> mk = inl x ->
               first_run cls args mk = StepFailed x)
       ∧ (∀ s e, from_crawler cls args = inr s -> mk = inr e ->
                 start_requests s = Some x -> first_run cls args mk = StepFailed x)
       ∧ (∀ s e, from_crawler cls args = inr s -> mk = inr e ->
                 start_requests s = None ->
                 open_spider e = Raises x ∨ open_spider e = Returns (Some (Failure x)) ->
                 first_run cls args mk = StepFailed x)
       ∧ (∀ s e, from_crawler cls args = inr s -> mk = inr e ->
                 start_requests s = None -> open_spider e = Returns (Some Value) ->
                 engine_start e = Raises x ∨ engine_start e = Returns (Some (Failure x)) ->
                 first_run cls args mk = StepFailed x))
  ∧ (∀ self d h k c w x,
       well_formed w ->
       k = crawl_after_open_spider self h ∨ k = crawl_after_engine_start self h ->
       crawl_waiting d k h w ->
       crawler_objs w !! self = Some c ->
       let w2 := world_after (EngineDeferred.callback d (Failure x)) w in
       crawl_failed self h x w2
       ∧ engine_calls w2 = engine_calls w
       ∧ (∀ dl i, awaits w h dl i -> told w2 dl i (Failure x)))
  ∧ (∀ self d h c e w,
       well_formed w ->
       crawl_waiting d (crawl_after_open_spider self h) h w ->
       crawler_objs w !! self = Some c -> engine c = Some e ->
       let w2 := world_after (EngineDeferred.callback d Value) w in
       engine_calls w2 = engine_calls w ++ [ev_engine_start self]
       ∧ match born (engine_start e) with
         | Some (Failure x) =>
             crawl_failed self h x w2
             ∧ (∀ dl i, awaits w h dl i -> told w2 dl i (Failure x))
         | Some Value => deferreds w2 !! h = Some (mkDeferred (Some Value) [])
         | None =>
             crawl_waiting (length (engine_deferreds w))
               (crawl_after_engine_start self h) h w2
             ∧ well_formed w2
             ∧ (∀ dl i, awaits w h dl i -> awaits w2 h dl i)
         end).
Proof.
  split; [|split; [|split]].
  - intros self args c w Hc Hcr h.
    destruct (crawl_spec self args c w Hc Hcr) as (w1 & n & E & Hd & _ & Ht & Hcrl & Hk).
    fold h in E, Hd, Hk.
    exists w1, n. split; [exact E|]. split; [exact Ht|].
    assert (Hh : deferreds w1 !! h
                 = Some (mkDeferred
                           (handle_result
                              (first_run (spidercls c) args (ExecutionEngine (ext w) self)))
                           []))
      by (rewrite Hd; apply lookup_snoc).
    destruct (first_run (spidercls c) args (ExecutionEngine (ext w) self));
      simpl in Hh, Hcrl, Hk.
    + now split.
    + destruct (Hk _ eq_refl) as (d & e & Hd1 & He). exists d, e.
      split; [split; [exact Hd1 | now rewrite Hh] | exact He].
    + destruct (Hk _ eq_refl) as (d & e & Hd1 & He). exists d.
      split; [exact Hd1 | now rewrite Hh].
    + exact Hh.
  - apply first_run_failures.
  - intros self d h k c w x Hwf Hk [Hd Hp] Hc w2.
    destruct (pending_callbacks w h Hwf Hp) as (cbs & Hh & Hcbs).
    destruct (crawl_fails_later self d h k x cbs c w Hk Hd Hh Hcbs Hc)
      as (_ & K2 & K3 & K4 & K5).
    fold w2 in K2, K3, K4, K5.
    split; [split; [exact K2|] | split; [exact K4 | exact K5]].
    rewrite K3. apply list_lookup_insert_eq. eapply lookup_lt_Some. eassumption.
  - intros self d h c e w Hwf [Hd Hp] Hc He w2.
    destruct (pending_callbacks w h Hwf Hp) as (cbs & Hh & Hcbs).
    assert (Hlt : h < length (deferreds w)) by (eapply lookup_lt_Some; eassumption).
    destruct (crawl_resumes_after_open_spider self d h cbs c e w Hd Hh Hcbs Hc He)
      as (_ & K2 & K3).
    fold w2 in K2, K3. split; [exact K2|].
    destruct (born (engine_start e)) as [[|x]|].
    + destruct K3 as [K3 _]. rewrite K3. now apply list_lookup_insert_eq.
    + destruct K3 as (K3 & K4 & K5). split; [split; [exact K3|] | exact K5].
      rewrite K4. now apply list_lookup_insert_eq.
    + destruct K3 as (K3 & K4 & K5 & K6).
      split; [split; [exact K3 | now rewrite K4]|].
      split; [exact (well_formed_perform (op_fire d Value) w Hwf)|].
      intros dl i Ha. now apply awaits_ext with w.
Qed.

(** ** A small project *)

(** The first signal is SIGINT (2), the second SIGTERM (15). *)
Lemma signal_escalation_witness :
  shutdown_handler example_process = signal_shutdown 0
  ∧ deliver_signal 2 example_process
    = (Ok tt,
       handled (signal_kill 0)
         "Received SIGINT, shutting down gracefully. Send again to force "
         (runner_stop 0) example_process)
  ∧ threadCallQueue
      (the_reactor
         (handled SIG_IGN "Received SIGTERM twice, forcing unclean shutdown" (stop_reactor 0)
            (handled (signal_kill 0)
               "Received SIGINT, shutting down gracefully. Send again to force "
               (runner_stop 0) example_process)))
    = [runner_stop 0; stop_reactor 0].
Proof.
  destruct (signal_escalation 0 2 15 2 "SIGINT" "SIGTERM" example_process)
    as (H1 & H2 & H3 & H4 & _); [reflexivity | reflexivity | reflexivity |].
  split; [reflexivity|]. split; [exact H1 | exact H4].
Defined.

Lemma all_called_spec (X : gset nat) (w : World) :
  forallb (is_called w) (elements X) = true -> ∀ h, h ∈ X -> is_called w h = true.
Proof. rewrite count_forallb. intros H h Hh. apply H. now apply elem_of_elements. Qed.

(** The example worlds are reached from [example_world]. *)
Lemma example_process_well_formed : well_formed example_process.
Proof.
  replace example_process
    with (world_after (history [op_new_process 0]) example_world)
    by (vm_compute; reflexivity).
  apply reachable_well_formed. split; reflexivity.
Qed.

Lemma example_two_well_formed : well_formed example_two.
Proof.
  replace example_two
    with (world_after
            (history [op_new_process 0; op_crawl 0 (ByName "quotes") [];
                      op_engine_stopped 0; op_crawl 0 (ByName "quotes") []])
            example_world)
    by (vm_compute; reflexivity).
  apply reachable_well_formed. split; reflexivity.
Qed.

(** Crawlers 0 and 1 are stopped: the engine of crawler 1 raises, that of
    crawler 0 acknowledges later, and then the list has fired. *)
Lemma stop_joins_all_crawlers_witness :
  let w1 := world_after (CrawlerRunner.stop 0) example_two in
  let w2 := world_after (history [op_fire 3 Value]) w1 in
  process_objs example_two !! 0 = Some example_runner
  ∧ well_formed example_two
  ∧ outcome_of (CrawlerRunner.stop 0) example_two = Ok 0
  ∧ (result <$> deferreds w1 !! 2) = Some (Some (Failure (mkExn (UserError 7) "stop")))
  ∧ list_called w1 0 = false
  ∧ list_called w2 0 = true.
Proof.
  intros w1 w2.
  assert (Hp : process_objs example_two !! 0 = Some example_runner)
    by (vm_compute; reflexivity).
  destruct (stop_joins_all_crawlers 0 example_runner example_two Hp
              example_two_well_formed)
    as (H1 & _ & _ & _ & H5).
  split; [exact Hp|]. split; [exact example_two_well_formed|]. split; [exact H1|].
  split; [vm_compute; reflexivity|]. split; [vm_compute; reflexivity|].
  apply (H5 [op_fire 3 Value]).
  intros h Hh. vm_compute in Hh.
  apply elem_of_cons in Hh as [->|Hh]; [vm_compute; reflexivity|].
  apply elem_of_cons in Hh as [->|Hh]; [vm_compute; reflexivity|].
  now apply elem_of_nil in Hh.
Defined.

(** With two crawls pending the reactor is started and, once the engines
    have let both crawls end, stopped; with no crawl the call returns at
    once. *)
Lemma start_reactor_stop_after_crawl_witness :
  let run := CrawlerProcess._start_reactor 0 true in
  let later := history [op_fire 0 (Failure (mkExn (UserError 1) "open"));
                        op_fire 1 Value; op_fire 2 Value] in
  process_objs example_two !! 0 = Some example_runner
  ∧ well_formed example_two
  ∧ outcome_of run example_two = Ok false
  ∧ _started (the_reactor (world_after run example_two)) = true
  ∧ _stopped (the_reactor (world_after run example_two)) = false
  ∧ _stopped (the_reactor (world_after later (world_after run example_two))) = true
  ∧ outcome_of run example_process = Ok true
  ∧ loop_setup (world_after run example_process) = loop_setup example_process.
Proof.
  intros run later.
  assert (Hp : process_objs example_two !! 0 = Some example_runner)
    by (vm_compute; reflexivity).
  destruct (start_reactor_stop_after_crawl 0 example_runner example_two Hp
              example_two_well_formed)
    as (_ & _ & _ & H4).
  destruct (H4 0 example_settings) as (K1 & K2 & K3 & _ & _ & K6);
    [ apply elem_of_elements; vm_compute; apply list_elem_of_further, list_elem_of_here
    | vm_compute; reflexivity | vm_compute; reflexivity | vm_compute; reflexivity | ].
  assert (Hp0 : process_objs example_process !! 0
                = Some (mkProcessObj 0 {[ "quotes" := example_cls ]} ∅ ∅ false))
    by (vm_compute; reflexivity).
  destruct (start_reactor_stop_after_crawl 0 _ example_process Hp0
              example_process_well_formed)
    as (_ & _ & E3 & _).
  destruct (E3 eq_refl) as [E1 E2].
  split; [exact Hp|]. split; [exact example_two_well_formed|].
  split; [exact K1|]. split; [exact K2|]. split; [exact K3|].
  split; [|split; [exact E1 | exact E2]].
  apply (K6 [op_fire 0 (Failure (mkExn (UserError 1) "open")); op_fire 1 Value; op_fire 2 Value]).
  apply all_called_spec. vm_compute. reflexivity.
Defined.

(** Crawler 0 of [example_crawling] is crawling. *)
Lemma crawl_while_crawling_fails_witness :
  (crawling <$> crawler_objs example_crawling !! 0) = Some true
  ∧ Crawler.crawl 0 [] example_crawling
    = (Ok 1,
       with_deferreds
         (deferreds example_crawling ++ [mkDeferred (Some (Failure already_crawling)) []])
         example_crawling).
Proof.
  split; [vm_compute; reflexivity|].
  destruct (crawler_objs example_crawling !! 0) as [c|] eqn:Hc; [|vm_compute in Hc; discriminate].
  refine (proj2 (crawl_while_crawling_fails 0 [] c example_crawling Hc _)).
  vm_compute in Hc. injection Hc as <-. reflexivity.
Defined.

(** [crawl] on the crawling crawler 0 of [example_crawling] raises
    nothing: the call returns the Deferred 1, which has failed and has no
    callback, and nothing is logged or called.  The assertion of [install],
    which is not under [inlineCallbacks], does raise in the same world. *)
Lemma crawl_while_crawling_returns :
  let w1 := world_after (Crawler.crawl 0 []) example_crawling in
  (crawling <$> crawler_objs example_crawling !! 0) = Some true
  ∧ outcome_of (Crawler.crawl 0 []) example_crawling = Ok 1
  ∧ deferreds w1 !! 1 = Some (mkDeferred (Some (Failure already_crawling)) [])
  ∧ trace w1 = trace example_crawling
  ∧ outcome_of (Crawler.install 0) example_crawling = Raise already_installed.
Proof. vm_compute. repeat split. Defined.

(** [stop] on the crawling crawler 0, then the engine's acknowledgement,
    at once or after [process.stop()] has made a list of the Deferred, then
    [stop] again on the now idle crawler. *)
Lemma stop_idle_or_crawling_witness :
  let w1 := world_after (Crawler.stop 0) example_crawling in
  let w2 := world_after (EngineDeferred.callback 1 Value) w1 in
  let w3 := world_after (EngineDeferred.callback 1 Value) example_stopping in
  (crawling <$> crawler_objs example_crawling !! 0) = Some true
  ∧ outcome_of (Crawler.stop 0) example_crawling = Ok 1
  ∧ (crawling <$> crawler_objs w1 !! 0) = Some false
  ∧ (result <$> deferreds w1 !! 1) = Some None
  ∧ (result <$> deferreds w2 !! 1) = Some (Some Value)
  ∧ well_formed example_stopping
  ∧ awaits example_stopping 1 0 0
  ∧ deferreds w3 !! 1 = Some (mkDeferred (Some Value) [])
  ∧ told w3 0 0 Value
  ∧ Crawler.stop 0 w2
    = (Ok 2, with_deferreds (deferreds w2 ++ [mkDeferred (Some Value) []]) w2).
Proof.
  intros w1 w2 w3.
  destruct (crawler_objs example_crawling !! 0) as [c|] eqn:Hc; [|vm_compute in Hc; discriminate].
  destruct (stop_idle_or_crawling 0 c example_crawling Hc) as (H1 & _ & H3).
  assert (Ec : c = mkCrawlerObj example_cls 2 [uninstall_receiver] true
                     (Some (mkSpider None)) (Some example_engine))
    by (vm_compute in Hc; injection Hc as <-; reflexivity).
  destruct (H3 example_engine) as (K1 & _ & K3 & K4); [now rewrite Ec | now rewrite Ec |].
  destruct (K4 eq_refl) as (_ & Kr & Kl).
  destruct (Kr Value) as [_ K5].
  assert (Hwf : well_formed example_stopping).
  { replace example_stopping
      with (world_after
              (history [op_new_process 0; op_crawl 0 (ByName "quotes") []; op_stop 0])
              example_world)
      by (vm_compute; reflexivity).
    apply reachable_well_formed. split; reflexivity. }
  assert (Ha : awaits example_stopping 1 0 0).
  { exists (mkDeferred None [CbDeferred 0 0]),
           (mkListObj (mkDeferred None []) [None] 0).
    split; [vm_compute; reflexivity|]. split; [apply list_elem_of_here|].
    split; [vm_compute; reflexivity | simpl; lia]. }
  destruct (Kl example_stopping Value Hwf) as (_ & L2 & _ & L4);
    [vm_compute; reflexivity | vm_compute; reflexivity |].
  destruct (crawler_objs w2 !! 0) as [c2|] eqn:Hc2; [|vm_compute in Hc2; discriminate].
  destruct (stop_idle_or_crawling 0 c2 w2 Hc2) as (I1 & I2 & _).
  assert (Ec2 : crawling c2 = false) by (vm_compute in Hc2; injection Hc2 as <-; reflexivity).
  rewrite Ec2 in I2.
  split; [rewrite Ec; reflexivity|]. split; [exact H1|]. split; [exact K1|].
  split; [exact K3|]. split; [exact K5|]. split; [exact Hwf|]. split; [exact Ha|].
  split; [exact L2|]. split; [exact (L4 0 0 Ha)|].
  unfold outcome_of, world_after in I1, I2.
  destruct (Crawler.stop 0 w2) as [o w4]. cbn [fst snd] in I1, I2. rewrite I1, I2.
  f_equal.
Defined.

(** The crawl of a broken spider class fails at its first step; the crawl
    of [example_running] fails when [open_spider] does, and the list of
    [start] is told. *)
Lemma crawl_failure_rolls_back_witness :
  let x := mkExn (UserError 3) "open_spider" in
  let w2 := world_after (EngineDeferred.callback 0 (Failure x)) example_running in
  (∃ w1, Crawler.crawl 0 [] example_broken = (Ok 0, w1)
         ∧ crawl_failed 0 0 (mkExn (UserError 1) "from_crawler") w1)
  ∧ well_formed example_running
  ∧ crawl_waiting 0 (crawl_after_open_spider 0 0) 0 example_running
  ∧ awaits example_running 0 0 0
  ∧ crawl_failed 0 0 x w2
  ∧ told w2 0 0 (Failure x).
Proof.
  intros x w2.
  destruct crawl_failure_rolls_back as (H1 & _ & H3 & _).
  assert (Hwf : well_formed example_running).
  { replace example_running
      with (world_after
              (history [op_new_process 0; op_crawl 0 (ByName "quotes") [];
                        op_start 0 true])
              example_world)
      by (vm_compute; reflexivity).
    apply reachable_well_formed. split; reflexivity. }
  assert (Hw : crawl_waiting 0 (crawl_after_open_spider 0 0) 0 example_running)
    by (split; vm_compute; reflexivity).
  assert (Ha : awaits example_running 0 0 0).
  { exists (mkDeferred None [CbDeferred 0 0]),
           (mkListObj (mkDeferred None [CbStopReactor 0]) [None] 0).
    split; [vm_compute; reflexivity|]. split; [apply list_elem_of_here|].
    split; [vm_compute; reflexivity | simpl; lia]. }
  split; [|split; [exact Hwf | split; [exact Hw | split; [exact Ha|]]]].
  - destruct (H1 0 [] (mkCrawlerObj broken_cls 2 [] false None None) example_broken)
      as (w1 & n & K1 & _ & K3); [vm_compute; reflexivity | reflexivity |].
    exists w1. split; [exact K1 | exact K3].
  - destruct (H3 0 0 0 (crawl_after_open_spider 0 0)
                (mkCrawlerObj example_cls 2 [uninstall_receiver] true
                   (Some (mkSpider None)) (Some example_engine))
                example_running x Hwf (or_introl eq_refl) Hw)
      as (K1 & _ & K3); [vm_compute; reflexivity|].
    split; [exact K1 | exact (K3 0 0 Ha)].
Defined.

(** The second [process.crawl("quotes")] in a row. *)
Lemma single_installed_crawler_witness :
  CrawlerRunner.crawl 0 (ByName "quotes") [] example_process = (Ok 0, example_crawling)
  ∧ project_crawler example_crawling = Some 0
  ∧ ∃ w2, CrawlerRunner.crawl 0 (ByName "quotes") [] example_crawling
          = (Raise already_installed, w2)
          ∧ project_crawler w2 = Some 0
          ∧ deferreds w2 = deferreds example_crawling.
Proof.
  destruct single_installed_crawler as (_ & _ & H3).
  assert (H : CrawlerRunner.crawl 0 (ByName "quotes") [] example_process
              = (Ok 0, example_crawling)) by (vm_compute; reflexivity).
  destruct (H3 0 (ByName "quotes") [] [] example_process 0 example_crawling H)
    as (K1 & p1 & w2 & _ & K2 & K3 & _ & _ & K6 & _).
  split; [exact H|]. split; [exact K1|].
  exists w2. split; [exact K2|]. split; [exact K3 | exact K6].
Defined.

(** The runner made from settings object 0 refers to that object; the
    crawler it creates gets the frozen object 2. *)
Lemma crawler_settings_frozen_copy_witness :
  settings_objs example_world !! 0 = Some example_settings
  ∧ (∃ w1 p, CrawlerRunner.__init__ 0 example_world = (Ok 0, w1)
             ∧ process_objs w1 !! 0 = Some p ∧ runner_settings p = 0)
  ∧ ∃ w1, CrawlerRunner._create_crawler 0 (ByName "quotes") example_process = (Ok 0, w1)
          ∧ (settings <$> crawler_objs w1 !! 0) = Some 2
          ∧ settings_objs w1 !! 2 = Some (mkSettings (attributes example_settings) true)
          ∧ settings_objs
              (world_after (set_all [(0, "DNSCACHE_ENABLED", 0%Z); (2, "DNSCACHE_ENABLED", 0%Z)])
                 w1) !! 2
            = Some (mkSettings (attributes example_settings) true).
Proof.
  destruct crawler_settings_frozen_copy as (H1 & H2).
  assert (Hs : settings_objs example_world !! 0 = Some example_settings) by reflexivity.
  split; [exact Hs|]. split.
  - destruct (H1 0 example_settings example_world Hs) as (w1 & p & K1 & K2 & K3 & _).
    exists w1, p. split; [exact K1|]. split; [exact K2 | exact K3].
  - destruct (CrawlerRunner._create_crawler 0 (ByName "quotes") example_process)
      as [o w1] eqn:E.
    assert (Ho : o = Ok 0).
    { apply (f_equal fst) in E. vm_compute in E. now subst o. }
    subst o.
    destruct (H2 0 (ByName "quotes") example_process 0 w1 E)
      as (p & s & co & K1 & K2 & K3 & K4 & _ & K6 & _ & K8).
    assert (Ep : p = mkProcessObj 0 {[ "quotes" := example_cls ]} ∅ ∅ false)
      by (vm_compute in K1; now injection K1 as <-).
    assert (Es : s = example_settings).
    { rewrite Ep in K2. vm_compute in K2. now injection K2 as <-. }
    assert (E2 : settings co = 2) by (rewrite K4; vm_compute; reflexivity).
    rewrite E2, Es in *.
    exists w1. split; [reflexivity|]. split; [now rewrite K3; simpl; rewrite E2|].
    split; [exact K6|]. apply K8.
Defined.

(** The runner reads its settings in the object it was given: what the
    caller changes there afterwards, the runner sees, and so does every
    crawler created later. *)
Lemma runner_settings_not_a_snapshot :
  let w1 := world_after (CrawlerRunner.__init__ 0) example_world in
  let w2 := world_after (Settings.set 0 "DNSCACHE_ENABLED" 0) w1 in
  let read := p ← get_process 0; Settings.getbool (runner_settings p) "DNSCACHE_ENABLED" in
  let later := c ← CrawlerRunner._create_crawler 0 (ByName "quotes");
               c ← get_crawler c;
               Settings.getbool (settings c) "DNSCACHE_ENABLED" in
  outcome_of (CrawlerRunner.__init__ 0) example_world = Ok 0
  ∧ (runner_settings <$> process_objs w1 !! 0) = Some 0
  ∧ (frozen <$> settings_objs w1 !! 0) = Some false
  ∧ outcome_of (Settings.set 0 "DNSCACHE_ENABLED" 0) w1 = Ok tt
  ∧ outcome_of read w1 = Ok true
  ∧ outcome_of read w2 = Ok false
  ∧ outcome_of later w1 = Ok true
  ∧ outcome_of later w2 = Ok false.
Proof. vm_compute. repeat split. Defined.

(** The runner of [example_crawling], then a stop of everything, two
    signals, the queued calls and a second crawl. *)
Lemma tracked_sets_only_grow_witness :
  let p := mkProcessObj 0 {[ "quotes" := example_cls ]} {[ 0 ]} {[ 0 ]} false in
  let ops := [op_stop 0; op_signal 2; op_signal 15; op_thread_call; op_thread_call;
              op_engine_stopped 0; op_crawl 0 (ByName "quotes") []] in
  process_objs example_crawling !! 0 = Some p
  ∧ ∃ p', process_objs (world_after (history ops) example_crawling) !! 0 = Some p'
          ∧ crawlers p ⊆ crawlers p'
          ∧ crawl_deferreds p ⊆ crawl_deferreds p'
          ∧ elements (crawlers p') = [1; 0].
Proof.
  intros p ops.
  assert (Hp : process_objs example_crawling !! 0 = Some p) by (vm_compute; reflexivity).
  destruct (tracked_sets_only_grow 0 p example_crawling Hp) as (_ & _ & _ & _ & _ & H).
  destruct (H ops) as (p' & K1 & K2 & K3 & _).
  split; [exact Hp|]. exists p'. split; [exact K1|]. split; [exact K2|]. split; [exact K3|].
  vm_compute in K1. injection K1 as <-. vm_compute. reflexivity.
Defined.

(** * Further properties of crawlers, runners and processes *)

(** ** Submitting a crawl *)











(** ** The steps of a crawl *)






(** ** Stopping a crawl that waits *)





(** ** Running the loop without a stop *)



Lemma loop_goes_on_ext (w w' : World) :
  the_reactor w' = the_reactor w -> deferred_lists w' = deferred_lists w ->
  loop_goes_on w -> loop_goes_on w'.
Proof.
  intros Hr Hl (H1 & H2 & H3). unfold loop_goes_on, no_stop_callback.
  rewrite Hr, Hl. auto.
Qed.

Lemma loop_goes_on_list_callback (dl : nat) (r : outcome) :
  preserves loop_goes_on (DeferredList.callback dl r).
Proof.
  intros w (H1 & H2 & H3). unfold world_after, DeferredList.callback.
  destruct (deferred_lists w !! dl) as [L|] eqn:EL.
  - pose proof (H3 dl L EL) as Hcb.
    destruct (dl_deferred L) as [[r0|] cbs] eqn:ED; simpl in Hcb; subst cbs.
    + unfold callback. run_M. unfold DeferredList.lookup. rewrite EL. simpl.
      rewrite ED. simpl. now repeat split.
    + assert (E : DeferredList.lookup dl w = Some (mkDeferred None []))
        by (unfold DeferredList.lookup; rewrite EL; simpl; now rewrite ED).
      rewrite (callback_eq _ _ _ DeferredList_lookup_update DeferredList_update_update
                 dl r [] w E).
      simpl. split; [exact H1|]. split; [exact H2|].
      intros j Lj. simpl. destruct (decide (dl = j)) as [<-|Hne].
      * rewrite list_lookup_alter_eq, EL. simpl. now intros [= <-].
      * rewrite list_lookup_alter_ne by exact Hne. apply H3.
  - unfold callback. run_M. unfold DeferredList.lookup. rewrite EL. simpl.
    now repeat split.
Qed.

Lemma loop_goes_on_cbDeferred (dl i : nat) (r : outcome) :
  preserves loop_goes_on (DeferredList._cbDeferred dl i r).
Proof.
  intros w H. unfold world_after. rewrite cbDeferred_eq.
  destruct (deferred_lists w !! dl) as [L|] eqn:EL; [|exact H].
  cbv zeta.
  match goal with
  | |- loop_goes_on (?m ?w1).2 => change (loop_goes_on (world_after m w1))
  end.
  apply preserves_bind; [|intros _; apply preserves_ret|].
  - match goal with |- preserves _ (if ?b then _ else _) => destruct b end;
      [apply loop_goes_on_list_callback | apply preserves_ret].
  - destruct H as (H1 & H2 & H3). split; [exact H1|]. split; [exact H2|].
    intros j Lj. simpl. destruct (decide (dl = j)) as [<-|Hne].
    + rewrite list_lookup_insert_eq by (eapply lookup_lt_Some; eassumption).
      intros [= <-]. simpl. now apply (H3 dl).
    + rewrite list_lookup_insert_ne by exact Hne. apply H3.
Qed.

Lemma loop_goes_on_run_cb (cb : handle_callback) (r : outcome) :
  preserves loop_goes_on (defer.run_cb cb r).
Proof. destruct cb as [dl i]. apply loop_goes_on_cbDeferred. Qed.

Lemma loop_goes_on_update (d : nat) (D : Deferred handle_callback) (w : World) :
  loop_goes_on w -> loop_goes_on (defer.update d D w).
Proof. now apply loop_goes_on_ext. Qed.

Lemma loop_goes_on_callback (d : nat) (r : outcome) :
  preserves loop_goes_on (defer.callback d r).
Proof.
  apply shrinking_callback.
  - intros. now apply loop_goes_on_update.
  - apply loop_goes_on_run_cb.
Qed.

Lemma loop_goes_on_addBoth (d : nat) (cb : handle_callback) :
  preserves loop_goes_on (defer.addBoth d cb).
Proof.
  apply growing_addBoth.
  - intros. now apply loop_goes_on_update.
  - apply loop_goes_on_run_cb.
  - intros. now apply loop_goes_on_update.
Qed.

Lemma loop_goes_on_new : preserves loop_goes_on defer.new.
Proof. intros w H. unfold world_after. rewrite defer_new_spec. now apply loop_goes_on_ext with w. Qed.

Lemma loop_goes_on_DeferredList (ds : list nat) :
  preserves loop_goes_on (defer.DeferredList ds).
Proof.
  intros w H. unfold world_after. rewrite DeferredList_eq. cbv zeta.
  match goal with
  | |- loop_goes_on (?m ?w1).2 => change (loop_goes_on (world_after m w1))
  end.
  apply preserves_bind; [|intros _; apply preserves_bind; [|intros _; apply preserves_ret]|].
  - destruct (length ds =? 0); [apply loop_goes_on_list_callback | apply preserves_ret].
  - apply preserves_for_each. intros [index d]. apply loop_goes_on_addBoth.
  - destruct H as (H1 & H2 & H3). split; [exact H1|]. split; [exact H2|].
    intros j Lj. simpl. intros Hj.
    apply lookup_snoc_Some in Hj as [[_ Hj] | [_ <-]]; [now apply (H3 j) | reflexivity].
Qed.

#[export] Hint Resolve loop_goes_on_callback loop_goes_on_new loop_goes_on_DeferredList
  loop_goes_on_cbDeferred : preserves.





(** ** Signals and the loop *)


(** ** Stopping everything *)











(** ** Stopping when nothing is crawling *)




(** ** A graceful shutdown *)




(** ** Settings that stay as they are *)






(** ** Stopping a crawler twice *)


(** ** A second process *)



(** ** The [engine_stopped] signal of an earlier crawler *)



(** ** The small project, further on *)
















